(** * HotWalletCrawlerOnline: the crawl orchestrator of [src/app.js]

    A shallow embedding of the parts of [app.js] that carry logic: the
    transport fallback ([buildProxyUrl], [fetchWithProxyFirst]), the bounded
    scheduler ([mapWithConcurrency]), the extractor ([extractHotWallet]), the
    CSV export ([toCSV]), the per-chain crawl loop and the orchestrator
    ([crawlOneChain], [runCrawler]), the clamping of the two numeric inputs
    in [init], and the forwarding worker of [cloudflare-worker.js].  Values
    read from a response body are arbitrary JSON values; the result table is
    kept as the list of rows it shows; the rest of the DOM, timers and
    wall-clock times are left out. *)

From Stdlib Require Import ZArith QArith Lqa DecimalString Ascii String.
From stdpp Require Import base tactics option list list_numbers strings.

Local Open Scope string_scope.
Local Open Scope list_scope.
Local Open Scope nat_scope.
Set Warnings "-register-all".

(** ** JavaScript values as they come out of [JSON.parse] *)

Module Js.

(** A number of a response body.  The crawler does no arithmetic on such a
    number: it tests it for zero ([ToBoolean], [=== 0]) and prints it, so a
    number is kept as these two readings: whether it is zero, and the text
    [Number::toString] gives for it ([2.5] for 2.5, [1e+21] for 1e21). *)
Record number := mkNumber {
  is_zero : bool;
  text : string
}.

(** A value read from a response body, plus [undefined] for what a property
    read yields when the property is absent. *)
Inductive jsval :=
| JUndefined
| JNull
| JBool (b : bool)
| JNum (n : number)
| JStr (s : string)
| JArr (elems : list jsval)
| JObj (fields : list (string * jsval)).

(** Errors are carried by their message ([err.message || err]). *)
Inductive result (A : Type) :=
| Ok (a : A)
| Throw (msg : string).
Arguments Ok {A} a.
Arguments Throw {A} msg.

Definition bind {A B} (r : result A) (k : A -> result B) : result B :=
  match r with
  | Ok a => k a
  | Throw m => Throw m
  end.

Notation "'let*' x ':=' r 'in' k" := (bind r (fun x => k))
  (at level 10, x name, r at level 100, k at level 200).

Fixpoint assoc {V} (k : string) (l : list (string * V)) : option V :=
  match l with
  | [] => None
  | (k', v) :: rest => if String.eqb k k' then Some v else assoc k rest
  end.

Definition nullish (v : jsval) : bool :=
  match v with
  | JUndefined | JNull => true
  | _ => false
  end.

(** [ToBoolean]. *)
Definition truthy (v : jsval) : bool :=
  match v with
  | JUndefined | JNull => false
  | JBool b => b
  | JNum n => negb (is_zero n)
  | JStr s => negb (String.eqb s EmptyString)
  | JArr _ | JObj _ => true
  end.

(** [v.k] on a value that is not nullish, for a property name other than
    [length]: own properties of objects; arrays, strings, numbers and booleans
    have none of the names the crawler reads. *)
Definition own (v : jsval) (k : string) : jsval :=
  match v with
  | JObj fields =>
      match assoc k fields with
      | Some x => x
      | None => JUndefined
      end
  | _ => JUndefined
  end.

(** [v.k]: a [TypeError] on [undefined] and [null]. *)
Definition prop (v : jsval) (k : string) : result jsval :=
  if nullish v then Throw "TypeError" else Ok (own v k).

(** [v?.k]: [undefined] on [undefined] and [null]. *)
Definition opt_prop (v : jsval) (k : string) : jsval :=
  if nullish v then JUndefined else own v k.

(** [v.length === 0], for [v] not nullish. *)
Definition length_is_zero (v : jsval) : bool :=
  match v with
  | JArr elems => Nat.eqb (length elems) 0
  | JStr s => Nat.eqb (String.length s) 0
  | JObj fields =>
      match assoc "length" fields with
      | Some (JNum n) => is_zero n
      | _ => false
      end
  | _ => false
  end.

(** [v === s] for a string [s]. *)
Definition strict_eq_str (v : jsval) (s : string) : bool :=
  match v with
  | JStr t => String.eqb t s
  | _ => false
  end.

Definition string_of_Z (z : Z) : string :=
  NilZero.string_of_int (Z.to_int z).

Fixpoint join (sep : string) (parts : list string) : string :=
  match parts with
  | [] => EmptyString
  | [p] => p
  | p :: rest => p +:+ sep +:+ join sep rest
  end.

(** [String(v)], which is also what a template literal applies.  An object
    of a response body inherits [Object.prototype.toString] unless it has a
    member named [toString] of its own; such a member is never a function,
    and [valueOf] (its own, or the inherited one, which returns the object)
    yields no primitive, so the conversion throws a [TypeError].  An array is
    joined with commas, [null] and [undefined] elements printing as the empty
    string and the others converted in turn. *)
Fixpoint ToString (v : jsval) : result string :=
  match v with
  | JUndefined => Ok "undefined"
  | JNull => Ok "null"
  | JBool true => Ok "true"
  | JBool false => Ok "false"
  | JNum n => Ok (text n)
  | JStr s => Ok s
  | JArr elems =>
      let fix parts (l : list jsval) : result (list string) :=
        match l with
        | [] => Ok []
        | e :: rest =>
            let* p := (if nullish e then Ok EmptyString else ToString e) in
            let* ps := parts rest in
            Ok (p :: ps)
        end in
      let* ps := parts elems in
      Ok (join "," ps)
  | JObj fields =>
      match assoc "toString" fields with
      | Some _ => Throw "TypeError"
      | None => Ok "[object Object]"
      end
  end.

End Js.
Import Js.

(** ** The accumulation object and the extractor *)

Module Extractor.

(** A row of the result table.  [chain] and [address] are whatever the
    response carried; [label] is the matched label name. *)
Record Row := mkRow {
  chain : jsval;
  address : jsval;
  arkm_url : string;
  label : jsval
}.

(** A plain object used as a map.  Every key written by the extractor holds
    an [@], so none is an array index and [Object.keys] / [Object.values]
    enumerate in insertion order: an association list in that order. *)
Definition obj := list (string * Row).

(** [target[key] = row]: an existing key keeps its place. *)
Fixpoint obj_set (key : string) (row : Row) (target : obj) : obj :=
  match target with
  | [] => [(key, row)]
  | (k, r) :: rest =>
      if String.eqb key k then (k, row) :: rest
      else (k, r) :: obj_set key row rest
  end.

Definition keys (o : obj) : list string := map fst o.
Definition values (o : obj) : list Row := map snd o.

(** [`${address}@${chain}`] *)
Definition key_of (address chain : jsval) : result string :=
  let* a := ToString address in
  let* c := ToString chain in
  Ok (a +:+ "@" +:+ c).

(** The object literal, with its template literal for [arkm_url]. *)
Definition row_of (address chain labelName : jsval) : result Row :=
  let* a := ToString address in
  Ok {| chain := chain;
        address := address;
        arkm_url := "https://intel.arkm.com/explorer/address/" +:+ a;
        label := labelName |}.

Definition extractHotWallet (addrInfo : jsval) (target : obj)
    (expectedEntityName : string) : result obj :=
  let entityName := opt_prop (opt_prop addrInfo "arkhamEntity") "name" in
  let labelName := opt_prop (opt_prop addrInfo "arkhamLabel") "name" in
  if strict_eq_str entityName expectedEntityName
     && strict_eq_str labelName "Hot Wallet"
  then
    let* address := prop addrInfo "address" in
    let* chain := prop addrInfo "chain" in
    let* key := key_of address chain in
    let* row := row_of address chain labelName in
    Ok (obj_set key row target)
  else Ok target.

End Extractor.
Import Extractor.

(** ** CSV export *)

Module Csv.

Definition dquote : ascii := "034"%char.
Definition comma : ascii := ","%char.
Definition newline : ascii := "010"%char.

Definition special (c : ascii) : bool :=
  Ascii.eqb c dquote || Ascii.eqb c comma || Ascii.eqb c newline.

(** The test of the regular expression: a double quote, a comma or a line
    feed occurs in [s]. *)
Fixpoint has_special (s : string) : bool :=
  match s with
  | EmptyString => false
  | String c rest => special c || has_special rest
  end.

(** The global replace: every double quote becomes two. *)
Fixpoint double_quotes (s : string) : string :=
  match s with
  | EmptyString => EmptyString
  | String c rest =>
      if Ascii.eqb c dquote then String dquote (String dquote (double_quotes rest))
      else String c (double_quotes rest)
  end.

Definition encode_field (s : string) : string :=
  if has_special s
  then String dquote (double_quotes s +:+ String dquote EmptyString)
  else s.

Definition header : list string := ["chain"; "address"; "arkm_url"; "label"].

(** [[r.chain, r.address, r.arkm_url, r.label]] after [String(v)], in the
    order in which the inner [map] converts them. *)
Definition cells (r : Row) : result (list string) :=
  let* c := ToString (chain r) in
  let* a := ToString (address r) in
  let* l := ToString (label r) in
  Ok [c; a; arkm_url r; l].

(** [rows.map(r => ...)], row by row. *)
Fixpoint lines_of (rows : list Row) : result (list string) :=
  match rows with
  | [] => Ok []
  | r :: rest =>
      let* fs := cells r in
      let* ls := lines_of rest in
      Ok (join "," (map encode_field fs) :: ls)
  end.

Definition toCSV (rows : list Row) : result string :=
  let* ls := lines_of rows in
  Ok (join (String newline EmptyString) (join "," header :: ls)).

(** The reader the export is checked against: quoted fields may hold commas,
    line feeds and doubled quotes; records end at a line feed outside quotes
    or at the end of the text.  It is not part of [app.js]; it states what
    "parsing it back" means for the round trip. *)
Inductive pstate := Bare | Quoted | QuoteSeen.

Definition snoc (s : string) (c : ascii) : string := s +:+ String c EmptyString.

Fixpoint parse_from (st : pstate) (cur : string) (rec : list string)
    (s : string) : list (list string) :=
  match s with
  | EmptyString => [rec ++ [cur]]
  | String c rest =>
      match st with
      | Quoted =>
          if Ascii.eqb c dquote then parse_from QuoteSeen cur rec rest
          else parse_from Quoted (snoc cur c) rec rest
      | QuoteSeen =>
          if Ascii.eqb c dquote then parse_from Quoted (snoc cur c) rec rest
          else if Ascii.eqb c comma then parse_from Bare EmptyString (rec ++ [cur]) rest
          else if Ascii.eqb c newline then (rec ++ [cur]) :: parse_from Bare EmptyString [] rest
          else parse_from Bare (snoc cur c) rec rest
      | Bare =>
          if Ascii.eqb c comma then parse_from Bare EmptyString (rec ++ [cur]) rest
          else if Ascii.eqb c newline then (rec ++ [cur]) :: parse_from Bare EmptyString [] rest
          else if Ascii.eqb c dquote then
            match cur with
            | EmptyString => parse_from Quoted EmptyString rec rest
            | _ => parse_from Bare (snoc cur c) rec rest
            end
          else parse_from Bare (snoc cur c) rec rest
      end
  end.

Definition parse_csv_reference (s : string) : list (list string) :=
  parse_from Bare EmptyString [] s.

End Csv.

(** ** The two numeric inputs of [init] *)

Module Num.

(** The value [Number(input.value)] gives: a finite number (as the rational
    it denotes), an infinity, or [NaN].  [Number] of the empty string is 0 and
    [Number] of a string that is not a numeric literal is [NaN]. *)
Inductive number :=
| NaN
| PosInf
| NegInf
| Fin (q : Q).

(** [ToBoolean] on numbers: 0 and [NaN] are falsy. *)
Definition falsy (n : number) : bool :=
  match n with
  | NaN => true
  | Fin q => Qeq_bool q 0
  | _ => false
  end.

(** [a || b] *)
Definition or_else (a b : number) : number := if falsy a then b else a.

Definition Math_min (a b : number) : number :=
  match a, b with
  | NaN, _ | _, NaN => NaN
  | NegInf, _ | _, NegInf => NegInf
  | PosInf, x | x, PosInf => x
  | Fin p, Fin q => if Qle_bool p q then Fin p else Fin q
  end.

Definition Math_max (a b : number) : number :=
  match a, b with
  | NaN, _ | _, NaN => NaN
  | PosInf, _ | _, PosInf => PosInf
  | NegInf, x | x, NegInf => x
  | Fin p, Fin q => if Qle_bool p q then Fin q else Fin p
  end.

(** [Math.max(1, Math.min(1000, Number(limitInput.value) || 500))] *)
Definition clamp_limit (v : number) : number :=
  Math_max (Fin 1) (Math_min (Fin 1000) (or_else v (Fin 500))).

(** [Math.max(1, Math.min(10, Number(pagesInput.value) || 3))] *)
Definition clamp_pages (v : number) : number :=
  Math_max (Fin 1) (Math_min (Fin 10) (or_else v (Fin 3))).

End Num.

(** ** Transport *)

Module Transport.

(** A parsed URL: what precedes the query, the query pairs, the fragment.
    A URL string built by [URL.prototype.toString] is identified with the
    record it serialises. *)
Record url := mkUrl {
  origin_path : string;
  searchParams : list (string * string);
  hash : string
}.

(** [searchParams.set(name, value)]: the first pair of that name takes the
    value and the others go; with no such pair, one is appended. *)
Fixpoint params_set (name value : string) (ps : list (string * string))
    : list (string * string) :=
  match ps with
  | [] => [(name, value)]
  | (n, v) :: rest =>
      if String.eqb n name
      then (n, value) :: List.filter (fun p => negb (String.eqb (fst p) name)) rest
      else (n, v) :: params_set name value rest
  end.

(** [searchParams.get(name)] *)
Definition params_get (name : string) (ps : list (string * string)) : option string :=
  assoc name ps.

Definition lower_ascii (c : ascii) : ascii :=
  let n := nat_of_ascii c in
  if (65 <=? n) && (n <=? 90) then ascii_of_nat (n + 32) else c.

Fixpoint lower (s : string) : string :=
  match s with
  | EmptyString => EmptyString
  | String c rest => String (lower_ascii c) (lower rest)
  end.

(** A [Headers] object: names are kept in lower case, one entry per name. *)
Definition Headers := list (string * string).

Definition Headers_get (name : string) (h : Headers) : option string :=
  assoc (lower name) h.

Definition Headers_delete (name : string) (h : Headers) : Headers :=
  List.filter (fun p => negb (String.eqb (fst p) (lower name))) h.

Fixpoint Headers_put (combine : string -> string -> string) (name value : string)
    (h : Headers) : Headers :=
  match h with
  | [] => [(name, value)]
  | (n, v) :: rest =>
      if String.eqb n name then (n, combine v value) :: rest
      else (n, v) :: Headers_put combine name value rest
  end.

Definition Headers_set (name value : string) (h : Headers) : Headers :=
  Headers_put (fun _ new => new) (lower name) value h.

(** [append] joins the values of a repeated name with a comma and a space. *)
Definition Headers_append (name value : string) (h : Headers) : Headers :=
  Headers_put (fun old new => old +:+ ", " +:+ new) (lower name) value h.

(** [new Headers(init)] for a plain object [init]. *)
Definition Headers_new (init : list (string * string)) : Headers :=
  fold_left (fun h p => Headers_append (fst p) (snd p) h) init [].

(** The [headers] member of a fetch options object. *)
Inductive headers_init :=
| NoHeaders
| PlainHeaders (dict : list (string * string))
| HeadersObject (h : Headers).

Record options := mkOptions {
  headers : headers_init;
  cache : option string;
  signal : option nat
}.

Inductive resource :=
| Raw (href : string)
| Href (u : url).

Record response := mkResponse {
  status : nat;
  body : string
}.

(** [fetch] either rejects (network failure, CORS, abort) or resolves with a
    response of any status. *)
Inductive fetched :=
| Rejected (err : string)
| Resolved (resp : response).

Record attempt := mkAttempt {
  issued : list (resource * options);
  outcome : fetched
}.

Section transport.

(** [new URL(s)]: [None] when the constructor throws. *)
Variable URL_parse : string -> option url.
Variable fetch : resource -> options -> fetched.

Definition buildProxyUrl (proxyBase target : string) : option url :=
  match URL_parse proxyBase with
  | Some base =>
      let proxied := base in
      Some {| origin_path := origin_path proxied;
              searchParams := params_set "url" target (searchParams proxied);
              hash := hash proxied |}
  | None => None
  end.

(** [new Headers(options?.headers || {})] *)
Definition copy_headers (o : options) : Headers :=
  match headers o with
  | NoHeaders => Headers_new []
  | PlainHeaders dict => Headers_new dict
  | HeadersObject h => h
  end.

(** The options of the forwarded request. *)
Definition forward_options (o : options) : options :=
  let h := copy_headers o in
  let h' :=
    match Headers_get "API-Key" h with
    | Some apiKey =>
        if negb (String.eqb apiKey EmptyString)
        then Headers_set "X-API-Key" apiKey (Headers_delete "API-Key" h)
        else h
    | None => h
    end in
  {| headers := HeadersObject h'; cache := cache o; signal := signal o |}.

Definition fetchWithProxyFirst (url : string) (o : options)
    (proxy : option string) : attempt :=
  let direct := (Raw url, o) in
  match fetch (Raw url) o with
  | Resolved resp => {| issued := [direct]; outcome := Resolved resp |}
  | Rejected err =>
      let rethrow := {| issued := [direct]; outcome := Rejected err |} in
      match proxy with
      | Some p =>
          if negb (String.eqb p EmptyString) then
            match buildProxyUrl p url with
            | Some proxied =>
                let opt := forward_options o in
                {| issued := [direct; (Href proxied, opt)];
                   outcome := fetch (Href proxied) opt |}
            | None => rethrow
            end
          else rethrow
      | None => rethrow
      end
  end.

End transport.

End Transport.

(** ** The scheduler: [mapWithConcurrency] *)

Module Limiter.

(** The scheduler's variables.  A started task is named by its index, which
    also stands for the promise [p] held in [running].  [racing] holds one
    entry per runner suspended in [await Promise.race(running)]: the members
    of [running] when the race was built, oldest race first.  A runner that is
    not in [racing] has returned.  [world] is whatever the tasks act on. *)
Record state (A W : Type) := mkState {
  nextIndex : nat;
  running : list nat;
  results : list (option A);
  racing : list (list nat);
  world : W
}.
Arguments mkState {A W}.
Arguments nextIndex {A W}.
Arguments running {A W}.
Arguments results {A W}.
Arguments racing {A W}.
Arguments world {A W}.

Definition mem (j : nat) (l : list nat) : bool := existsb (Nat.eqb j) l.

Section mapWithConcurrency.

Context {I A W : Type}.

(** What [task(item, index)] does before its first [await]. *)
Variable task_begin : I -> nat -> W -> W.
Variable items : list I.
Variable limit : nat.

(** [const current = nextIndex++], the call of [task] and [running.add(p)]. *)
Definition launch (item : I) (s : state A W) : state A W :=
  let current := nextIndex s in
  {| nextIndex := S current;
     running := running s ++ [current];
     results := results s;
     racing := racing s;
     world := task_begin item current (world s) |}.

Definition suspend (s : state A W) : state A W :=
  {| nextIndex := nextIndex s;
     running := running s;
     results := results s;
     racing := racing s ++ [running s];
     world := world s |}.

(** [runOne] up to its next suspension; [rest] is [items] from [nextIndex]
    on, so the empty list is [nextIndex >= items.length]. *)
Fixpoint runOne_from (rest : list I) (s : state A W) : state A W :=
  match rest with
  | [] => s
  | item :: rest' =>
      let s1 := launch item s in
      if limit <=? length (running s1) then suspend s1
      else runOne_from rest' s1
  end.

Definition runOne (s : state A W) : state A W :=
  runOne_from (drop (nextIndex s) items) s.

(** The synchronous part of [mapWithConcurrency]: the array of results and
    the [Math.min(limit, items.length)] starters, each run to its first
    suspension. *)
Definition begin (w : W) : state A W :=
  Nat.iter (Nat.min limit (length items)) runOne
    {| nextIndex := 0;
       running := [];
       results := replicate (length items) None;
       racing := [];
       world := w |}.

(** Task [j] settles with [v]: its slot is written, [p] leaves [running],
    and every runner whose race holds [p] resumes with [return runOne()],
    in the order in which the races were built. *)
Definition settle (j : nat) (v : A) (s : state A W) : state A W :=
  let woken := List.filter (mem j) (racing s) in
  let asleep := List.filter (fun snap => negb (mem j snap)) (racing s) in
  fold_left (fun st _ => runOne st) woken
    {| nextIndex := nextIndex s;
       running := List.filter (fun k => negb (Nat.eqb j k)) (running s);
       results := <[j := Some v]> (results s);
       racing := asleep;
       world := world s |}.

(** [await Promise.all(starters)] is over: every starter has returned. *)
Definition returned (s : state A W) : bool :=
  match racing s with
  | [] => true
  | _ => false
  end.

(** Tasks settle one at a time, in the order [order] gives. *)
Fixpoint settle_all (order : list (nat * A)) (s : state A W) : state A W :=
  match order with
  | [] => s
  | (j, v) :: rest => settle_all rest (settle j v s)
  end.

End mapWithConcurrency.

End Limiter.

(** ** The chain crawler and the orchestrator: [runCrawler] *)

Module Crawler.

(** The text [setChainStatus] writes on a chain's line, by its shape. *)
Inductive chain_status :=
| NotStarted
| InProgress (page found : nat)
| Completed (count : nat)
| Failed (reason : string).

(** How [await api.fetchTransfers(...)] ends for one page: it throws (the
    transport rejects, the 15 s timer aborts the request, the status is not
    ok, the body is not JSON) or it returns the parsed body. *)
Inductive page :=
| PageFailed (reason : string)
| PageData (data : jsval).

(** The loop counter [i] as a number. *)
Definition Qnat (n : nat) : Q := inject_Z (Z.of_nat n).

(** [a < b] on numbers. *)
Definition Qltb (a b : Q) : bool := negb (Qle_bool b a).

(** The variables of one run that the chain crawls share, the lines of the
    status panel, the calls of [appendResults] made so far, and the frame of
    each [crawlOneChain] call (its [i] and [merged]), by task index.

    [pages] reaches [runCrawler] as [init] clamps it, without rounding: it is
    a number between 1 and 10 that need not be whole, and so are
    [completedPages] and [totalPages].  They are rationals here and their
    arithmetic is exact: the rounding of binary64 is not modelled.  The
    source rounds no sum or difference when [pages] is a whole number or a
    multiple of one half. *)
Record world := mkWorld {
  completedPages : Q;
  completedChains : nat;
  allResults : list Row;
  statuses : list (string * chain_status);
  appended : list (list Row);
  frames : list (nat * obj)
}.

Definition add_pages (n : Q) (w : world) : world :=
  mkWorld (completedPages w + n)%Q (completedChains w) (allResults w)
          (statuses w) (appended w) (frames w).

Definition add_chain (w : world) : world :=
  mkWorld (completedPages w) (completedChains w + 1) (allResults w)
          (statuses w) (appended w) (frames w).

Definition push_results (rows : list Row) (w : world) : world :=
  mkWorld (completedPages w) (completedChains w) (allResults w ++ rows)
          (statuses w) (appended w) (frames w).

Fixpoint write_status (chain : string) (st : chain_status)
    (l : list (string * chain_status)) : list (string * chain_status) :=
  match l with
  | [] => []
  | (c, old) :: rest =>
      if String.eqb chain c then (c, st) :: rest
      else (c, old) :: write_status chain st rest
  end.

(** [setChainStatus]: the first line of that chain, if there is one. *)
Definition setChainStatus (chain : string) (st : chain_status) (w : world) : world :=
  mkWorld (completedPages w) (completedChains w) (allResults w)
          (write_status chain st (statuses w)) (appended w) (frames w).

Definition appendResults (newly : list Row) (w : world) : world :=
  mkWorld (completedPages w) (completedChains w) (allResults w)
          (statuses w) (appended w ++ [newly]) (frames w).

Definition set_frame (idx : nat) (f : nat * obj) (w : world) : world :=
  mkWorld (completedPages w) (completedChains w) (allResults w)
          (statuses w) (appended w) (<[idx := f]> (frames w)).

Definition frame (idx : nat) (w : world) : nat * obj :=
  match frames w !! idx with
  | Some f => f
  | None => (0, [])
  end.

(** [arr.slice(-n)] for [n > 0] *)
Definition slice_last {T} (n : nat) (l : list T) : list T :=
  drop (length l - n) l.

Inductive control := Break | Next.

Section runCrawler.

Variable entityName : string.
Variable pages : Q.
Variable chains : list string.

(** [data.transfers || []] *)
Definition transfers_of (data : jsval) : result jsval :=
  let* t := prop data "transfers" in
  Ok (if truthy t then t else JArr []).

(** The callback of [transfers.forEach], over the elements in order. *)
Fixpoint forEach_extract (txs : list jsval) (merged : obj) : result obj :=
  match txs with
  | [] => Ok merged
  | tx :: rest =>
      let* owner := prop tx "fromAddressOwner" in
      let* merged' :=
        (if truthy owner then extractHotWallet owner merged entityName
         else let* from := prop tx "fromAddress" in
              extractHotWallet from merged entityName) in
      forEach_extract rest merged'
  end.

(** [transfers.forEach(...)]: only an array has the method. *)
Definition forEach (transfers : jsval) (merged : obj) : result obj :=
  match transfers with
  | JArr txs => forEach_extract txs merged
  | _ => Throw "TypeError"
  end.

(** The body of the inner [try] for page [i], from the point where the
    request of that page has ended. *)
Definition page_body (chain : string) (i : nat) (merged : obj) (p : page)
    (w : world) : result (control * obj * world) :=
  match p with
  | PageFailed reason => Throw reason
  | PageData data =>
      let* transfers := transfers_of data in
      if length_is_zero transfers then
        Ok (Break, merged, add_pages (pages - Qnat i)%Q w)
      else
        let before := length (keys merged) in
        let* merged' := forEach transfers merged in
        let found := length (keys merged') in
        let deltaNew := found - before in
        let w1 :=
          if 0 <? deltaNew
          then appendResults (slice_last deltaNew (values merged')) w
          else w in
        let w2 := setChainStatus chain (InProgress (i + 1) found) w1 in
        Ok (Next, merged', add_pages 1 w2)
  end.

(** After the loop: [allResults.push(...list)], the final status, and the
    outer [finally]. *)
Definition finish (chain : string) (merged : obj) (w : world) : world :=
  let list := values merged in
  add_chain (setChainStatus chain (Completed (length list)) (push_results list w)).

(** The outer [catch] and [finally]. *)
Definition fail (chain : string) (reason : string) (w : world) : world :=
  add_chain (setChainStatus chain (Failed reason) w).

(** [crawlOneChain] up to the request of page 0; the loop is entered, since
    [pages] is at least 1. *)
Definition crawl_begin (chain : string) (idx : nat) (w : world) : world :=
  set_frame idx (0, []) (setChainStatus chain (InProgress 0 0) w).

(** [crawlOneChain] from the end of one page request to the next request,
    or to its return ([true]). *)
Definition crawl_step (chain : string) (idx : nat) (p : page) (w : world)
    : world * bool :=
  let '(i, merged) := frame idx w in
  match page_body chain i merged p w with
  | Throw reason => (fail chain reason w, true)
  | Ok (Break, merged', w') => (finish chain merged' w', true)
  | Ok (Next, merged', w') =>
      if Qltb (Qnat (S i)) pages then (set_frame idx (S i, merged') w', false)
      else (finish chain merged' w', true)
  end.

(** One chain crawled alone: the pages of [ps] are consumed until the crawl
    returns. *)
Fixpoint crawl_pages (chain : string) (idx : nat) (ps : list page) (w : world)
    : world * bool :=
  match ps with
  | [] => (w, false)
  | p :: rest =>
      let '(w', done) := crawl_step chain idx p w in
      if done then (w', true) else crawl_pages chain idx rest w'
  end.

Definition orchestrator := Limiter.state unit world.

(** [runCrawler] up to [await mapWithConcurrency(chains, 3, crawlOneChain)]. *)
Definition run_begin : orchestrator :=
  Limiter.begin crawl_begin chains 3
    (mkWorld 0 0 [] (map (fun c => (c, NotStarted)) chains) []
             (replicate (length chains) (0, []))).

(** The request of the chain at [idx] ends with [p]. *)
Definition deliver (idx : nat) (p : page) (s : orchestrator) : option orchestrator :=
  if Limiter.mem idx (Limiter.running s) then
    match chains !! idx with
    | Some chain =>
        let '(w', done) := crawl_step chain idx p (Limiter.world s) in
        let s' := Limiter.mkState (Limiter.nextIndex s) (Limiter.running s)
                    (Limiter.results s) (Limiter.racing s) w' in
        Some (if done then Limiter.settle crawl_begin chains 3 idx tt s' else s')
    | None => None
    end
  else None.

Fixpoint run_events (evs : list (nat * page)) (s : orchestrator)
    : option orchestrator :=
  match evs with
  | [] => Some s
  | (idx, p) :: rest =>
      match deliver idx p s with
      | Some s' => run_events rest s'
      | None => None
      end
  end.

Definition reachable (s : orchestrator) : Prop :=
  exists evs, run_events evs run_begin = Some s.

Definition totalPages : Q := (Qnat (length chains) * pages)%Q.

End runCrawler.

End Crawler.
Import Crawler.

(** ** Readings of the response used to state the properties *)

Module Reading.

(** The name held under [field] of an address-info record, when the record
    is an object whose [field] is an object with a string [name]. *)
Definition name_in (field : string) (r : jsval) : option string :=
  match r with
  | JObj fs =>
      match assoc field fs with
      | Some (JObj gs) =>
          match assoc "name" gs with
          | Some (JStr s) => Some s
          | _ => None
          end
      | _ => None
      end
  | _ => None
  end.

(** The record is owned by entity [n] and labelled as a hot wallet. *)
Definition qualifies (r : jsval) (n : string) : Prop :=
  name_in "arkhamEntity" r = Some n /\ name_in "arkhamLabel" r = Some "Hot Wallet".

(** [String(v)] returns. *)
Definition printable (v : jsval) : Prop := exists s, ToString v = Ok s.

(** The fields of the row can be converted to strings. *)
Definition printable_row (r : Row) : Prop :=
  printable (chain r) /\ printable (address r) /\ printable (label r).

Definition key_of_info (r : jsval) : result string :=
  key_of (own r "address") (own r "chain").

Definition row_of_info (r : jsval) : result Row :=
  row_of (own r "address") (own r "chain") (JStr "Hot Wallet").

(** The extractor applied to a sequence of records, as one page does. *)
Fixpoint extract_all (n : string) (infos : list jsval) (target : obj) : result obj :=
  match infos with
  | [] => Ok target
  | r :: rest =>
      let* target' := extractHotWallet r target n in
      extract_all n rest target'
  end.

(** The rows of [after] whose keys [before] does not hold, in the order of
    [after]. *)
Definition added_rows (before after : obj) : list Row :=
  values (List.filter (fun kv => negb (existsb (String.eqb (fst kv)) (keys before))) after).

(** The page carries at least one transfer record and every record is an
    object or another value that is not nullish. *)
Definition has_records (p : page) : bool :=
  match p with
  | PageData (JObj fs) =>
      match assoc "transfers" fs with
      | Some (JArr (tx :: txs)) => forallb (fun t => negb (nullish t)) (tx :: txs)
      | _ => false
      end
  | _ => false
  end.

(** The page carries zero transfer records: [transfers] is the empty array,
    or is absent or otherwise falsy. *)
Definition no_records (p : page) : bool :=
  match p with
  | PageData (JObj fs) =>
      match assoc "transfers" fs with
      | Some (JArr []) => true
      | Some t => negb (truthy t)
      | None => true
      end
  | _ => false
  end.

(** The map a chain holds after the given pages, each passed to the
    [forEach] of the loop in turn. *)
Fixpoint harvest (n : string) (ps : list page) (merged : obj) : result obj :=
  match ps with
  | [] => Ok merged
  | PageFailed reason :: _ => Throw reason
  | PageData data :: rest =>
      let* transfers := transfers_of data in
      let* merged' := forEach n transfers merged in
      harvest n rest merged'
  end.

(** The rows of the text lines [toCSV] writes, when every cell prints. *)
Fixpoint all_cells (rows : list Row) : result (list (list string)) :=
  match rows with
  | [] => Ok []
  | r :: rest =>
      let* fs := Csv.cells r in
      let* fss := all_cells rest in
      Ok (fs :: fss)
  end.

(** The page count is a whole number. *)
Definition whole (pages : Q) : Prop := exists n : nat, (pages == Qnat n)%Q.

(** The sum of [f] over the task indices of [l]. *)
Fixpoint Qsum (f : nat -> Q) (l : list nat) : Q :=
  match l with
  | [] => 0%Q
  | j :: rest => (f j + Qsum f rest)%Q
  end.

End Reading.
Import Reading.

(** ** Invariants of the scheduler and of a run *)

Module Invariant.

(** [cur] is [base] with some rows overwritten in place, followed by rows
    under keys [base] does not hold. *)
Definition grows_from (base cur : obj) : Prop :=
  exists upd new, cur = upd ++ new /\ keys upd = keys base /\
    Forall (fun k => k ∉ keys base) (keys new).

(** A state of the CSV reader in which a field may end. *)
Definition closing (st : Csv.pstate) : Prop := st = Csv.Bare \/ st = Csv.QuoteSeen.

(** One line of the export, from the fields of its row. *)
Definition line (fs : list string) : string := join "," (map Csv.encode_field fs).

(** The started tasks are below [nextIndex], each at most once in [running],
    and every suspended runner races at least one task that is still
    running. *)
Definition sched_inv {A W} (n : nat) (s : Limiter.state A W) : Prop :=
  Limiter.nextIndex s <= n /\
  NoDup (Limiter.running s) /\
  (forall j, j ∈ Limiter.running s -> j < Limiter.nextIndex s) /\
  (forall snap, snap ∈ Limiter.racing s ->
     exists j, j ∈ snap /\ j ∈ Limiter.running s).

(** While items remain, some runner is suspended and will start them. *)
Definition awaited {A W} (n : nat) (s : Limiter.state A W) : Prop :=
  Limiter.nextIndex s < n -> Limiter.racing s <> [].

(** The pages the running chains may still count. *)
Definition pending (pages : Q) (s : orchestrator) : Q :=
  Qsum (fun j => (pages - Qnat (fst (frame j (Limiter.world s))))%Q) (Limiter.running s).

(** Every running chain is at a page below [pages]; [completedChains]
    counts the chains started and no longer running. *)
Definition crawl_inv (pages : Q) (chains : list string) (s : orchestrator) : Prop :=
  let w := Limiter.world s in
  sched_inv (length chains) s /\
  length (frames w) = length chains /\
  (forall j, j ∈ Limiter.running s -> (Qnat (fst (frame j w)) < pages)%Q) /\
  (0 <= completedPages w)%Q /\
  completedChains w + length (Limiter.running s) = Limiter.nextIndex s /\
  map fst (statuses w) = chains.

(** The chain at [idx] has been started and has returned, and its status
    line reads [st]. *)
Definition gone (idx : nat) (chain : string) (st : option chain_status)
    (t : orchestrator) : Prop :=
  idx < Limiter.nextIndex t /\ (idx ∉ Limiter.running t) /\
  assoc chain (statuses (Limiter.world t)) = st.

End Invariant.
Import Invariant.

(** ** Sample data *)

Module Sample.

Definition CHAINS : list string :=
  ["bitcoin"; "ethereum"; "solana"; "tron"; "dogecoin"; "ton"; "base";
   "arbitrum_one"; "sonic"; "optimism"; "mantle"; "avalanche"; "bsc"; "linea";
   "polygon"; "blast"; "manta"; "flare"].

Definition info (a c e l : string) : jsval :=
  JObj [("address", JStr a); ("chain", JStr c);
        ("arkhamEntity", JObj [("name", JStr e)]);
        ("arkhamLabel", JObj [("name", JStr l)])].

Definition acme_btc : jsval := info "bc1xyz" "bitcoin" "Acme" "Hot Wallet".
Definition acme_eth : jsval := info "0xabc" "ethereum" "Acme" "Hot Wallet".

Definition tx_from (owner : jsval) : jsval := JObj [("fromAddressOwner", owner)].

Definition page_of (txs : list jsval) : page :=
  PageData (JObj [("transfers", JArr txs)]).

Definition csv_row : Row :=
  mkRow (JStr "bitcoin") (JStr "1A2b,3C") "https://x" (JStr "Hot Wallet").

Definition two_chains : list string := ["bitcoin"; "ethereum"].

Definition btc_page : page := page_of [tx_from acme_btc].

(** A run over two chains, two pages each: bitcoin answers page 0 with one
    hot wallet and fails on page 1; ethereum has no transfers. *)
Definition failure_run : list (nat * page) :=
  [(0, btc_page); (0, PageFailed "timeout"); (1, page_of [])].

Definition after_btc_page : orchestrator :=
  match run_events "Acme" 2 two_chains [(0, btc_page)] (run_begin two_chains) with
  | Some s => s
  | None => run_begin two_chains
  end.

(** Each of the listed chains fails on the page it is waiting for. *)
Definition failing (order : list nat) : list (nat * page) :=
  map (fun idx => (idx, PageFailed "timeout")) order.

(** The rows the extractor builds of the two records. *)
Definition acme_btc_row : Row :=
  mkRow (JStr "bitcoin") (JStr "bc1xyz")
        "https://intel.arkm.com/explorer/address/bc1xyz" (JStr "Hot Wallet").

Definition acme_eth_row : Row :=
  mkRow (JStr "ethereum") (JStr "0xabc")
        "https://intel.arkm.com/explorer/address/0xabc" (JStr "Hot Wallet").

Definition one_known_row : obj := [("bc1xyz@bitcoin", acme_btc_row)].

(** A hot wallet of the entity whose address is the object
    [{ "toString": 0 }]. *)
Definition odd_address : jsval :=
  JObj [("address", JObj [("toString", JNum (mkNumber true "0"))]);
        ("chain", JStr "bitcoin");
        ("arkhamEntity", JObj [("name", JStr "Acme")]);
        ("arkhamLabel", JObj [("name", JStr "Hot Wallet")])].

Definition worker_base : string := "https://w.example/".

Definition parse_worker_only (s : string) : option Transport.url :=
  if String.eqb s worker_base then Some (Transport.mkUrl s [] EmptyString) else None.

(** The direct request is rejected; the worker answers. *)
Definition blocked (r : Transport.resource) (o : Transport.options) : Transport.fetched :=
  match r with
  | Transport.Raw _ => Transport.Rejected "Failed to fetch"
  | Transport.Href _ => Transport.Resolved (Transport.mkResponse 200 "ok")
  end.

(** The origin answers every request with status 500. *)
Definition erroring (r : Transport.resource) (o : Transport.options) : Transport.fetched :=
  Transport.Resolved (Transport.mkResponse 500 EmptyString).

Definition keyed : Transport.options :=
  Transport.mkOptions (Transport.PlainHeaders [("API-Key", "k1")]) None (Some 0).

End Sample.

(** ** The API calls built on the transport *)

Module Api.

Import Transport.

(** [resp.ok] *)
Definition ok (resp : response) : bool :=
  (200 <=? status resp) && (status resp <=? 299).

Definition url_set (name value : string) (u : url) : url :=
  {| origin_path := origin_path u;
     searchParams := params_set name value (searchParams u);
     hash := hash u |}.

(** [String(n)] for a count. *)
Definition string_of_nat (n : nat) : string := string_of_Z (Z.of_nat n).

(** The URL [fetchTransfers] builds; [limit] and [offset] are counts. *)
Definition transfers_url (chain entityId : string) (limit offset : nat) : url :=
  url_set "usdGte" "1"
    (url_set "sortDir" "desc"
      (url_set "sortKey" "time"
        (url_set "offset" (string_of_nat offset)
          (url_set "limit" (string_of_nat limit)
            (url_set "flow" "out"
              (url_set "chains" chain
                (url_set "base" entityId
                  (mkUrl "https://api.arkhamintelligence.com/transfers" [] EmptyString)))))))).

(** What [checkKey] returns. *)
Inductive key_check :=
| KeyOk
| KeyInvalid (message : jsval).

Section api.

Variable URL_parse : string -> option url.
(** [u.toString()] *)
Variable URL_toString : url -> string.
(** [resp.json()]: [None] when the body is not JSON. *)
Variable JSON_parse : string -> option jsval.
Variable fetch : resource -> options -> fetched.

Definition keyed_options (apiKey : string) (signal : option nat) : options :=
  {| headers := PlainHeaders [("API-Key", apiKey)]; cache := None; signal := signal |}.

Definition fetchTransfers (chain entityId : string) (limit offset : nat)
    (apiKey : string) (proxy : option string) (signal : option nat) : result jsval :=
  let url := transfers_url chain entityId limit offset in
  let a := fetchWithProxyFirst URL_parse fetch (URL_toString url)
             (keyed_options apiKey signal) proxy in
  match outcome a with
  | Rejected err => Throw err
  | Resolved resp =>
      if ok resp then
        match JSON_parse (body resp) with
        | Some data => Ok data
        | None => Throw "SyntaxError"
        end
      else Throw ("Transfers failed @" +:+ chain +:+ ": " +:+ string_of_nat (status resp))
  end.

Definition checkKey (apiKey : string) (proxy : option string) (signal : option nat)
    : result key_check :=
  let a := fetchWithProxyFirst URL_parse fetch "https://api.arkm.com/chains"
             (keyed_options apiKey signal) proxy in
  match outcome a with
  | Rejected err => Throw err
  | Resolved resp =>
      let data :=
        match JSON_parse (body resp) with
        | Some d => d
        | None => JObj []
        end in
      match data with
      | JObj fields =>
          match assoc "message" fields with
          | Some m => Ok (KeyInvalid m)
          | None => Ok KeyOk
          end
      | _ => Ok KeyOk
      end
  end.

(** How the [await] of a page ends, from what [fetchTransfers] gives. *)
Definition page_of_result (r : result jsval) : page :=
  match r with
  | Ok data => PageData data
  | Throw reason => PageFailed reason
  end.

(** One turn of the loop of [crawlOneChain] with its request: the offset is
    [i * limit] for the page [i] the chain is at. *)
Definition crawl_turn (entityId entityName : string) (limit : nat) (pages : Q)
    (apiKey : string) (proxy : option string) (signal : option nat)
    (chain : string) (idx : nat) (w : world) : world * bool :=
  let i := fst (frame idx w) in
  let offset := i * limit in
  crawl_step entityName pages chain idx
    (page_of_result (fetchTransfers chain entityId limit offset apiKey proxy signal)) w.

End api.

End Api.

(** ** The forwarding worker of [cloudflare-worker.js] *)

Module Worker.

Import Transport.

Record request := mkRequest {
  method : string;
  url_of : url;
  headers_of : Headers
}.

(** What the worker reads of the origin's response. *)
Record origin_response := mkOrigin {
  origin_status : nat;
  origin_body : string;
  origin_content_type : option string
}.

Record reply := mkReply {
  reply_status : nat;
  reply_body : option string;
  reply_headers : list (string * string)
}.

(** A call [fetch(target, { method, headers })] made by the worker. *)
Record call := mkCall {
  call_target : string;
  call_method : string;
  call_headers : Headers
}.

Definition cors : list (string * string) :=
  [("Access-Control-Allow-Origin", "*");
   ("Access-Control-Allow-Headers", "*");
   ("Access-Control-Allow-Methods", "GET,OPTIONS")].

(** The statuses that admit no body. *)
Definition null_body_status (s : nat) : bool :=
  existsb (Nat.eqb s) [101; 103; 204; 205; 304].

(** [new Response(body, { status, headers })]: a [RangeError] for a status
    outside 200..599, a [TypeError] for a body with a status that admits
    none. *)
Definition new_Response (body : option string) (status : nat)
    (hs : list (string * string)) : result reply :=
  if negb ((200 <=? status) && (status <=? 599)) then Throw "RangeError"
  else
    match body with
    | Some _ => if null_body_status status then Throw "TypeError"
                else Ok (mkReply status body hs)
    | None => Ok (mkReply status body hs)
    end.

Section worker.

(** The origin, as the worker's [fetch] reaches it. *)
Variable origin : call -> result origin_response.

Definition handle (req : request) : list call * result reply :=
  if String.eqb (method req) "OPTIONS" then ([], new_Response None 200 cors)
  else
    let target :=
      match params_get "url" (searchParams (url_of req)) with
      | Some t => t
      | None => EmptyString
      end in
    if String.eqb target EmptyString then
      ([], new_Response (Some "Missing url param") 400
             [("Access-Control-Allow-Origin", "*")])
    else
      let headers :=
        match Headers_get "X-API-Key" (headers_of req) with
        | Some browserKey =>
            if negb (String.eqb browserKey EmptyString)
            then Headers_set "API-Key" browserKey []
            else []
        | None => []
        end in
      let c := mkCall target "GET" headers in
      match origin c with
      | Throw err => ([c], Throw err)
      | Ok resp =>
          let content_type :=
            match origin_content_type resp with
            | Some t => if String.eqb t EmptyString then "text/plain; charset=utf-8" else t
            | None => "text/plain; charset=utf-8"
            end in
          ([c], new_Response (Some (origin_body resp)) (origin_status resp)
                  (cors ++ [("Content-Type", content_type)]))
      end.

End worker.

(** The request the worker receives for a forwarded [fetch(proxied, opt)]. *)
Definition received (sent : resource * options) : option request :=
  match sent with
  | (Href u, o) =>
      match headers o with
      | HeadersObject h => Some (mkRequest "GET" u h)
      | PlainHeaders dict => Some (mkRequest "GET" u (Headers_new dict))
      | NoHeaders => Some (mkRequest "GET" u [])
      end
  | (Raw _, _) => None
  end.

End Worker.

(** ** The result table *)

Module View.

(** [filterResults] *)
Definition filterResults (rows : list Row) (chainFilter : string) : list Row :=
  if String.eqb chainFilter EmptyString then rows
  else List.filter (fun r => strict_eq_str (chain r) chainFilter) rows.

(** The body of the table is kept as the rows it shows.  The template
    literal of a table row converts [r.chain], [r.address] and [r.label] to
    strings, in this order ([r.arkm_url] is a string). *)
Definition render_row (r : Row) : result Row :=
  let* c := ToString (chain r) in
  let* a := ToString (address r) in
  let* l := ToString (label r) in
  Ok r.

Fixpoint render_rows (rows : list Row) : result (list Row) :=
  match rows with
  | [] => Ok []
  | r :: rest =>
      let* tr := render_row r in
      let* trs := render_rows rest in
      Ok (tr :: trs)
  end.

(** [renderResults]: the body of the table becomes the given rows. *)
Definition renderResults (rows : list Row) (tbody : list Row) : result (list Row) :=
  render_rows rows.

(** The [reduce] of [updateChainFilter]: [acc[r.chain]] converts the chain
    of every row to a property key. *)
Fixpoint count_chains (rows : list Row) : result unit :=
  match rows with
  | [] => Ok tt
  | r :: rest =>
      let* c := ToString (chain r) in
      count_chains rest
  end.

(** What [updateChainFilter] leaves in the body of the table;
    [currentValue] is the value of the chain selector when it is called. *)
Definition updateChainFilter (allResults : list Row) (currentValue : string)
    (tbody : list Row) : result (list Row) :=
  let* counts := count_chains allResults in
  renderResults (filterResults allResults currentValue) tbody.

(** What [appendResults] leaves in the body of the table; [currentFilter]
    is the value of the chain selector when it is called. *)
Definition appendResults (newRows allResults : list Row) (currentFilter : string)
    (tbody : list Row) : result (list Row) :=
  match newRows with
  | [] => Ok tbody
  | _ =>
      let* tbody1 := updateChainFilter allResults currentFilter tbody in
      if String.eqb currentFilter EmptyString
         || existsb (fun r => strict_eq_str (chain r) currentFilter) newRows
      then
        let filtered :=
          if String.eqb currentFilter EmptyString then newRows
          else List.filter (fun r => strict_eq_str (chain r) currentFilter) newRows in
        let* trs := render_rows filtered in
        Ok (tbody1 ++ trs)
      else Ok tbody1
  end.

End View.

(** ** Runs of the scheduler *)

Module Schedule.

Section runs.

Context {I A W : Type}.
Variable task_begin : I -> nat -> W -> W.
Variable items : list I.
Variable limit : nat.

(** Only a running task settles. *)
Definition settle_running (j : nat) (v : A) (s : Limiter.state A W)
    : option (Limiter.state A W) :=
  if Limiter.mem j (Limiter.running s)
  then Some (Limiter.settle task_begin items limit j v s)
  else None.

Fixpoint run (order : list (nat * A)) (s : Limiter.state A W)
    : option (Limiter.state A W) :=
  match order with
  | [] => Some s
  | (j, v) :: rest =>
      match settle_running j v s with
      | Some s' => run rest s'
      | None => None
      end
  end.

End runs.

End Schedule.

(** ** Further invariants *)

Module Invariant2.

(** A row as the extractor builds it, under its key: the address and the
    chain print, the key is their texts around an [@], and the link ends in
    the text of the address. *)
Definition well_formed (kv : string * Row) : Prop :=
  key_of (address (snd kv)) (chain (snd kv)) = Ok (fst kv) /\
  label (snd kv) = JStr "Hot Wallet" /\
  exists a, ToString (address (snd kv)) = Ok a /\
    arkm_url (snd kv) = ("https://intel.arkm.com/explorer/address/" +:+ a).

Definition well_formed_row (r : Row) : Prop :=
  exists k, well_formed (k, r).

Definition good_map (m : obj) : Prop :=
  NoDup (keys m) /\ Forall well_formed m.

(** The maps of all chains are good and so are the published rows. *)
Definition rows_inv (w : world) : Prop :=
  Forall (fun f => good_map (snd f)) (frames w) /\
  Forall well_formed_row (allResults w).

(** The pages counted, still countable by running chains, and left to the
    chains not yet started. *)
Definition accounted (pages : Q) (chains : list string) (s : orchestrator) : Q :=
  (completedPages (Limiter.world s) + pending pages s
   + Qnat (length chains - Limiter.nextIndex s) * pages)%Q.

(** The slots of the scheduler against the tasks settled so far. *)
Definition slots_inv {A W} (n : nat) (settled : list (nat * A))
    (s : Limiter.state A W) : Prop :=
  length (Limiter.results s) = n /\
  NoDup (map fst settled) /\
  (forall j v, In (j, v) settled ->
     j < Limiter.nextIndex s /\ (j ∉ Limiter.running s) /\
     Limiter.results s !! j = Some (Some v)) /\
  (forall j, j < Limiter.nextIndex s -> j ∉ Limiter.running s ->
     exists v, In (j, v) settled) /\
  (forall j, Limiter.nextIndex s <= j -> j < n -> Limiter.results s !! j = Some None) /\
  (forall j, j ∈ Limiter.running s -> Limiter.results s !! j = Some None).

(** With the limit 1: nothing runs and no runner waits, or one task runs
    and one runner waits for it. *)
Definition sequential {A W} (s : Limiter.state A W) : Prop :=
  (Limiter.running s = [] /\ Limiter.racing s = []) \/
  (exists k, Limiter.running s = [k] /\ Limiter.racing s = [[k]]).

End Invariant2.
Import Invariant2.

(** ** More sample data *)

Module Sample2.

(** One chain, one page, one hot wallet: the run after its only page. *)
Definition published : orchestrator :=
  match run_events "Acme" 1 ["bitcoin"] [(0, Sample.btc_page)] (run_begin ["bitcoin"]) with
  | Some s => s
  | None => run_begin ["bitcoin"]
  end.

(** The sample run of two chains after bitcoin has failed on page 1, and
    after ethereum has then answered with no transfers. *)
Definition after_failure : orchestrator :=
  match deliver "Acme" 2 Sample.two_chains 0 (PageFailed "timeout") Sample.after_btc_page with
  | Some s => s
  | None => Sample.after_btc_page
  end.

Definition after_failure_run : orchestrator :=
  match run_events "Acme" 2 Sample.two_chains [(1, Sample.page_of [])] after_failure with
  | Some s => s
  | None => after_failure
  end.

(** The world of a run of one chain before any page has arrived. *)
Definition fresh := Limiter.world (run_begin ["bitcoin"]).

(** An origin that rejects the key, and a forwarded request for it. *)
Definition origin_401 (c : Worker.call) : result Worker.origin_response :=
  Ok (Worker.mkOrigin 401 "{}" (Some "application/json")).

Definition relay_request : Worker.request :=
  Worker.mkRequest "GET"
    (Transport.mkUrl Sample.worker_base [("url", "https://api.arkm.com/chains")] EmptyString)
    [("x-api-key", "k1")].

(** The export of the sample row. *)
Definition csv_text : string :=
  "chain,address,arkm_url,label" +:+ String Csv.newline
    ("bitcoin," +:+ String Csv.dquote ("1A2b,3C" +:+ String Csv.dquote ",https://x,Hot Wallet")).

Definition idle_task (item : string) (index : nat) (w : unit) : unit := w.

(** Three tasks under the limit 2, settling in the order 0, 2, 1. *)
Definition three_settled : Limiter.state nat unit :=
  match Schedule.run idle_task ["a"; "b"; "c"] 2 [(0, 10); (2, 30); (1, 20)]
          (Limiter.begin idle_task ["a"; "b"; "c"] 2 tt) with
  | Some s => s
  | None => Limiter.begin idle_task ["a"; "b"; "c"] 2 tt
  end.

(** Two tasks under the limit 1. *)
Definition two_in_turn : Limiter.state nat unit :=
  match Schedule.run idle_task ["a"; "b"] 1 [(0, 10); (1, 20)]
          (Limiter.begin idle_task ["a"; "b"] 1 tt) with
  | Some s => s
  | None => Limiter.begin idle_task ["a"; "b"] 1 tt
  end.

End Sample2.

(** * Properties *)

(** ** The accumulation object *)

Section obj_facts.

Lemma eqb_string_true (a b : string) : String.eqb a b = true <-> a = b.
Proof. apply String.eqb_eq. Qed.

Lemma mem_key_spec (k : string) (o : obj) :
  assoc k o = None <-> k ∉ keys o.
Proof.
  induction o as [|[k' r] o IH]; simpl.
  - split; [intros _; apply not_elem_of_nil | done].
  - destruct (String.eqb k k') eqn:E.
    + apply String.eqb_eq in E as ->. split; [done|].
      intros H. exfalso. apply H. left.
    + apply String.eqb_neq in E. rewrite IH. rewrite not_elem_of_cons. tauto.
Qed.

Lemma obj_set_keys_present (k : string) (r : Row) (o : obj) :
  k ∈ keys o -> keys (obj_set k r o) = keys o.
Proof.
  induction o as [|[k' r'] o IH]; simpl; intros H.
  - by apply elem_of_nil in H.
  - destruct (String.eqb k k') eqn:E; simpl; [done|].
    apply String.eqb_neq in E. apply elem_of_cons in H as [H|H]; [done|].
    unfold keys in *. simpl. f_equal. by apply IH.
Qed.

Lemma obj_set_absent (k : string) (r : Row) (o : obj) :
  k ∉ keys o -> obj_set k r o = o ++ [(k, r)].
Proof.
  induction o as [|[k' r'] o IH]; simpl; intros H; [done|].
  apply not_elem_of_cons in H as [Hne H].
  destruct (String.eqb k k') eqn:E.
  - apply String.eqb_eq in E. done.
  - by rewrite IH.
Qed.

Lemma obj_set_app (k : string) (r : Row) (a b : obj) :
  obj_set k r (a ++ b) =
  if bool_decide (k ∈ keys a) then obj_set k r a ++ b else a ++ obj_set k r b.
Proof.
  induction a as [|[k' r'] a IH]; simpl.
  - done.
  - destruct (String.eqb k k') eqn:E.
    + apply String.eqb_eq in E as ->.
      rewrite bool_decide_eq_true_2; [done | left].
    + apply String.eqb_neq in E. rewrite IH.
      destruct (decide (k ∈ keys a)) as [Hin|Hin].
      * rewrite !bool_decide_eq_true_2; [done | by right | done].
      * rewrite !bool_decide_eq_false_2; [done | | done].
        rewrite not_elem_of_cons. done.
Qed.

Lemma obj_set_lookup (k : string) (r : Row) (o : obj) :
  assoc k (obj_set k r o) = Some r.
Proof.
  induction o as [|[k' r'] o IH]; simpl.
  - by rewrite String.eqb_refl.
  - destruct (String.eqb k k') eqn:E; simpl; rewrite E; [done | apply IH].
Qed.

Lemma obj_set_NoDup (k : string) (r : Row) (o : obj) :
  NoDup (keys o) -> NoDup (keys (obj_set k r o)).
Proof.
  intros H. destruct (decide (k ∈ keys o)) as [Hin|Hin].
  - by rewrite obj_set_keys_present.
  - rewrite obj_set_absent by done. unfold keys. rewrite map_app. simpl.
    apply NoDup_app. split; [done|]. split; [|apply NoDup_singleton].
    intros x Hx Hx'. apply list_elem_of_singleton in Hx' as ->. done.
Qed.

End obj_facts.

(** ** The extractor *)

(** The conversion to a string fails in one way only. *)
Lemma ToString_throws (v : jsval) (msg : string) :
  ToString v = Throw msg -> msg = "TypeError".
Proof.
  revert v msg. fix IH 1. intros v msg. destruct v as [| |b|n|s|elems|fields]; simpl;
    try discriminate.
  - destruct b; discriminate.
  - match goal with
    | |- context [?f elems] =>
        change f with (fix parts (l : list jsval) {struct l} : result (list string) :=
               match l with
               | [] => Ok []
               | e :: rest =>
                   let* p := (if nullish e then Ok EmptyString else ToString e) in
                   let* ps := parts rest in
                   Ok (p :: ps)
               end);
        set (parts := fix parts (l : list jsval) {struct l} : result (list string) :=
               match l with
               | [] => Ok []
               | e :: rest =>
                   let* p := (if nullish e then Ok EmptyString else ToString e) in
                   let* ps := parts rest in
                   Ok (p :: ps)
               end)
    end.
    assert (forall l, parts l = Throw msg -> msg = "TypeError") as Hparts.
    { fix IHl 1. intros l. destruct l as [|e rest]; simpl; [discriminate|].
      destruct (nullish e); simpl.
      - destruct (parts rest) eqn:E; simpl; [discriminate|].
        intros H. injection H as ->. by apply (IHl rest).
      - destruct (ToString e) eqn:Ee; simpl.
        + destruct (parts rest) eqn:E; simpl; [discriminate|].
          intros H. injection H as ->. by apply (IHl rest).
        + intros H. injection H as ->. by apply (IH e). }
    destruct (parts elems) eqn:E; simpl; [discriminate|].
    intros H. injection H as ->. by apply Hparts in E.
  - destruct (assoc "toString" fields); [|discriminate].
    intros H. by injection H as <-.
Qed.

(** Every key holds an [@]: none is an array index, so the object keeps its
    keys in the order in which they were first written. *)
Lemma key_of_holds_at (address chain : jsval) (k : string) :
  key_of address chain = Ok k ->
  exists before after, k = before +:+ String "@"%char after.
Proof.
  unfold key_of. destruct (ToString address) as [a|]; [|done].
  destruct (ToString chain) as [c|]; [|done]. simpl.
  intros H. injection H as <-. by exists a, c.
Qed.

Lemma key_of_Ok (address chain : jsval) (k : string) :
  key_of address chain = Ok k <->
  exists a c, ToString address = Ok a /\ ToString chain = Ok c /\ k = a +:+ "@" +:+ c.
Proof.
  unfold key_of. split.
  - destruct (ToString address) as [a|]; [|done].
    destruct (ToString chain) as [c|]; [|done]. simpl.
    intros H. injection H as <-. by exists a, c.
  - intros (a & c & -> & -> & ->). done.
Qed.

Lemma key_of_Throw (address chain : jsval) (msg : string) :
  key_of address chain = Throw msg -> msg = "TypeError".
Proof.
  unfold key_of. destruct (ToString address) as [a|m] eqn:Ea; simpl.
  - destruct (ToString chain) as [c|m] eqn:Ec; simpl; [done|].
    intros H. injection H as <-. by apply ToString_throws in Ec.
  - intros H. injection H as <-. by apply ToString_throws in Ea.
Qed.

Lemma name_in_opt_prop (field : string) (r : jsval) (s : string) :
  strict_eq_str (opt_prop (opt_prop r field) "name") s = true <->
  name_in field r = Some s.
Proof.
  unfold name_in, opt_prop, own, strict_eq_str.
  destruct r; simpl; try (split; discriminate).
  destruct (assoc field fields) as [[]|]; simpl; try (split; discriminate).
  destruct (assoc "name" fields0) as [[]|]; simpl; try (split; discriminate).
  rewrite String.eqb_eq. split; congruence.
Qed.

Lemma name_in_object (field : string) (r : jsval) (s : string) :
  name_in field r = Some s -> nullish r = false.
Proof. by destruct r. Qed.

Lemma label_of_qualifying (r : jsval) :
  name_in "arkhamLabel" r = Some "Hot Wallet" ->
  opt_prop (opt_prop r "arkhamLabel") "name" = JStr "Hot Wallet".
Proof.
  unfold name_in, opt_prop, own.
  destruct r; simpl; try discriminate.
  destruct (assoc "arkhamLabel" fields) as [[]|]; simpl; try discriminate.
  destruct (assoc "name" fields0) as [[]|]; simpl; try discriminate.
  congruence.
Qed.

(** The extractor on a qualifying record, by its two conversions. *)
Lemma extractHotWallet_qualifying (r : jsval) (target : obj) (n : string) :
  qualifies r n ->
  extractHotWallet r target n =
  let* key := key_of_info r in
  let* row := row_of_info r in
  Ok (obj_set key row target).
Proof.
  intros [He Hl]. unfold extractHotWallet.
  pose proof (name_in_object _ _ _ He) as Hobj.
  apply name_in_opt_prop in He. rewrite He.
  rewrite (label_of_qualifying r Hl). simpl.
  unfold prop. rewrite Hobj. done.
Qed.

Lemma row_of_info_printed (r : jsval) (k : string) :
  key_of_info r = Ok k ->
  exists a, ToString (own r "address") = Ok a /\
    row_of_info r = Ok (mkRow (own r "chain") (own r "address")
                          ("https://intel.arkm.com/explorer/address/" +:+ a)
                          (JStr "Hot Wallet")).
Proof.
  intros Hk. apply key_of_Ok in Hk as (a & c & Ha & Hc & ->).
  exists a. split; [done|]. unfold row_of_info, row_of. by rewrite Ha.
Qed.

Lemma extractHotWallet_hit (r : jsval) (target : obj) (n k : string) :
  qualifies r n -> key_of_info r = Ok k ->
  exists row, row_of_info r = Ok row /\
    extractHotWallet r target n = Ok (obj_set k row target).
Proof.
  intros Hq Hk. rewrite extractHotWallet_qualifying by done.
  destruct (row_of_info_printed r k Hk) as (a & _ & Hrow).
  rewrite Hk, Hrow. simpl. by eexists.
Qed.

Lemma extractHotWallet_unprintable (r : jsval) (target : obj) (n msg : string) :
  qualifies r n -> key_of_info r = Throw msg ->
  extractHotWallet r target n = Throw "TypeError".
Proof.
  intros Hq Hk. rewrite extractHotWallet_qualifying by done.
  rewrite Hk. simpl. by apply key_of_Throw in Hk as ->.
Qed.

Lemma extractHotWallet_miss (r : jsval) (target : obj) (n : string) :
  ~ qualifies r n -> extractHotWallet r target n = Ok target.
Proof.
  intros Hq. unfold extractHotWallet.
  destruct (strict_eq_str (opt_prop (opt_prop r "arkhamEntity") "name") n) eqn:He;
    [|done].
  destruct (strict_eq_str (opt_prop (opt_prop r "arkhamLabel") "name") "Hot Wallet")
    eqn:Hl; [|done].
  exfalso. apply Hq. split; by apply name_in_opt_prop.
Qed.

Lemma qualifies_dec (r : jsval) (n : string) : Decision (qualifies r n).
Proof. unfold qualifies. apply _. Defined.

(** What a call that returns has done to the map. *)
Lemma extractHotWallet_Ok (r : jsval) (target target' : obj) (n : string) :
  extractHotWallet r target n = Ok target' ->
  (~ qualifies r n /\ target' = target) \/
  (qualifies r n /\ exists k row,
     key_of_info r = Ok k /\ row_of_info r = Ok row /\ target' = obj_set k row target).
Proof.
  intros E. destruct (qualifies_dec r n) as [Hq|Hq].
  - right. split; [done|].
    destruct (key_of_info r) as [k|msg] eqn:Hk.
    + destruct (extractHotWallet_hit r target n k Hq Hk) as (row & Hrow & E').
      rewrite E' in E. injection E as <-. by exists k, row.
    + by rewrite (extractHotWallet_unprintable r target n msg Hq Hk) in E.
  - left. rewrite extractHotWallet_miss in E by done. by injection E as <-.
Qed.

Lemma extractHotWallet_NoDup (r : jsval) (target target' : obj) (n : string) :
  extractHotWallet r target n = Ok target' ->
  NoDup (keys target) -> NoDup (keys target').
Proof.
  intros E H. apply extractHotWallet_Ok in E as [[_ ->]|[_ (k & row & _ & _ & ->)]];
    [done | by apply obj_set_NoDup].
Qed.

Lemma extractHotWallet_throws (r : jsval) (target : obj) (n msg : string) :
  extractHotWallet r target n = Throw msg -> msg = "TypeError".
Proof.
  intros E. destruct (qualifies_dec r n) as [Hq|Hq].
  - destruct (key_of_info r) as [k|m] eqn:Hk.
    + destruct (extractHotWallet_hit r target n k Hq Hk) as (row & _ & E').
      by rewrite E' in E.
    + rewrite (extractHotWallet_unprintable r target n m Hq Hk) in E.
      by injection E as <-.
  - by rewrite extractHotWallet_miss in E.
Qed.

(** A record whose address and chain print is extracted without an
    exception. *)
Lemma extractHotWallet_total (r : jsval) (target : obj) (n : string) :
  (qualifies r n -> exists k, key_of_info r = Ok k) ->
  exists target', extractHotWallet r target n = Ok target'.
Proof.
  intros Hk. destruct (qualifies_dec r n) as [Hq|Hq].
  - destruct (Hk Hq) as [k Ek].
    destruct (extractHotWallet_hit r target n k Hq Ek) as (row & _ & E). eauto.
  - rewrite extractHotWallet_miss by done. eauto.
Qed.

(** C3 (amended): for a record that does not qualify, whatever its shape,
    [extractHotWallet] returns and leaves the map as it is.  For a record
    whose entity name is the expected one and whose label name is the string
    Hot Wallet it writes the row of the record under the key of the record
    when the address and the chain can be converted to strings, and throws a
    [TypeError], writing nothing, when one of them cannot: an address that is
    an object with a member named [toString] is such a value. *)
Theorem extractHotWallet_inserts_iff_qualifies (r : jsval) (target : obj) (n : string) :
  (~ qualifies r n -> extractHotWallet r target n = Ok target) /\
  (qualifies r n ->
     match key_of_info r with
     | Ok k =>
         exists row, row_of_info r = Ok row /\
           extractHotWallet r target n = Ok (obj_set k row target) /\
           assoc k (obj_set k row target) = Some row
     | Throw _ => extractHotWallet r target n = Throw "TypeError"
     end) /\
  (qualifies r n ->
     (printable (own r "address") /\ printable (own r "chain") <->
      exists k, key_of_info r = Ok k) /\
     forall fields x, own r "address" = JObj fields ->
       assoc "toString" fields = Some x ->
       extractHotWallet r target n = Throw "TypeError").
Proof.
  split; [apply extractHotWallet_miss|]. split.
  - intros Hq. destruct (key_of_info r) as [k|msg] eqn:Hk.
    + destruct (extractHotWallet_hit r target n k Hq Hk) as (row & Hrow & E).
      exists row. split; [done|]. split; [done | apply obj_set_lookup].
    + by apply (extractHotWallet_unprintable r target n msg).
  - intros Hq. split.
    + unfold key_of_info. split.
      * intros [[a Ha] [c Hc]]. eexists. apply key_of_Ok. by exists a, c.
      * intros [k Hk]. apply key_of_Ok in Hk as (a & c & Ha & Hc & _).
        split; by eexists.
    + intros fields x Haddr Hts.
      apply (extractHotWallet_unprintable r target n "TypeError"); [done|].
      unfold key_of_info, key_of. rewrite Haddr. simpl. by rewrite Hts.
Qed.

(** C8: the keys of a chain's map stay pairwise distinct under any
    sequence of extractions, and of two qualifying records with the same key
    the later one is the row the map holds. *)
Theorem merged_keys_unique_last_write_wins :
  (forall (n : string) (infos : list jsval) (m : obj),
     extract_all n infos [] = Ok m -> NoDup (keys m)) /\
  (forall (n : string) (infos : list jsval),
     Forall (fun r => qualifies r n -> exists k, key_of_info r = Ok k) infos ->
     exists m, extract_all n infos [] = Ok m /\ NoDup (keys m)) /\
  (forall (n : string) (a b : jsval) (m0 : obj) (k : string),
     qualifies a n -> qualifies b n -> key_of_info a = Ok k -> key_of_info b = Ok k ->
     exists m1 m2 row,
       extractHotWallet a m0 n = Ok m1 /\ extractHotWallet b m1 n = Ok m2 /\
       row_of_info b = Ok row /\
       assoc k m2 = Some row /\
       length m2 = length m1).
Proof.
  assert (forall n infos m0 m, NoDup (keys m0) ->
            extract_all n infos m0 = Ok m -> NoDup (keys m)) as Hnd.
  { intros n infos. induction infos as [|r infos IH]; intros m0 m Hm0; simpl.
    - intros E. by injection E as <-.
    - destruct (extractHotWallet r m0 n) as [m1|] eqn:E1; simpl; [|done].
      apply IH. by eapply extractHotWallet_NoDup. }
  split; [|split].
  - intros n infos m. apply Hnd. apply NoDup_nil_2.
  - intros n infos Hall.
    assert (forall m0, exists m, extract_all n infos m0 = Ok m) as Htot.
    { induction infos as [|r infos IH]; intros m0; simpl; [eauto|].
      inversion Hall as [|? ? Hr Hall']; subst.
      destruct (extractHotWallet_total r m0 n Hr) as [m1 ->]. simpl. by apply IH. }
    destruct (Htot []) as [m Em]. exists m. split; [done|].
    apply (Hnd n infos [] m); [apply NoDup_nil_2 | exact Em].
  - intros n a b m0 k Ha Hb Hka Hkb.
    destruct (extractHotWallet_hit a m0 n k Ha Hka) as (ra & _ & Ea).
    destruct (extractHotWallet_hit b (obj_set k ra m0) n k Hb Hkb) as (rb & Hrb & Eb).
    exists (obj_set k ra m0), (obj_set k rb (obj_set k ra m0)), rb.
    split; [done|]. split; [done|]. split; [done|].
    split; [apply obj_set_lookup|].
    assert (k ∈ keys (obj_set k ra m0)) as Hin.
    { apply dec_stable. intros Hn. apply mem_key_spec in Hn.
      by rewrite obj_set_lookup in Hn. }
    apply (obj_set_keys_present _ rb) in Hin.
    apply (f_equal length) in Hin. unfold keys in Hin.
    by rewrite !length_map in Hin.
Qed.

Lemma merged_keys_unique_last_write_wins_witness :
  exists m1 m2 row,
    extractHotWallet Sample.acme_btc [] "Acme" = Ok m1 /\
    extractHotWallet Sample.acme_btc m1 "Acme" = Ok m2 /\
    row_of_info Sample.acme_btc = Ok row /\
    assoc "bc1xyz@bitcoin" m2 = Some row /\
    length m2 = length m1.
Proof.
  apply (proj2 (proj2 merged_keys_unique_last_write_wins) "Acme" Sample.acme_btc
           Sample.acme_btc [] "bc1xyz@bitcoin");
    [split; reflexivity | split; reflexivity | reflexivity | reflexivity].
Defined.

Lemma extractHotWallet_inserts_iff_qualifies_witness :
  (qualifies Sample.acme_btc "Acme" /\
   extractHotWallet Sample.acme_btc [] "Acme"
     = Ok [("bc1xyz@bitcoin", Sample.acme_btc_row)]) /\
  (~ qualifies JNull "Acme" /\ extractHotWallet JNull [] "Acme" = Ok []) /\
  (qualifies Sample.odd_address "Acme" /\
   extractHotWallet Sample.odd_address [] "Acme" = Throw "TypeError").
Proof.
  assert (qualifies Sample.acme_btc "Acme") as H1 by (split; reflexivity).
  assert (~ qualifies JNull "Acme") as H2 by (intros [H _]; discriminate H).
  assert (qualifies Sample.odd_address "Acme") as H3 by (split; reflexivity).
  split; [|split].
  - split; [exact H1|].
    destruct (extractHotWallet_inserts_iff_qualifies Sample.acme_btc [] "Acme")
      as (_ & H & _).
    destruct (H H1) as (row & Hrow & E & _).
    injection Hrow as <-. exact E.
  - split; [exact H2|].
    exact (proj1 (extractHotWallet_inserts_iff_qualifies JNull [] "Acme") H2).
  - split; [exact H3|].
    destruct (extractHotWallet_inserts_iff_qualifies Sample.odd_address [] "Acme")
      as (_ & _ & H).
    destruct (H H3) as [_ Hthrow].
    apply (Hthrow [("toString", JNum (mkNumber true "0"))] (JNum (mkNumber true "0")));
      reflexivity.
Defined.

(** C3, as stated, at a record of the entity labelled Hot Wallet whose
    address is an object with a member named [toString]: the call throws and
    the map is left without the row. *)
Lemma qualifying_record_can_throw :
  qualifies Sample.odd_address "Acme" /\
  extractHotWallet Sample.odd_address [] "Acme" = Throw "TypeError" /\
  forall target', extractHotWallet Sample.odd_address [] "Acme" <> Ok target'.
Proof.
  split; [split; reflexivity|]. split; [reflexivity|]. intros target' H. discriminate H.
Qed.

(** ** What one page adds to the map *)

Lemma grows_from_refl (base : obj) : grows_from base base.
Proof. exists base, []. rewrite app_nil_r. repeat split. constructor. Qed.

Lemma grows_from_set (base cur : obj) (k : string) (r : Row) :
  grows_from base cur -> grows_from base (obj_set k r cur).
Proof.
  intros (upd & new & -> & Hk & Hnew). rewrite obj_set_app.
  case_bool_decide as Hin.
  - exists (obj_set k r upd), new. split; [done|]. split; [|done].
    by rewrite obj_set_keys_present.
  - destruct (decide (k ∈ keys new)) as [Hin'|Hin'].
    + exists upd, (obj_set k r new). split; [done|]. split; [done|].
      by rewrite obj_set_keys_present.
    + exists upd, (new ++ [(k, r)]). rewrite obj_set_absent by done.
      split; [done|]. split; [done|].
      unfold keys. rewrite map_app. apply Forall_app. split; [done|].
      simpl. constructor; [|constructor].
      intros Hb. apply Hin. unfold keys in *. by rewrite Hk.
Qed.

Lemma grows_from_extract (n : string) (base cur cur' : obj) (r : jsval) :
  extractHotWallet r cur n = Ok cur' -> grows_from base cur -> grows_from base cur'.
Proof.
  intros E H.
  apply extractHotWallet_Ok in E as [[_ ->]|[_ (k & row & _ & _ & ->)]];
    [done | by apply grows_from_set].
Qed.

Lemma grows_from_forEach (n : string) (base : obj) (txs : list jsval) :
  forall cur cur', forEach_extract n txs cur = Ok cur' ->
    grows_from base cur -> grows_from base cur'.
Proof.
  induction txs as [|tx txs IH]; simpl; intros cur cur' E H.
  - by injection E as <-.
  - destruct (prop tx "fromAddressOwner") as [owner|] eqn:Eo; simpl in E; [|done].
    destruct (truthy owner).
    + destruct (extractHotWallet owner cur n) as [m|] eqn:Em; simpl in E; [|done].
      eapply IH; [exact E|]. by eapply grows_from_extract.
    + destruct (prop tx "fromAddress") as [from|] eqn:Ef; simpl in E; [|done].
      destruct (extractHotWallet from cur n) as [m|] eqn:Em; simpl in E; [|done].
      eapply IH; [exact E|]. by eapply grows_from_extract.
Qed.

Lemma existsb_eqb_elem (k : string) (l : list string) :
  existsb (String.eqb k) l = bool_decide (k ∈ l).
Proof.
  induction l as [|x l IH]; simpl; [done|].
  rewrite IH. destruct (String.eqb k x) eqn:E.
  - apply String.eqb_eq in E as ->. simpl. symmetry.
    apply bool_decide_eq_true_2. left.
  - apply String.eqb_neq in E. simpl. apply bool_decide_ext.
    rewrite elem_of_cons. tauto.
Qed.

Lemma grows_from_added (base cur : obj) :
  grows_from base cur ->
  exists upd new, cur = upd ++ new /\ length upd = length base /\
    added_rows base cur = values new.
Proof.
  intros (upd & new & -> & Hk & Hnew). exists upd, new. split; [done|].
  split. { apply (f_equal length) in Hk. unfold keys in Hk. by rewrite !length_map in Hk. }
  unfold added_rows. rewrite List.filter_app.
  assert (List.filter (fun kv : string * Row =>
            negb (existsb (String.eqb kv.1) (keys base))) upd = []) as ->.
  { assert (Forall (fun k => k ∈ keys base) (keys upd)) as Hall.
    { rewrite Hk. apply Forall_forall. auto. }
    clear Hk. induction upd as [|[k r] upd IH]; simpl; [done|].
    inversion Hall as [|? ? Hin Hall']; subst.
    rewrite existsb_eqb_elem, bool_decide_eq_true_2 by done. simpl. by apply IH. }
  simpl. f_equal.
  induction new as [|[k r] new IH]; simpl; [done|].
  inversion Hnew as [|? ? Hin Hall']; subst.
  rewrite existsb_eqb_elem, bool_decide_eq_false_2 by done. simpl.
  f_equal. by apply IH.
Qed.

(** C6: when a page is processed and the map grows by [d > 0] keys, the one
    call of [appendResults] made for the page carries the rows of the keys
    the map did not hold before the page, [d] of them, and no other row; when
    the map does not grow, no call is made. *)
Theorem page_appends_exactly_new_rows
    (entityName : string) (pages : Q) (chain : string) (i : nat)
    (merged merged' : obj) (p : page) (w w' : world) :
  page_body entityName pages chain i merged p w = Ok (Next, merged', w') ->
  let d := length (keys merged') - length (keys merged) in
  (0 < d -> appended w' = appended w ++ [added_rows merged merged'] /\
            length (added_rows merged merged') = d) /\
  (d = 0 -> appended w' = appended w).
Proof.
  unfold page_body. destruct p as [reason|data]; [done|].
  destruct (transfers_of data) as [t|] eqn:Et; simpl; [|done].
  destruct (length_is_zero t); [done|].
  destruct (forEach entityName t merged) as [m|] eqn:Em; simpl; [|done].
  intros E. injection E as <- <-.
  assert (grows_from merged m) as Hg.
  { destruct t; simpl in Em; try done.
    eapply grows_from_forEach; [exact Em | apply grows_from_refl]. }
  apply grows_from_added in Hg as (upd & new & -> & Hlen & Hadd).
  rewrite Hadd. unfold keys, values. rewrite !length_map, length_app, Hlen.
  replace (length merged + length new - length merged) with (length new) by lia.
  split.
  - intros Hpos. apply Nat.ltb_lt in Hpos as Hb. rewrite Hb. simpl. split; [|done].
    do 2 f_equal. unfold slice_last. rewrite map_app, length_app, !length_map, Hlen.
    replace (length merged + length new - length new) with (length (map snd upd))
      by (rewrite length_map; lia).
    by rewrite drop_app_length.
  - intros ->. done.
Qed.

(** ** The scheduler *)

Lemma mem_elem_of (j : nat) (l : list nat) : Limiter.mem j l = true <-> j ∈ l.
Proof.
  unfold Limiter.mem. rewrite existsb_exists. split.
  - intros (x & Hx & E). apply Nat.eqb_eq in E as ->. by apply list_elem_of_In.
  - intros H. exists j. split; [by apply list_elem_of_In | apply Nat.eqb_refl].
Qed.

Lemma elem_of_remove (j k : nat) (l : list nat) :
  k ∈ List.filter (fun x => negb (Nat.eqb j x)) l <-> k ∈ l /\ k <> j.
Proof.
  rewrite !list_elem_of_In, filter_In, negb_true_iff, Nat.eqb_neq.
  intuition congruence.
Qed.

Lemma NoDup_remove (j : nat) (l : list nat) :
  NoDup l -> NoDup (List.filter (fun x => negb (Nat.eqb j x)) l).
Proof.
  intros H. apply NoDup_ListNoDup. apply List.NoDup_filter. by apply NoDup_ListNoDup.
Qed.

Lemma sum_remove (f : nat -> nat) (j : nat) (l : list nat) :
  NoDup l -> j ∈ l ->
  sum_list_with f (List.filter (fun x => negb (Nat.eqb j x)) l) + f j
  = sum_list_with f l.
Proof.
  induction l as [|x l IH]; intros Hnd Hin; [by apply elem_of_nil in Hin|].
  apply NoDup_cons in Hnd as [Hx Hnd]. simpl.
  destruct (Nat.eqb j x) eqn:E; simpl.
  - apply Nat.eqb_eq in E as <-.
    assert (List.filter (fun x => negb (Nat.eqb j x)) l = l) as ->; [|lia].
    clear IH Hin Hnd. induction l as [|y l IH]; simpl; [done|].
    apply not_elem_of_cons in Hx as [Hne Hx].
    apply Nat.eqb_neq in Hne as ->. simpl. f_equal. by apply IH.
  - apply Nat.eqb_neq in E. apply elem_of_cons in Hin as [Hin|Hin]; [done|].
    specialize (IH Hnd Hin). lia.
Qed.

Lemma length_remove (j : nat) (l : list nat) :
  NoDup l -> j ∈ l ->
  length (List.filter (fun x => negb (Nat.eqb j x)) l) + 1 = length l.
Proof.
  intros Hnd Hin. pose proof (sum_remove (fun _ => 1) j l Hnd Hin) as H.
  assert (forall l' : list nat, sum_list_with (fun _ => 1) l' = length l') as Hlen.
  { induction l' as [|? ? IH]; simpl; [done | by rewrite IH]. }
  by rewrite !Hlen in H.
Qed.

Lemma sum_ext_in (f g : nat -> nat) (l : list nat) :
  (forall j, j ∈ l -> f j = g j) -> sum_list_with f l = sum_list_with g l.
Proof.
  induction l as [|x l IH]; intros H; simpl; [done|].
  rewrite (H x) by left. rewrite IH; [done|]. intros j Hj. apply H. by right.
Qed.

Section scheduler.

Context {I A W : Type}.
Variable task_begin : I -> nat -> W -> W.
Variable items : list I.
Variable limit : nat.

Local Abbreviation state := (Limiter.state A W).
Local Abbreviation launch := (Limiter.launch (A:=A) task_begin).
Local Abbreviation runOne := (Limiter.runOne (A:=A) task_begin items limit).
Local Abbreviation settle := (Limiter.settle (A:=A) task_begin items limit).

(** A property kept by every launch and by every suspension that follows
    a launch is kept by [runOne]. *)
Lemma runOne_preserves (P : state -> Prop) :
  (forall item s, P s -> items !! Limiter.nextIndex s = Some item -> P (launch item s)) ->
  (forall s, P s -> Limiter.running s <> [] -> P (Limiter.suspend s)) ->
  forall s, P s -> P (runOne s).
Proof.
  intros Hl Hs s. unfold Limiter.runOne.
  assert (forall rest s, rest = drop (Limiter.nextIndex s) items -> P s ->
            P (Limiter.runOne_from (A:=A) task_begin limit rest s)) as H.
  { clear s. induction rest as [|item rest IH]; intros s E Hp; simpl; [done|].
    assert (items !! Limiter.nextIndex s = Some item) as Hit.
    { rewrite <- (Nat.add_0_r (Limiter.nextIndex s)), <- lookup_drop, <- E. done. }
    assert (rest = drop (Limiter.nextIndex (launch item s)) items) as E'.
    { simpl. rewrite (drop_S _ _ _ Hit) in E. by injection E. }
    destruct (limit <=? _).
    - apply Hs; [by apply Hl|]. simpl. by destruct (Limiter.running s).
    - apply IH; [done | by apply Hl]. }
  by apply H.
Qed.

Lemma settle_preserves (P : state -> Prop) (j : nat) (v : A) (s : state) :
  (forall item s, P s -> items !! Limiter.nextIndex s = Some item -> P (launch item s)) ->
  (forall s, P s -> Limiter.running s <> [] -> P (Limiter.suspend s)) ->
  P {| Limiter.nextIndex := Limiter.nextIndex s;
       Limiter.running := List.filter (fun k => negb (Nat.eqb j k)) (Limiter.running s);
       Limiter.results := <[j := Some v]> (Limiter.results s);
       Limiter.racing := List.filter (fun snap => negb (Limiter.mem j snap)) (Limiter.racing s);
       Limiter.world := Limiter.world s |} ->
  P (settle j v s).
Proof.
  intros Hl Hs. unfold Limiter.settle.
  generalize (List.filter (Limiter.mem j) (Limiter.racing s)).
  intros woken. generalize (Limiter.mkState (Limiter.nextIndex s)
    (List.filter (fun k => negb (Nat.eqb j k)) (Limiter.running s))
    (<[j := Some v]> (Limiter.results s))
    (List.filter (fun snap => negb (Limiter.mem j snap)) (Limiter.racing s))
    (Limiter.world s)).
  induction woken as [|snap woken IH]; intros s0 Hp; simpl; [done|].
  apply IH. by apply runOne_preserves.
Qed.

Lemma begin_preserves (P : state -> Prop) (w : W) :
  (forall item s, P s -> items !! Limiter.nextIndex s = Some item -> P (launch item s)) ->
  (forall s, P s -> Limiter.running s <> [] -> P (Limiter.suspend s)) ->
  P (Limiter.mkState 0 [] (replicate (length items) None) [] w) ->
  P (Limiter.begin (A:=A) task_begin items limit w).
Proof.
  intros Hl Hs Hp. unfold Limiter.begin.
  induction (Nat.min limit (length items)) as [|n IH]; simpl; [done|].
  by apply runOne_preserves.
Qed.

(** [sched_inv] is such a property. *)
Lemma sched_inv_launch (item : I) (s : state) :
  sched_inv (length items) s -> items !! Limiter.nextIndex s = Some item ->
  sched_inv (length items) (launch item s).
Proof.
  intros (Hn & Hnd & Hlt & Hr) Hit. apply lookup_lt_Some in Hit.
  repeat split; simpl.
  - lia.
  - apply NoDup_app. split; [done|]. split; [|apply NoDup_singleton].
    intros x Hx Hx'. apply list_elem_of_singleton in Hx' as ->.
    apply Hlt in Hx. lia.
  - intros j Hj. apply elem_of_app in Hj as [Hj|Hj].
    + apply Hlt in Hj. lia.
    + apply list_elem_of_singleton in Hj as ->. lia.
  - intros snap Hsnap. destruct (Hr snap Hsnap) as (j & Hj & Hj').
    exists j. split; [done|]. apply elem_of_app. by left.
Qed.

Lemma sched_inv_suspend (s : state) :
  sched_inv (length items) s -> Limiter.running s <> [] ->
  sched_inv (length items) (Limiter.suspend s).
Proof.
  intros (Hn & Hnd & Hlt & Hr) Hne. repeat split; simpl; try done.
  intros snap Hsnap. apply elem_of_app in Hsnap as [Hsnap|Hsnap]; [by apply Hr|].
  apply list_elem_of_singleton in Hsnap as ->.
  destruct (Limiter.running s) as [|j l]; [done|]. exists j. split; left.
Qed.

(** After [runOne] either no item is left or the runner is suspended. *)
Lemma runOne_awaited (s : state) :
  Limiter.nextIndex s <= length items -> awaited (length items) (runOne s).
Proof.
  unfold Limiter.runOne, awaited.
  assert (forall rest s, rest = drop (Limiter.nextIndex s) items ->
            Limiter.nextIndex s <= length items ->
            let s' := Limiter.runOne_from (A:=A) task_begin limit rest s in
            Limiter.nextIndex s' < length items -> Limiter.racing s' <> []) as H.
  { clear s. induction rest as [|item rest IH]; intros s E Hle; simpl.
    - symmetry in E. apply drop_nil_inv in E. lia.
    - assert (items !! Limiter.nextIndex s = Some item) as Hit.
      { rewrite <- (Nat.add_0_r (Limiter.nextIndex s)), <- lookup_drop, <- E. done. }
      destruct (limit <=? _).
      + simpl. intros _. by destruct (Limiter.racing s).
      + apply IH.
        * simpl. rewrite (drop_S _ _ _ Hit) in E. by injection E.
        * simpl. apply lookup_lt_Some in Hit. lia. }
  intros Hle. by apply H.
Qed.

Lemma runOne_monotone (s : state) :
  Limiter.nextIndex s <= Limiter.nextIndex (runOne s) /\
  (Limiter.racing s <> [] -> Limiter.racing (runOne s) <> []).
Proof.
  apply (runOne_preserves (fun s' => Limiter.nextIndex s <= Limiter.nextIndex s' /\
           (Limiter.racing s <> [] -> Limiter.racing s' <> []))).
  - intros item s0 [H1 H2] _. simpl. split; [lia | done].
  - intros s0 [H1 H2] _. simpl. split; [done|]. intros _.
    by destruct (Limiter.racing s0).
  - done.
Qed.

Lemma runOne_keeps_awaited (s : state) :
  Limiter.nextIndex s <= length items ->
  awaited (length items) s -> awaited (length items) (runOne s).
Proof. intros Hle _. by apply runOne_awaited. Qed.

Lemma filter_none_woken (j : nat) (l : list (list nat)) :
  List.filter (Limiter.mem j) l = [] ->
  List.filter (fun snap => negb (Limiter.mem j snap)) l = l.
Proof.
  induction l as [|x l IH]; simpl; [done|].
  destruct (Limiter.mem j x); simpl; [done|]. intros H. f_equal. by apply IH.
Qed.

Lemma sched_inv_runOne (s : state) :
  sched_inv (length items) s -> sched_inv (length items) (runOne s).
Proof.
  apply runOne_preserves.
  - apply sched_inv_launch.
  - apply sched_inv_suspend.
Qed.

Lemma fold_runOne_awaited {T} (woken : list T) :
  forall s0 : state,
    sched_inv (length items) s0 ->
    (woken = [] -> awaited (length items) s0) ->
    awaited (length items) (fold_left (fun st _ => runOne st) woken s0).
Proof.
  induction woken as [|x woken IH]; intros s0 Hinv Haw; simpl; [by apply Haw|].
  apply IH; [by apply sched_inv_runOne|]. intros _.
  apply runOne_awaited. apply Hinv.
Qed.

Lemma settle_awaited (j : nat) (v : A) (s : state) :
  sched_inv (length items)
    {| Limiter.nextIndex := Limiter.nextIndex s;
       Limiter.running := List.filter (fun k => negb (Nat.eqb j k)) (Limiter.running s);
       Limiter.results := <[j := Some v]> (Limiter.results s);
       Limiter.racing := List.filter (fun snap => negb (Limiter.mem j snap)) (Limiter.racing s);
       Limiter.world := Limiter.world s |} ->
  awaited (length items) s -> awaited (length items) (settle j v s).
Proof.
  intros Hinv Haw. unfold Limiter.settle. apply fold_runOne_awaited; [done|].
  intros Hw. unfold awaited. simpl. rewrite (filter_none_woken _ _ Hw). apply Haw.
Qed.

Lemma begin_awaited (w : W) :
  1 <= limit ->
  awaited (length items) (Limiter.begin (A:=A) task_begin items limit w).
Proof.
  intros Hl. unfold Limiter.begin.
  destruct (Nat.min limit (length items)) as [|k] eqn:E.
  - intros Hlt. simpl in Hlt. lia.
  - simpl. apply runOne_awaited.
    assert (sched_inv (length items)
              (Nat.iter k runOne (Limiter.mkState 0 [] (replicate (length items) None) [] w)))
      as H; [|apply H].
    induction k as [|k' IH] in |- *; simpl.
    + repeat split; simpl; [lia | apply NoDup_nil_2 | |];
        intros ? Hx; by apply elem_of_nil in Hx.
    + by apply sched_inv_runOne.
Qed.

(** Once nothing is running, every item has been started. *)
Lemma all_started_when_idle (s : state) :
  sched_inv (length items) s -> awaited (length items) s ->
  Limiter.running s = [] -> Limiter.nextIndex s = length items.
Proof.
  intros (Hn & _ & _ & Hr) Haw Hidle.
  destruct (decide (Limiter.nextIndex s < length items)) as [Hlt|]; [|lia].
  exfalso. apply Haw in Hlt. destruct (Limiter.racing s) as [|snap l] eqn:E; [done|].
  destruct (Hr snap) as (j & _ & Hj); [left|].
  rewrite Hidle in Hj. by apply elem_of_nil in Hj.
Qed.

End scheduler.

(** ** One chain *)

Lemma write_status_names (chain : string) (st : chain_status)
    (l : list (string * chain_status)) :
  map fst (write_status chain st l) = map fst l.
Proof.
  induction l as [|[c old] l IH]; simpl; [done|].
  destruct (String.eqb chain c); simpl; [done | by rewrite IH].
Qed.

Lemma write_status_lookup (chain : string) (st : chain_status)
    (l : list (string * chain_status)) :
  chain ∈ map fst l -> assoc chain (write_status chain st l) = Some st.
Proof.
  induction l as [|[c old] l IH]; simpl; intros H; [by apply elem_of_nil in H|].
  destruct (String.eqb chain c) eqn:E; simpl; rewrite E; [done|].
  apply String.eqb_neq in E. apply elem_of_cons in H as [H|H]; [done | by apply IH].
Qed.

Lemma write_status_other (chain c : string) (st : chain_status)
    (l : list (string * chain_status)) :
  c <> chain -> assoc chain (write_status c st l) = assoc chain l.
Proof.
  intros Hne. induction l as [|[c' old] l IH]; simpl; [done|].
  destruct (String.eqb c c') eqn:E; simpl.
  - apply String.eqb_eq in E as <-.
    by destruct (String.eqb chain c) eqn:E'; [apply String.eqb_eq in E'|].
  - by rewrite IH.
Qed.

(** *** The loop counter as a number *)

Lemma Qnat_S (n : nat) : (Qnat (S n) == Qnat n + 1)%Q.
Proof. unfold Qnat. rewrite Nat2Z.inj_succ. unfold Z.succ. by rewrite inject_Z_plus. Qed.

Lemma Qnat_add (a b : nat) : (Qnat (a + b) == Qnat a + Qnat b)%Q.
Proof. unfold Qnat. by rewrite Nat2Z.inj_add, inject_Z_plus. Qed.

Lemma Qnat_lt (a b : nat) : (Qnat a < Qnat b)%Q <-> a < b.
Proof. unfold Qnat. rewrite <- Zlt_Qlt. lia. Qed.

Lemma Qnat_le (a b : nat) : (Qnat a <= Qnat b)%Q <-> a <= b.
Proof. unfold Qnat. rewrite <- Zle_Qle. lia. Qed.

Lemma Qnat_nonneg (n : nat) : (0 <= Qnat n)%Q.
Proof. change 0%Q with (Qnat 0). apply Qnat_le. lia. Qed.

Lemma Qltb_lt (a b : Q) : Qltb a b = true <-> (a < b)%Q.
Proof.
  unfold Qltb. rewrite negb_true_iff. split.
  - intros H. apply Qnot_le_lt. intros Hle. apply Qle_bool_iff in Hle. congruence.
  - intros H. destruct (Qle_bool b a) eqn:E; [|done]. apply Qle_bool_iff in E. lra.
Qed.

Lemma Qltb_ge (a b : Q) : Qltb a b = false <-> (b <= a)%Q.
Proof. unfold Qltb. rewrite negb_false_iff. apply Qle_bool_iff. Qed.

(** For a whole page count the page after a page below [pages] is at most
    [pages]. *)
Lemma whole_step (pages : Q) (i : nat) :
  whole pages -> (Qnat i < pages)%Q -> (Qnat (S i) <= pages)%Q.
Proof.
  intros [n Hn] H. rewrite Hn in *. apply Qnat_lt in H. apply Qnat_le. lia.
Qed.

Section one_chain.

Variable entityName : string.
Variable pages : Q.

Local Abbreviation page_body := (Crawler.page_body entityName pages).
Local Abbreviation crawl_step := (Crawler.crawl_step entityName pages).

(** What the body of one page changes in the shared variables. *)
Lemma page_body_effect (chain : string) (i : nat) (merged merged' : obj)
    (p : page) (w w' : world) (c : control) :
  page_body chain i merged p w = Ok (c, merged', w') ->
  frames w' = frames w /\ completedChains w' = completedChains w /\
  allResults w' = allResults w /\
  map fst (statuses w') = map fst (statuses w) /\
  completedPages w'
    = (completedPages w + match c with Break => pages - Qnat i | Next => 1 end)%Q /\
  (c = Break -> merged' = merged /\ statuses w' = statuses w) /\
  (forall other, other <> chain -> assoc other (statuses w') = assoc other (statuses w)).
Proof.
  unfold Crawler.page_body. destruct p as [reason|data]; [done|].
  destruct (transfers_of data) as [t|]; simpl; [|done].
  destruct (length_is_zero t).
  - intros E. injection E as <- <- <-. done.
  - destruct (forEach entityName t merged) as [m|]; simpl; [|done].
    intros E. injection E as <- <- <-.
    destruct (0 <? _); simpl; rewrite write_status_names;
      (repeat split; try done; intros other Hne; by apply write_status_other).
Qed.

(** How one turn of the loop ends, and what it has changed by then. *)
Lemma crawl_step_cases (chain : string) (idx : nat) (p : page) (w w' : world)
    (done : bool) :
  crawl_step chain idx p w = (w', done) ->
  let i := fst (frame idx w) in
  let merged := snd (frame idx w) in
  (exists reason, page_body chain i merged p w = Throw reason /\
     done = true /\ w' = fail chain reason w) \/
  (exists c m w1, page_body chain i merged p w = Ok (c, m, w1) /\
     (c = Break \/ (pages <= Qnat (S i))%Q) /\
     done = true /\ w' = finish chain m w1) \/
  (exists m w1, page_body chain i merged p w = Ok (Next, m, w1) /\
     (Qnat (S i) < pages)%Q /\
     done = false /\ w' = set_frame idx (S i, m) w1).
Proof.
  unfold Crawler.crawl_step. destruct (frame idx w) as [i merged]. simpl.
  destruct (page_body chain i merged p w) as [[[c m] w1]|reason] eqn:E.
  - destruct c.
    + intros H. injection H as <- <-. right. left. exists Break, m, w1. auto.
    + destruct (Qltb (Qnat (S i)) pages) eqn:Hlt.
      * intros H. injection H as <- <-. right. right. exists m, w1.
        apply Qltb_lt in Hlt. auto.
      * intros H. injection H as <- <-. right. left. exists Next, m, w1.
        apply Qltb_ge in Hlt. auto.
  - intros H. injection H as <- <-. left. exists reason. auto.
Qed.

Lemma crawl_step_effect (chain : string) (idx : nat) (p : page) (w w' : world)
    (done : bool) :
  (Qnat (fst (frame idx w)) < pages)%Q ->
  crawl_step chain idx p w = (w', done) ->
  map fst (statuses w') = map fst (statuses w) /\
  (completedPages w <= completedPages w')%Q /\
  if done then
    frames w' = frames w /\ completedChains w' = completedChains w + 1
  else
    (exists m, frames w' = <[idx := (S (fst (frame idx w)), m)]> (frames w)) /\
    (Qnat (S (fst (frame idx w))) < pages)%Q /\
    completedChains w' = completedChains w /\
    completedPages w' = (completedPages w + 1)%Q.
Proof.
  intros Hi E. apply crawl_step_cases in E. simpl in E.
  destruct E as [(reason & E & -> & ->)|[(c & m & w1 & E & Hc & -> & ->)|
                                        (m & w1 & E & Hlt & -> & ->)]].
  - simpl. rewrite write_status_names. repeat split; try done. lra.
  - apply page_body_effect in E as (Hf & Hch & Hr & Hs & Hp & _).
    simpl. rewrite write_status_names. repeat split; try done; [|lia].
    rewrite Hp. destruct c; lra.
  - apply page_body_effect in E as (Hf & Hch & Hr & Hs & Hp & _).
    simpl. rewrite Hf. repeat split; try done; [rewrite Hp; lra | by eexists].
Qed.

(** A turn of the loop writes the status line of its own chain only. *)
Lemma crawl_step_status_other (chain other : string) (idx : nat) (p : page)
    (w w' : world) (done : bool) :
  crawl_step chain idx p w = (w', done) -> other <> chain ->
  assoc other (statuses w') = assoc other (statuses w).
Proof.
  intros E Hne. apply crawl_step_cases in E. simpl in E.
  destruct E as [(reason & E & -> & ->)|[(c & m & w1 & E & Hc & -> & ->)|
                                        (m & w1 & E & Hlt & -> & ->)]]; simpl.
  - by apply write_status_other.
  - apply page_body_effect in E as (_ & _ & _ & _ & _ & _ & Ho).
    rewrite write_status_other by done. by apply Ho.
  - apply page_body_effect in E as (_ & _ & _ & _ & _ & _ & Ho). by apply Ho.
Qed.

End one_chain.

(** ** A run *)

Lemma frame_set_frame (j idx : nat) (f : nat * obj) (w : world) :
  idx < length (frames w) ->
  frame j (set_frame idx f w) = if decide (j = idx) then f else frame j w.
Proof.
  intros Hlt. unfold frame, set_frame. simpl. destruct (decide (j = idx)) as [->|Hne].
  - by rewrite list_lookup_insert_eq.
  - by rewrite list_lookup_insert_ne.
Qed.

Lemma frame_frames (j : nat) (w w' : world) :
  frames w' = frames w -> frame j w' = frame j w.
Proof. unfold frame. by intros ->. Qed.

Section run.

Variable entityName : string.
Variable pages : Q.
Variable chains : list string.
Hypothesis pages_positive : (1 <= pages)%Q.

Local Abbreviation launch := (Limiter.launch (A:=unit) crawl_begin).
Local Abbreviation deliver := (Crawler.deliver entityName pages chains).
Local Abbreviation run_events := (Crawler.run_events entityName pages chains).
Local Abbreviation inv := (crawl_inv pages chains).

Lemma launch_frame (item : string) (s : orchestrator) (j : nat) :
  Limiter.nextIndex s < length (frames (Limiter.world s)) ->
  frame j (Limiter.world (launch item s)) =
  if decide (j = Limiter.nextIndex s) then (0, []) else frame j (Limiter.world s).
Proof.
  intros Hlt. simpl. unfold crawl_begin. rewrite frame_set_frame by (simpl; lia).
  destruct (decide _); [done|]. by apply frame_frames.
Qed.

Lemma crawl_inv_launch (item : string) (s : orchestrator) :
  inv s -> chains !! Limiter.nextIndex s = Some item -> inv (launch item s).
Proof.
  intros (Hs & Hlen & Hfr & Hpg & Hch & Hst) Hit.
  pose proof (lookup_lt_Some _ _ _ Hit) as Hlt.
  split; [by apply sched_inv_launch|].
  split; [simpl; rewrite length_insert; done|].
  split; [|split; [|split]].
  - intros j Hj. rewrite launch_frame by lia. destruct (decide _).
    + simpl. change (Qnat 0) with 0%Q. lra.
    + apply Hfr. simpl in Hj. apply elem_of_app in Hj as [Hj|Hj]; [done|].
      by apply list_elem_of_singleton in Hj.
  - done.
  - simpl. rewrite length_app. simpl. lia.
  - simpl. by rewrite write_status_names.
Qed.

Lemma crawl_inv_suspend (s : orchestrator) :
  inv s -> Limiter.running s <> [] -> inv (Limiter.suspend s).
Proof.
  intros (Hs & Hrest) Hne. split; [by apply sched_inv_suspend | exact Hrest].
Qed.

Lemma crawl_inv_begin : inv (run_begin chains).
Proof.
  unfold run_begin. apply (begin_preserves crawl_begin chains 3 inv).
  - apply crawl_inv_launch.
  - apply crawl_inv_suspend.
  - split; [|split; [|split; [|split; [|split]]]]; simpl.
    + repeat split; simpl; [lia | apply NoDup_nil_2 | |];
        intros ? Hx; by apply elem_of_nil in Hx.
    + by rewrite length_replicate.
    + intros j Hj. by apply elem_of_nil in Hj.
    + lra.
    + done.
    + rewrite map_map. simpl. apply map_id.
Qed.

(** The state in which the starters resume after the chain at [idx] has
    returned. *)
Lemma crawl_inv_returned (idx : nat) (s : orchestrator) (w' : world) :
  inv s -> idx ∈ Limiter.running s ->
  map fst (statuses w') = map fst (statuses (Limiter.world s)) ->
  frames w' = frames (Limiter.world s) ->
  completedChains w' = completedChains (Limiter.world s) + 1 ->
  (completedPages (Limiter.world s) <= completedPages w')%Q ->
  inv {| Limiter.nextIndex := Limiter.nextIndex s;
         Limiter.running := List.filter (fun k => negb (Nat.eqb idx k)) (Limiter.running s);
         Limiter.results := <[idx := Some tt]> (Limiter.results s);
         Limiter.racing :=
           List.filter (fun snap => negb (Limiter.mem idx snap)) (Limiter.racing s);
         Limiter.world := w' |}.
Proof.
  intros ((Hn & Hnd & Hlt & Hr) & Hlen & Hfr & Hpg & Hch & Hst) Hin Hs' Hf' Hc' Hp'.
  split; [|split; [|split; [|split; [|split]]]]; simpl.
  - repeat split; simpl.
    + done.
    + by apply NoDup_remove.
    + intros j Hj. apply elem_of_remove in Hj as [Hj _]. by apply Hlt.
    + intros snap Hsnap. apply list_elem_of_In, filter_In in Hsnap as [Hsnap Hmem].
      apply list_elem_of_In in Hsnap. destruct (Hr snap Hsnap) as (j & Hj & Hj').
      exists j. split; [done|]. apply elem_of_remove. split; [done|].
      intros ->. apply mem_elem_of in Hj. by rewrite Hj in Hmem.
  - by rewrite Hf'.
  - intros j Hj. apply elem_of_remove in Hj as [Hj _].
    rewrite (frame_frames j _ _ Hf'). by apply Hfr.
  - lra.
  - pose proof (length_remove idx _ Hnd Hin). lia.
  - by rewrite Hs'.
Qed.

Lemma deliver_frame (idx : nat) (m : obj) (s : orchestrator) (w' : world) (j : nat) :
  frames w' = <[idx := (S (fst (frame idx (Limiter.world s))), m)]>
                (frames (Limiter.world s)) ->
  idx < length (frames (Limiter.world s)) ->
  frame j w' =
  if decide (j = idx) then (S (fst (frame idx (Limiter.world s))), m)
  else frame j (Limiter.world s).
Proof.
  intros Hf' Hidx. unfold frame at 1. rewrite Hf'.
  destruct (decide (j = idx)) as [->|Hne].
  - by rewrite list_lookup_insert_eq.
  - by rewrite list_lookup_insert_ne.
Qed.

Lemma crawl_inv_deliver (idx : nat) (p : page) (s s' : orchestrator) :
  inv s -> deliver idx p s = Some s' -> inv s'.
Proof.
  intros Hinv. unfold Crawler.deliver.
  destruct (Limiter.mem idx (Limiter.running s)) eqn:Hmem; [|done].
  apply mem_elem_of in Hmem.
  destruct (chains !! idx) as [chain|] eqn:Hchain; [|done].
  destruct (crawl_step entityName pages chain idx p (Limiter.world s))
    as [w' done] eqn:Estep.
  pose proof Hinv as ((Hn & Hnd & Hlt & Hr) & Hlen & Hfr & Hpg & Hch & Hst).
  apply crawl_step_effect in Estep as (Hnames & Hmono & Heff); [|by apply Hfr].
  intros E. injection E as <-. destruct done.
  - destruct Heff as (Hf' & Hc').
    apply (settle_preserves crawl_begin chains 3 inv).
    + apply crawl_inv_launch.
    + apply crawl_inv_suspend.
    + simpl. by apply (crawl_inv_returned idx s w').
  - destruct Heff as ([m Hf'] & Hi' & Hc' & Hp').
    assert (idx < length (frames (Limiter.world s))) as Hidx.
    { rewrite Hlen. apply Hlt in Hmem. lia. }
    split; [|split; [|split; [|split; [|split]]]]; simpl.
    + done.
    + by rewrite Hf', length_insert.
    + intros j Hj. rewrite (deliver_frame idx m s w' j Hf' Hidx).
      destruct (decide _); [done | by apply Hfr].
    + lra.
    + lia.
    + by rewrite Hnames.
Qed.

Lemma awaited_deliver (idx : nat) (p : page) (s s' : orchestrator) :
  inv s -> awaited (length chains) s -> deliver idx p s = Some s' ->
  awaited (length chains) s'.
Proof.
  intros Hinv Haw. unfold Crawler.deliver.
  destruct (Limiter.mem idx (Limiter.running s)) eqn:Hmem; [|done].
  apply mem_elem_of in Hmem.
  destruct (chains !! idx) as [chain|] eqn:Hchain; [|done].
  destruct (crawl_step entityName pages chain idx p (Limiter.world s))
    as [w' done] eqn:Estep.
  pose proof Hinv as (_ & _ & Hfr & _).
  apply crawl_step_effect in Estep as (Hnames & Hmono & Heff); [|by apply Hfr].
  intros E. injection E as <-. destruct done; [|exact Haw].
  destruct Heff as (Hf' & Hc').
  apply settle_awaited; [|exact Haw].
  simpl. by apply (crawl_inv_returned idx s w').
Qed.

Lemma run_events_inv (evs : list (nat * page)) :
  forall s s', inv s -> run_events evs s = Some s' -> inv s'.
Proof.
  induction evs as [|[idx p] evs IH]; intros s s' Hi; simpl.
  - intros E. by injection E as <-.
  - destruct (deliver idx p s) as [s1|] eqn:Ed; [|done].
    apply IH. by eapply crawl_inv_deliver.
Qed.

Lemma reachable_inv (s : orchestrator) :
  reachable entityName pages chains s -> inv s /\ awaited (length chains) s.
Proof.
  intros [evs Hrun].
  assert (forall evs s0, inv s0 /\ awaited (length chains) s0 ->
            run_events evs s0 = Some s -> inv s /\ awaited (length chains) s) as H.
  { clear evs Hrun. induction evs as [|[idx p] evs IH]; intros s0 [Hi Ha]; simpl.
    - intros E. by injection E as <-.
    - destruct (deliver idx p s0) as [s1|] eqn:Ed; [|done].
      apply IH. split; [by eapply crawl_inv_deliver | by eapply awaited_deliver]. }
  apply (H evs (run_begin chains)); [|done].
  split; [apply crawl_inv_begin|]. apply begin_awaited. lia.
Qed.

End run.

(** ** The counters of a run *)

Lemma Qsum_app (f : nat -> Q) (a b : list nat) :
  (Qsum f (a ++ b) == Qsum f a + Qsum f b)%Q.
Proof. induction a as [|x a IH]; simpl; [lra | rewrite IH; lra]. Qed.

Lemma Qsum_ext_in (f g : nat -> Q) (l : list nat) :
  (forall j, j ∈ l -> (f j == g j)%Q) -> (Qsum f l == Qsum g l)%Q.
Proof.
  induction l as [|x l IH]; intros H; simpl; [lra|].
  rewrite (H x) by left. rewrite IH; [lra|]. intros j Hj. apply H. by right.
Qed.

Lemma Qsum_remove (f : nat -> Q) (j : nat) (l : list nat) :
  NoDup l -> j ∈ l ->
  (Qsum f (List.filter (fun x => negb (Nat.eqb j x)) l) + f j == Qsum f l)%Q.
Proof.
  induction l as [|x l IH]; intros Hnd Hin; [by apply elem_of_nil in Hin|].
  apply NoDup_cons in Hnd as [Hx Hnd]. simpl.
  destruct (Nat.eqb j x) eqn:E; simpl.
  - apply Nat.eqb_eq in E as <-.
    assert (List.filter (fun x => negb (Nat.eqb j x)) l = l) as ->; [|lra].
    clear IH Hin Hnd. induction l as [|y l IH]; simpl; [done|].
    apply not_elem_of_cons in Hx as [Hne Hx].
    apply Nat.eqb_neq in Hne as ->. simpl. f_equal. by apply IH.
  - apply Nat.eqb_neq in E. apply elem_of_cons in Hin as [Hin|Hin]; [done|].
    specialize (IH Hnd Hin). lra.
Qed.

Lemma Qsum_nonneg (f : nat -> Q) (l : list nat) :
  (forall j, j ∈ l -> (0 <= f j)%Q) -> (0 <= Qsum f l)%Q.
Proof.
  induction l as [|x l IH]; intros H; simpl; [lra|].
  pose proof (H x ltac:(left)). assert (0 <= Qsum f l)%Q; [|lra].
  apply IH. intros j Hj. apply H. by right.
Qed.

Section counters.

Variable entityName : string.
Variable pages : Q.
Variable chains : list string.
Hypothesis pages_positive : (1 <= pages)%Q.

Local Abbreviation left_of w := (fun j => (pages - Qnat (fst (frame j w)))%Q).

Lemma completedPages_le_accounted (s : orchestrator) :
  crawl_inv pages chains s ->
  (completedPages (Limiter.world s) <= accounted pages chains s)%Q.
Proof.
  intros (Hs & Hlen & Hfr & Hpg & Hch & Hst). unfold accounted, pending.
  assert (0 <= Qsum (left_of (Limiter.world s)) (Limiter.running s))%Q as H1.
  { apply Qsum_nonneg. intros j Hj. specialize (Hfr j Hj). lra. }
  assert (0 <= Qnat (length chains - Limiter.nextIndex s) * pages)%Q as H2.
  { apply Qmult_le_0_compat; [apply Qnat_nonneg | lra]. }
  lra.
Qed.

Lemma accounted_launch (item : string) (s : orchestrator) :
  crawl_inv pages chains s -> chains !! Limiter.nextIndex s = Some item ->
  (accounted pages chains (Limiter.launch (A:=unit) crawl_begin item s)
   == accounted pages chains s)%Q.
Proof.
  intros (Hs & Hlen & Hfr & Hpg & Hch & Hst) Hit.
  pose proof (lookup_lt_Some _ _ _ Hit) as Hlt.
  assert (forall j, j ∈ Limiter.running s -> j <> Limiter.nextIndex s) as Hne.
  { intros j Hj. destruct Hs as (_ & _ & Hb & _). apply Hb in Hj. lia. }
  unfold accounted, pending. cbn [Limiter.running Limiter.nextIndex Limiter.launch].
  rewrite Qsum_app. cbn [Qsum].
  rewrite (launch_frame item s (Limiter.nextIndex s)) by lia.
  rewrite decide_True by done. cbn [fst].
  rewrite (Qsum_ext_in _ (left_of (Limiter.world s))).
  2:{ intros j Hj. rewrite (launch_frame item s j) by lia.
      by rewrite decide_False by by apply Hne. }
  replace (completedPages (Limiter.world (Limiter.launch (A:=unit) crawl_begin item s)))
    with (completedPages (Limiter.world s)) by done.
  replace (length chains - Limiter.nextIndex s)
    with (S (length chains - S (Limiter.nextIndex s))) by lia.
  rewrite Qnat_S. change (Qnat 0) with 0%Q. lra.
Qed.

Lemma accounted_settle (idx : nat) (s0 : orchestrator) :
  crawl_inv pages chains
    {| Limiter.nextIndex := Limiter.nextIndex s0;
       Limiter.running := List.filter (fun k => negb (Nat.eqb idx k)) (Limiter.running s0);
       Limiter.results := <[idx := Some tt]> (Limiter.results s0);
       Limiter.racing :=
         List.filter (fun snap => negb (Limiter.mem idx snap)) (Limiter.racing s0);
       Limiter.world := Limiter.world s0 |} ->
  (accounted pages chains (Limiter.settle crawl_begin chains 3 idx tt s0)
   == completedPages (Limiter.world s0)
      + Qsum (left_of (Limiter.world s0))
          (List.filter (fun k => negb (Nat.eqb idx k)) (Limiter.running s0))
      + Qnat (length chains - Limiter.nextIndex s0) * pages)%Q.
Proof.
  intros Hpre.
  set (c := (completedPages (Limiter.world s0)
    + Qsum (left_of (Limiter.world s0))
        (List.filter (fun k => negb (Nat.eqb idx k)) (Limiter.running s0))
    + Qnat (length chains - Limiter.nextIndex s0) * pages)%Q).
  assert (crawl_inv pages chains (Limiter.settle crawl_begin chains 3 idx tt s0) /\
          (accounted pages chains (Limiter.settle crawl_begin chains 3 idx tt s0) == c)%Q)
    as [_ H]; [|exact H].
  apply (settle_preserves crawl_begin chains 3
           (fun t : orchestrator =>
              crawl_inv pages chains t /\ (accounted pages chains t == c)%Q)).
  - intros item t [Ht Ha] Hit. split; [by apply crawl_inv_launch|].
    by rewrite accounted_launch.
  - intros t [Ht Ha] Hne. split; [by apply crawl_inv_suspend | exact Ha].
  - split; [exact Hpre | reflexivity].
Qed.

Lemma accounted_begin :
  (accounted pages chains (run_begin chains) == totalPages pages chains)%Q.
Proof.
  assert (crawl_inv pages chains (run_begin chains) /\
          (accounted pages chains (run_begin chains) == totalPages pages chains)%Q)
    as [_ H]; [|exact H].
  unfold run_begin.
  apply (begin_preserves crawl_begin chains 3
           (fun t : orchestrator =>
              crawl_inv pages chains t /\
              (accounted pages chains t == totalPages pages chains)%Q)).
  - intros item t [Ht Ha] Hit. split; [by apply crawl_inv_launch|].
    by rewrite accounted_launch.
  - intros t [Ht Ha] Hne. split; [by apply crawl_inv_suspend | exact Ha].
  - split.
    + split; [|split; [|split; [|split; [|split]]]]; simpl.
      * repeat split; simpl; [lia | apply NoDup_nil_2 | |];
          intros ? Hx; by apply elem_of_nil in Hx.
      * by rewrite length_replicate.
      * intros j Hj. by apply elem_of_nil in Hj.
      * lra.
      * done.
      * rewrite map_map. simpl. apply map_id.
    + unfold accounted, pending, totalPages. simpl. rewrite Nat.sub_0_r. lra.
Qed.

(** What one arriving page does to the pages accounted for: a page that
    throws loses the pages its chain had left; a last page that is reached
    with [i + 1] above [pages] counts more than the chain had left. *)
Lemma accounted_deliver (idx : nat) (p : page) (s s' : orchestrator) (chain : string) :
  crawl_inv pages chains s ->
  chains !! idx = Some chain ->
  deliver entityName pages chains idx p s = Some s' ->
  let i := fst (frame idx (Limiter.world s)) in
  let merged := snd (frame idx (Limiter.world s)) in
  match page_body entityName pages chain i merged p (Limiter.world s) with
  | Throw _ =>
      (accounted pages chains s' == accounted pages chains s - (pages - Qnat i))%Q
  | Ok (Break, _, _) => (accounted pages chains s' == accounted pages chains s)%Q
  | Ok (Next, _, _) =>
      if Qltb (Qnat (S i)) pages
      then (accounted pages chains s' == accounted pages chains s)%Q
      else (accounted pages chains s'
            == accounted pages chains s + (Qnat (S i) - pages))%Q
  end.
Proof.
  intros Hinv Hchain. unfold deliver. rewrite Hchain.
  destruct (Limiter.mem idx (Limiter.running s)) eqn:Hmem; [|done].
  apply mem_elem_of in Hmem.
  destruct (crawl_step entityName pages chain idx p (Limiter.world s))
    as [w' done] eqn:Estep.
  pose proof Hinv as ((Hn & Hnd & Hlt & Hr) & Hlen & Hfr & Hpg & Hch & Hst).
  pose proof Estep as Ecases. apply crawl_step_cases in Ecases.
  apply crawl_step_effect in Estep as (Hnames & Hmono & Heff); [|by apply Hfr].
  intros E. injection E as <-. cbv zeta in *.
  pose proof (Qsum_remove (left_of (Limiter.world s)) idx _ Hnd Hmem) as Hsum.
  simpl in Hsum.
  assert (done = true ->
          (accounted pages chains
             (Limiter.settle crawl_begin chains 3 idx tt
                (Limiter.mkState (Limiter.nextIndex s) (Limiter.running s)
                   (Limiter.results s) (Limiter.racing s) w'))
           == accounted pages chains s
              + (completedPages w' - completedPages (Limiter.world s))
              - (pages - Qnat (fst (frame idx (Limiter.world s)))))%Q) as Hdone.
  { intros ->. destruct Heff as (Hf' & Hc').
    rewrite accounted_settle.
    2:{ simpl. by apply (crawl_inv_returned pages chains idx s w'). }
    simpl. unfold accounted, pending.
    rewrite (Qsum_ext_in (left_of w') (left_of (Limiter.world s))).
    2:{ intros j _. by rewrite (frame_frames j _ _ Hf'). }
    lra. }
  destruct Ecases as [(reason & E & -> & ->)|[(c & m & w1 & E & Hc & -> & ->)|
                                             (m & w1 & E & Hlt' & -> & ->)]].
  - rewrite E. specialize (Hdone eq_refl). cbv iota.
    change (completedPages (fail chain reason (Limiter.world s)))
      with (completedPages (Limiter.world s)) in Hdone.
    rewrite Hdone. lra.
  - rewrite E. specialize (Hdone eq_refl). cbv iota.
    apply page_body_effect in E as (_ & _ & _ & _ & Hp & _).
    change (completedPages (finish chain m w1)) with (completedPages w1) in Hdone.
    rewrite Hp in Hdone.
    destruct c.
    + rewrite Hdone. lra.
    + destruct Hc as [Hc|Hc]; [done|].
      apply Qltb_ge in Hc as Hb. rewrite Hb. rewrite Hdone, Qnat_S. lra.
  - rewrite E. apply Qltb_lt in Hlt' as Hb. cbv iota. rewrite Hb.
    destruct Heff as ([m' Hf'] & Hi' & Hc' & Hp').
    assert (idx < length (frames (Limiter.world s))) as Hidx.
    { rewrite Hlen. apply Hlt in Hmem. lia. }
    unfold accounted, pending. simpl.
    pose proof (Qsum_remove (left_of (set_frame idx (S (frame idx (Limiter.world s)).1, m) w1))
                  idx _ Hnd Hmem) as Hsum'.
    rewrite (Qsum_ext_in (left_of (set_frame idx (S (frame idx (Limiter.world s)).1, m) w1))
               (left_of (Limiter.world s))) in Hsum'.
    2:{ intros j Hj. apply elem_of_remove in Hj as [_ Hj].
        rewrite (deliver_frame idx m' s _ j Hf' Hidx). by rewrite decide_False. }
    simpl in Hsum'.
    rewrite (deliver_frame idx m' s _ idx Hf' Hidx), decide_True in Hsum' by done.
    simpl in Hsum'. rewrite Qnat_S in Hsum'. simpl in Hp'. rewrite Hp'. lra.
Qed.

Section whole_pages.

Hypothesis pages_whole : whole pages.

Lemma accounted_step (idx : nat) (p : page) (s s' : orchestrator) :
  crawl_inv pages chains s ->
  deliver entityName pages chains idx p s = Some s' ->
  (accounted pages chains s' <= accounted pages chains s)%Q /\
  (forall chain reason,
     chains !! idx = Some chain ->
     page_body entityName pages chain (fst (frame idx (Limiter.world s)))
       (snd (frame idx (Limiter.world s))) p (Limiter.world s) = Throw reason ->
     (accounted pages chains s' < accounted pages chains s)%Q).
Proof.
  intros Hinv Hd.
  assert (exists chain, chains !! idx = Some chain /\ idx ∈ Limiter.running s)
    as (chain & Hchain & Hmem).
  { unfold deliver in Hd.
    destruct (Limiter.mem idx (Limiter.running s)) eqn:Hmem; [|done].
    apply mem_elem_of in Hmem. destruct (chains !! idx) as [chain|]; [|done].
    by exists chain. }
  pose proof (accounted_deliver idx p s s' chain Hinv Hchain Hd) as H. cbv zeta in H.
  pose proof Hinv as (_ & _ & Hfr & _). specialize (Hfr idx Hmem).
  pose proof (whole_step pages _ pages_whole Hfr) as Hstep.
  split.
  - destruct (page_body entityName pages chain _ _ p (Limiter.world s))
      as [[[[] m] w1]|reason]; [lra | | lra].
    destruct (Qltb _ pages); lra.
  - intros chain' reason Hc Hthrow. rewrite Hchain in Hc. injection Hc as <-.
    rewrite Hthrow in H. lra.
Qed.

Lemma accounted_run (evs : list (nat * page)) :
  forall s s', crawl_inv pages chains s ->
    run_events entityName pages chains evs s = Some s' ->
    (accounted pages chains s' <= accounted pages chains s)%Q.
Proof.
  induction evs as [|[idx p] evs IH]; intros s s' Hinv; simpl.
  - intros E. injection E as <-. lra.
  - destruct (deliver entityName pages chains idx p s) as [s1|] eqn:Ed; [|done].
    intros E. apply IH in E; [|by eapply (crawl_inv_deliver entityName)].
    destruct (accounted_step idx p s s1 Hinv Ed) as [H _]. lra.
Qed.

Lemma completedPages_le_totalPages (s : orchestrator) :
  reachable entityName pages chains s ->
  (completedPages (Limiter.world s) <= totalPages pages chains)%Q.
Proof.
  intros Hs. destruct (reachable_inv entityName pages chains pages_positive s Hs) as [Hinv _].
  destruct Hs as [evs Hrun].
  pose proof (accounted_run evs _ _ (crawl_inv_begin pages chains pages_positive) Hrun) as H.
  pose proof (completedPages_le_accounted s Hinv).
  pose proof accounted_begin. lra.
Qed.

End whole_pages.

End counters.

(** ** Pages counted by one chain *)

Section page_count.

Variable entityName : string.
Variable pages : Q.

Local Abbreviation page_body := (Crawler.page_body entityName pages).
Local Abbreviation crawl_step := (Crawler.crawl_step entityName pages).
Local Abbreviation crawl_pages := (Crawler.crawl_pages entityName pages).

Lemma harvest_app (a b : list page) (m : obj) :
  harvest entityName (a ++ b) m =
  let* m1 := harvest entityName a m in harvest entityName b m1.
Proof.
  revert m. induction a as [|p a IH]; intros m; simpl; [done|].
  destruct p as [reason|data]; [done|].
  destruct (transfers_of data) as [t|]; simpl; [|done].
  destruct (forEach entityName t m) as [m1|]; simpl; [apply IH | done].
Qed.

Lemma harvest_one (p : page) (m m' : obj) :
  harvest entityName [p] m = Ok m' <->
  exists data t, p = PageData data /\ transfers_of data = Ok t /\
    forEach entityName t m = Ok m'.
Proof.
  simpl. split.
  - destruct p as [reason|data]; [done|].
    destruct (transfers_of data) as [t|] eqn:Et; simpl; [|done].
    destruct (forEach entityName t m) as [m1|] eqn:E; simpl; [|done].
    intros H. injection H as <-. by exists data, t.
  - intros (data & t & -> & -> & E). simpl. by rewrite E.
Qed.

(** A page with records whose records are extracted without an exception
    is a turn of the loop that ends normally. *)
Lemma page_body_records (chain : string) (i : nat) (merged m : obj) (p : page)
    (w : world) :
  has_records p = true -> harvest entityName [p] merged = Ok m ->
  exists w1, page_body chain i merged p w = Ok (Next, m, w1).
Proof.
  intros Hp Hh. apply harvest_one in Hh as (data & t & -> & Et & Ef).
  unfold Crawler.page_body. rewrite Et. cbn [bind].
  assert (length_is_zero t = false) as ->.
  { destruct data as [| | | | | |fs]; try done. simpl in Hp.
    unfold transfers_of, prop in Et. simpl in Et.
    destruct (assoc "transfers" fs) as [[| | | | |[|tx txs]|]|]; try done.
    simpl in Et. by injection Et as <-. }
  rewrite Ef. cbn [bind]. by eexists.
Qed.

Lemma crawl_step_records (chain : string) (idx : nat) (p : page) (w : world) (m : obj) :
  has_records p = true -> harvest entityName [p] (snd (frame idx w)) = Ok m ->
  idx < length (frames w) ->
  (Qnat (S (fst (frame idx w))) < pages)%Q ->
  exists w', crawl_step chain idx p w = (w', false) /\
    completedPages w' = (completedPages w + 1)%Q /\
    frame idx w' = (S (fst (frame idx w)), m) /\
    length (frames w') = length (frames w) /\
    allResults w' = allResults w /\ completedChains w' = completedChains w /\
    map fst (statuses w') = map fst (statuses w).
Proof.
  intros Hp Hh Hidx Hlt. unfold Crawler.crawl_step.
  destruct (frame idx w) as [i merged] eqn:Ef. simpl in *.
  destruct (page_body_records chain i merged m p w Hp Hh) as [w1 E].
  rewrite E. apply page_body_effect in E as (Hf & Hc & Hr & Hs & Hpg & _).
  apply Qltb_lt in Hlt as ->.
  eexists. split; [reflexivity|]. simpl.
  split; [done|]. split.
  { rewrite frame_set_frame by (by rewrite Hf). by rewrite decide_True. }
  split; [by rewrite length_insert, Hf|]. done.
Qed.

(** The last turn of the loop: the page after it would not be below
    [pages]. *)
Lemma crawl_step_last (chain : string) (idx : nat) (p : page) (w : world) (m : obj) :
  has_records p = true -> harvest entityName [p] (snd (frame idx w)) = Ok m ->
  (pages <= Qnat (S (fst (frame idx w))))%Q ->
  exists w', crawl_step chain idx p w = (w', true) /\
    completedPages w' = (completedPages w + 1)%Q /\
    completedChains w' = completedChains w + 1 /\
    allResults w' = allResults w ++ values m /\
    (chain ∈ map fst (statuses w) ->
     assoc chain (statuses w') = Some (Completed (length (values m)))).
Proof.
  intros Hp Hh Hge. unfold Crawler.crawl_step.
  destruct (frame idx w) as [i merged] eqn:Ef. simpl in *.
  destruct (page_body_records chain i merged m p w Hp Hh) as [w1 E].
  rewrite E. apply page_body_effect in E as (Hf & Hc & Hr & Hs & Hpg & _).
  apply Qltb_ge in Hge as ->.
  eexists. split; [reflexivity|]. simpl.
  split; [done|]. split; [by rewrite Hc|]. split; [by rewrite Hr|].
  intros Hin. apply write_status_lookup. by rewrite Hs.
Qed.

Lemma transfers_of_no_records (data : jsval) :
  no_records (PageData data) = true ->
  exists t, transfers_of data = Ok t /\ length_is_zero t = true.
Proof.
  destruct data as [| | | | | |fs]; try done. simpl.
  unfold transfers_of, prop. simpl.
  destruct (assoc "transfers" fs) as [t|]; [|intros _; by exists (JArr [])].
  destruct t as [| |b|z|s|[|tx txs]|gs]; simpl; intros Hp;
    try apply negb_true_iff in Hp; try done;
    try (by exists (JArr [])); rewrite Hp; by exists (JArr []).
Qed.

Lemma crawl_step_exhausted (chain : string) (idx : nat) (p : page) (w : world) :
  no_records p = true ->
  exists w', crawl_step chain idx p w = (w', true) /\
    completedPages w' = (completedPages w + (pages - Qnat (fst (frame idx w))))%Q /\
    allResults w' = allResults w ++ values (snd (frame idx w)).
Proof.
  intros Hp. unfold Crawler.crawl_step, Crawler.page_body.
  destruct (frame idx w) as [i merged] eqn:Ef.
  destruct p as [|data]; [done|].
  destruct (transfers_of_no_records data Hp) as (t & -> & Hz).
  cbn [bind]. rewrite Hz. eexists. split; [done|]. done.
Qed.

Lemma crawl_pages_app (chain : string) (idx : nat) (a b : list page) (w : world) :
  crawl_pages chain idx (a ++ b) w =
  let '(w', done) := crawl_pages chain idx a w in
  if done then (w', true) else crawl_pages chain idx b w'.
Proof.
  revert w. induction a as [|p a IH]; intros w; simpl; [done|].
  destruct (crawl_step chain idx p w) as [w' []]; [done | apply IH].
Qed.

Lemma crawl_pages_records (chain : string) (idx : nat) (full : list page) :
  forall (w : world) (m : obj),
    Forall (fun p => has_records p = true) full ->
    harvest entityName full (snd (frame idx w)) = Ok m ->
    idx < length (frames w) ->
    (Qnat (fst (frame idx w) + length full) < pages)%Q ->
    exists w', crawl_pages chain idx full w = (w', false) /\
      (completedPages w' == completedPages w + Qnat (length full))%Q /\
      frame idx w' = (fst (frame idx w) + length full, m) /\
      length (frames w') = length (frames w) /\
      allResults w' = allResults w /\ completedChains w' = completedChains w /\
      map fst (statuses w') = map fst (statuses w).
Proof.
  induction full as [|p full IH]; intros w m Hall Hh Hidx Hlt.
  - simpl in *. injection Hh as <-. exists w. rewrite Nat.add_0_r.
    split; [done|]. split; [change (Qnat 0) with 0%Q; lra|].
    split; [by destruct (frame idx w)|]. done.
  - inversion Hall as [|? ? Hp Hall']; subst.
    change (p :: full) with ([p] ++ full) in Hh. rewrite harvest_app in Hh.
    destruct (harvest entityName [p] (frame idx w).2) as [m1|] eqn:E1; [|done].
    cbn [bind] in Hh.
    destruct (crawl_step_records chain idx p w m1 Hp E1 Hidx)
      as (w1 & Es & Hc & Hf & Hl & Hr & Hch & Hs).
    { eapply Qle_lt_trans; [|exact Hlt]. apply Qnat_le. simpl. lia. }
    destruct (IH w1 m Hall') as (w2 & E2 & Hc2 & Hf2 & Hl2 & Hr2 & Hch2 & Hs2).
    + by rewrite Hf.
    + lia.
    + rewrite Hf. eapply Qle_lt_trans; [|exact Hlt]. apply Qnat_le. simpl. lia.
    + exists w2. simpl. rewrite Es. split; [done|].
      split. { rewrite Hc2, Hc. rewrite (Qnat_S (length full)). lra. }
      split. { rewrite Hf2, Hf. simpl. f_equal. lia. }
      split; [lia|]. split; [congruence|]. split; congruence.
Qed.

End page_count.




(** ** A chain that has returned *)

Section failure.

Variable entityName : string.
Variable pages : Q.
Variable chains : list string.
Hypothesis pages_positive : (1 <= pages)%Q.
Hypothesis chains_distinct : NoDup chains.

Local Abbreviation deliver := (Crawler.deliver entityName pages chains).
Local Abbreviation run_events := (Crawler.run_events entityName pages chains).

Lemma gone_launch (idx : nat) (chain item : string) (st : option chain_status)
    (t : orchestrator) :
  chains !! idx = Some chain ->
  gone idx chain st t -> chains !! Limiter.nextIndex t = Some item ->
  gone idx chain st (Limiter.launch (A:=unit) crawl_begin item t).
Proof.
  intros Hchain (Hi & Hnot & Hs) Hit. unfold gone. simpl.
  split; [lia|]. split.
  - intros Hx. apply elem_of_app in Hx as [Hx|Hx]; [done|].
    apply list_elem_of_singleton in Hx. lia.
  - rewrite write_status_other; [done|]. intros ->.
    pose proof (NoDup_lookup _ _ _ _ chains_distinct Hit Hchain). lia.
Qed.

(** The scheduler step that follows the return of a chain keeps the status
    lines of the chains that have returned, and [allResults]. *)
Lemma gone_settle (idx j : nat) (chain : string) (st : option chain_status)
    (s0 : orchestrator) :
  chains !! idx = Some chain ->
  idx < Limiter.nextIndex s0 ->
  (idx = j \/ (idx ∉ Limiter.running s0)) ->
  assoc chain (statuses (Limiter.world s0)) = st ->
  let s' := Limiter.settle crawl_begin chains 3 j tt s0 in
  gone idx chain st s' /\
  allResults (Limiter.world s') = allResults (Limiter.world s0) /\
  completedChains (Limiter.world s') = completedChains (Limiter.world s0).
Proof.
  intros Hchain Hlt Hrun Hst s'.
  apply (settle_preserves crawl_begin chains 3
           (fun t : orchestrator =>
              gone idx chain st t /\
              allResults (Limiter.world t) = allResults (Limiter.world s0) /\
              completedChains (Limiter.world t) = completedChains (Limiter.world s0))).
  - intros item t (Hg & Ha & Hc) Hit. split; [by apply gone_launch | done].
  - intros t Ht _. exact Ht.
  - split; [|done]. split; [done|]. split; [|done]. simpl.
    intros Hx. apply elem_of_remove in Hx as [Hx Hne].
    destruct Hrun as [->|Hrun]; done.
Qed.

Lemma failed_chain_settles (idx : nat) (chain reason : string) (s : orchestrator) :
  crawl_inv pages chains s -> idx ∈ Limiter.running s ->
  chains !! idx = Some chain ->
  let s0 := Limiter.mkState (Limiter.nextIndex s) (Limiter.running s)
              (Limiter.results s) (Limiter.racing s)
              (fail chain reason (Limiter.world s)) in
  let s' := Limiter.settle crawl_begin chains 3 idx tt s0 in
  assoc chain (statuses (Limiter.world s')) = Some (Failed reason) /\
  completedChains (Limiter.world s') = completedChains (Limiter.world s) + 1 /\
  allResults (Limiter.world s') = allResults (Limiter.world s) /\
  idx ∉ Limiter.running s'.
Proof.
  intros ((Hn & Hnd & Hlt & Hr) & Hlen & Hfr & Hpg & Hch & Hst) Hin Hchain s0 s'.
  destruct (gone_settle idx idx chain (Some (Failed reason)) s0 Hchain)
    as ((_ & Hnot & Hs) & Ha & Hc).
  - by apply Hlt.
  - by left.
  - simpl. apply write_status_lookup. rewrite Hst. by eapply list_elem_of_lookup_2.
  - done.
Qed.

(** What the arrival of a page does to [allResults], by how the turn of the
    loop ends: only a chain that returns normally appends, and what it
    appends is its map. *)
Lemma deliver_cases (idx : nat) (chain : string) (p : page) (s s' : orchestrator) :
  crawl_inv pages chains s ->
  chains !! idx = Some chain ->
  deliver idx p s = Some s' ->
  let i := fst (frame idx (Limiter.world s)) in
  let merged := snd (frame idx (Limiter.world s)) in
  match page_body entityName pages chain i merged p (Limiter.world s) with
  | Throw reason =>
      allResults (Limiter.world s') = allResults (Limiter.world s) /\
      gone idx chain (Some (Failed reason)) s'
  | Ok (c, m, _) =>
      if match c with Break => false | Next => Qltb (Qnat (S i)) pages end
      then
        allResults (Limiter.world s') = allResults (Limiter.world s) /\
        Limiter.running s' = Limiter.running s /\
        frame idx (Limiter.world s') = (S i, m)
      else
        allResults (Limiter.world s') = allResults (Limiter.world s) ++ values m /\
        gone idx chain (Some (Completed (length (values m)))) s'
  end.
Proof.
  intros Hinv Hchain. unfold deliver. rewrite Hchain.
  destruct (Limiter.mem idx (Limiter.running s)) eqn:Hmem; [|done].
  apply mem_elem_of in Hmem.
  destruct (crawl_step entityName pages chain idx p (Limiter.world s))
    as [w' done] eqn:Estep.
  pose proof Hinv as ((Hn & Hnd & Hlt & Hr) & Hlen & Hfr & Hpg & Hch & Hst).
  apply crawl_step_cases in Estep.
  intros E. injection E as <-. cbv zeta in *.
  assert (chain ∈ map fst (statuses (Limiter.world s))) as Hline.
  { rewrite Hst. by eapply list_elem_of_lookup_2. }
  destruct Estep as [(reason & E & -> & ->)|[(c & m & w1 & E & Hc & -> & ->)|
                                            (m & w1 & E & Hlt' & -> & ->)]].
  - rewrite E.
    destruct (gone_settle idx idx chain (Some (Failed reason))
                (Limiter.mkState (Limiter.nextIndex s) (Limiter.running s)
                   (Limiter.results s) (Limiter.racing s)
                   (fail chain reason (Limiter.world s))) Hchain)
      as (Hg & Ha & _); [by apply Hlt | by left | by apply write_status_lookup |].
    split; [exact Ha | exact Hg].
  - rewrite E. apply page_body_effect in E as (Hf & Hcc & Hres & Hs & _).
    assert (match c with Break => false | Next => Qltb (Qnat (S (frame idx (Limiter.world s)).1)) pages end
            = false) as ->.
    { destruct c; [done|]. destruct Hc as [Hc|Hc]; [done | by apply Qltb_ge]. }
    destruct (gone_settle idx idx chain (Some (Completed (length (values m))))
                (Limiter.mkState (Limiter.nextIndex s) (Limiter.running s)
                   (Limiter.results s) (Limiter.racing s) (finish chain m w1)) Hchain)
      as (Hg & Ha & _); [by apply Hlt | by left | |].
    { simpl. apply write_status_lookup. by rewrite Hs. }
    split; [|exact Hg]. rewrite Ha. simpl. by rewrite Hres.
  - rewrite E. apply page_body_effect in E as (Hf & Hcc & Hres & Hs & _).
    apply Qltb_lt in Hlt' as ->. simpl.
    split; [done|]. split; [done|].
    rewrite frame_set_frame; [by rewrite decide_True|].
    rewrite Hf, Hlen. apply Hlt in Hmem. lia.
Qed.

(** A page that arrives for another chain leaves the status line of a chain
    that has returned as it is. *)
Lemma gone_deliver (idx j : nat) (chain : string) (st : option chain_status)
    (p : page) (s s' : orchestrator) :
  crawl_inv pages chains s -> chains !! idx = Some chain ->
  gone idx chain st s -> deliver j p s = Some s' -> gone idx chain st s'.
Proof.
  intros Hinv Hchain (Hi & Hnot & Hs). unfold deliver.
  destruct (Limiter.mem j (Limiter.running s)) eqn:Hmem; [|done].
  apply mem_elem_of in Hmem.
  destruct (chains !! j) as [chain'|] eqn:Hchain'; [|done].
  destruct (crawl_step entityName pages chain' j p (Limiter.world s))
    as [w' done] eqn:Estep.
  assert (chain <> chain') as Hne.
  { intros ->. pose proof (NoDup_lookup _ _ _ _ chains_distinct Hchain Hchain').
    by subst. }
  pose proof (crawl_step_status_other _ _ _ chain _ _ _ _ _ Estep Hne) as Hsame.
  intros E. injection E as <-. destruct done.
  - destruct (gone_settle idx j chain st
                (Limiter.mkState (Limiter.nextIndex s) (Limiter.running s)
                   (Limiter.results s) (Limiter.racing s) w') Hchain)
      as (Hg & _); [done | by right | by rewrite <- Hs |]. exact Hg.
  - split; [done|]. split; [done|]. simpl. by rewrite <- Hs.
Qed.

Lemma gone_run (idx : nat) (chain : string) (st : option chain_status)
    (evs : list (nat * page)) :
  forall s s', crawl_inv pages chains s -> chains !! idx = Some chain ->
    gone idx chain st s -> run_events evs s = Some s' ->
    gone idx chain st s' /\ Forall (fun e => fst e <> idx) evs.
Proof.
  induction evs as [|[j p] evs IH]; intros s s' Hinv Hchain Hg; simpl.
  - intros E. injection E as <-. split; [done | constructor].
  - destruct (deliver j p s) as [s1|] eqn:Ed; [|done].
    intros E.
    destruct (IH s1 s') as [Hg' Hall]; try done.
    + by eapply (crawl_inv_deliver entityName).
    + by eapply gone_deliver.
    + split; [done|]. constructor; [|done]. simpl. intros ->.
      destruct Hg as (_ & Hnot & _). unfold deliver in Ed.
      destruct (Limiter.mem idx (Limiter.running s)) eqn:Hmem; [|done].
      by apply mem_elem_of in Hmem.
Qed.

(** No page that arrived for a chain whose status line reads a failure at
    the end of the run has changed [allResults]. *)
Lemma failed_chain_never_appends (evs : list (nat * page)) (idx : nat)
    (chain reason : string) (p : page) (s1 s2 s : orchestrator) :
  crawl_inv pages chains s1 ->
  deliver idx p s1 = Some s2 ->
  run_events evs s2 = Some s ->
  chains !! idx = Some chain ->
  assoc chain (statuses (Limiter.world s)) = Some (Failed reason) ->
  allResults (Limiter.world s2) = allResults (Limiter.world s1).
Proof.
  intros Hinv Hd Hrun Hchain Hfinal.
  pose proof (deliver_cases idx chain p s1 s2 Hinv Hchain Hd) as H. cbv zeta in H.
  pose proof (crawl_inv_deliver entityName pages chains pages_positive idx p s1 s2 Hinv Hd)
    as Hinv2.
  destruct (page_body entityName pages chain _ _ p (Limiter.world s1))
    as [[[c m] w1]|reason']; [|by destruct H].
  destruct (match c with Break => false | Next => _ end); [by destruct H|].
  destruct H as [_ Hg].
  destruct (gone_run idx chain _ evs s2 s Hinv2 Hchain Hg Hrun) as [(_ & _ & Hs) _].
  rewrite Hs in Hfinal. discriminate Hfinal.
Qed.

(** After the page on which a chain has failed, no page arrives for the
    chain and its status line keeps the reason. *)
Lemma failed_chain_stays_failed (evs : list (nat * page)) (idx : nat)
    (chain reason : string) (p : page) (s1 s2 s : orchestrator) :
  crawl_inv pages chains s1 ->
  chains !! idx = Some chain ->
  page_body entityName pages chain (fst (frame idx (Limiter.world s1)))
    (snd (frame idx (Limiter.world s1))) p (Limiter.world s1) = Throw reason ->
  deliver idx p s1 = Some s2 ->
  run_events evs s2 = Some s ->
  assoc chain (statuses (Limiter.world s)) = Some (Failed reason) /\
  Forall (fun e => fst e <> idx) evs.
Proof.
  intros Hinv Hchain Hthrow Hd Hrun.
  pose proof (deliver_cases idx chain p s1 s2 Hinv Hchain Hd) as H. cbv zeta in H.
  rewrite Hthrow in H. destruct H as [_ Hg].
  pose proof (crawl_inv_deliver entityName pages chains pages_positive idx p s1 s2 Hinv Hd)
    as Hinv2.
  destruct (gone_run idx chain _ evs s2 s Hinv2 Hchain Hg Hrun) as [(_ & _ & Hs) Hall].
  done.
Qed.

End failure.

(** C1 (amended): an exception at any page of a chain is caught inside
    [crawlOneChain]: the call returns, the chain's status line carries the
    reason, [completedChains] is incremented and [allResults] is left as it
    is; for the rest of the run no page arrives for the chain and its status
    line keeps the reason; no page that arrived for a chain whose status
    line reads a failure at the end of the run has added a row to
    [allResults], whatever rows the chain's map gathered from it; once no
    chain is running, [completedChains] equals the number of chains. *)
Theorem failed_chain_is_isolated_and_adds_no_rows
    (entityName : string) (pages : Q) (chains : list string) :
  (1 <= pages)%Q -> NoDup chains ->
  (forall (s : orchestrator) (idx : nat) (chain : string) (p : page) (reason : string),
     reachable entityName pages chains s ->
     Limiter.mem idx (Limiter.running s) = true ->
     chains !! idx = Some chain ->
     page_body entityName pages chain (fst (frame idx (Limiter.world s)))
       (snd (frame idx (Limiter.world s))) p (Limiter.world s) = Throw reason ->
     crawl_step entityName pages chain idx p (Limiter.world s)
       = (fail chain reason (Limiter.world s), true) /\
     exists s', deliver entityName pages chains idx p s = Some s' /\
       assoc chain (statuses (Limiter.world s')) = Some (Failed reason) /\
       completedChains (Limiter.world s') = completedChains (Limiter.world s) + 1 /\
       allResults (Limiter.world s') = allResults (Limiter.world s) /\
       Limiter.mem idx (Limiter.running s') = false) /\
  (forall (s1 s2 s : orchestrator) (idx : nat) (chain : string) (p : page)
          (reason : string) (after : list (nat * page)),
     reachable entityName pages chains s1 ->
     chains !! idx = Some chain ->
     page_body entityName pages chain (fst (frame idx (Limiter.world s1)))
       (snd (frame idx (Limiter.world s1))) p (Limiter.world s1) = Throw reason ->
     deliver entityName pages chains idx p s1 = Some s2 ->
     run_events entityName pages chains after s2 = Some s ->
     assoc chain (statuses (Limiter.world s)) = Some (Failed reason) /\
     Forall (fun e => fst e <> idx) after) /\
  (forall (before after : list (nat * page)) (idx : nat) (chain reason : string)
          (p : page) (s1 s2 s : orchestrator),
     run_events entityName pages chains before (run_begin chains) = Some s1 ->
     deliver entityName pages chains idx p s1 = Some s2 ->
     run_events entityName pages chains after s2 = Some s ->
     chains !! idx = Some chain ->
     assoc chain (statuses (Limiter.world s)) = Some (Failed reason) ->
     allResults (Limiter.world s2) = allResults (Limiter.world s1)) /\
  (forall s : orchestrator,
     reachable entityName pages chains s ->
     Limiter.running s = [] ->
     completedChains (Limiter.world s) = length chains).
Proof.
  intros Hpages Hnd. split; [|split; [|split]].
  2:{ intros s1 s2 s idx chain p reason after Hs Hchain Hthrow Hd Hrun.
      destruct (reachable_inv entityName pages chains Hpages s1 Hs) as [Hinv _].
      by apply (failed_chain_stays_failed entityName pages chains Hpages Hnd
                  after idx chain reason p s1 s2 s). }
  - intros s idx chain p reason Hs Hmem Hchain Hthrow.
    destruct (reachable_inv entityName pages chains Hpages s Hs) as [Hinv _].
    assert (crawl_step entityName pages chain idx p (Limiter.world s)
            = (fail chain reason (Limiter.world s), true)) as Estep.
    { unfold crawl_step. destruct (frame idx (Limiter.world s)) as [i merged].
      simpl in Hthrow. by rewrite Hthrow. }
    split; [exact Estep|].
    unfold deliver. rewrite Hmem, Hchain, Estep.
    eexists. split; [reflexivity|].
    apply mem_elem_of in Hmem.
    destruct (failed_chain_settles pages chains Hnd idx chain reason s Hinv Hmem Hchain)
      as (H1 & H2 & H3 & H4).
    repeat split; try done.
    destruct (Limiter.mem idx _) eqn:E; [|done]. by apply mem_elem_of in E.
  - intros before after idx chain reason p s1 s2 s Hb Hd Ha Hchain Hfinal.
    destruct (reachable_inv entityName pages chains Hpages s1) as [Hinv _];
      [by exists before|].
    by apply (failed_chain_never_appends entityName pages chains Hpages Hnd
                after idx chain reason p s1 s2 s).
  - intros s Hs Hidle.
    destruct (reachable_inv entityName pages chains Hpages s Hs)
      as [(Hsched & _ & _ & _ & Hch & _) Haw].
    rewrite <- (all_started_when_idle chains s Hsched Haw Hidle).
    rewrite Hidle in Hch. simpl in Hch. lia.
Qed.

(** ** CSV export *)

Section csv.

Import Csv.

Lemma append_cons (c : ascii) (a b : string) :
  String c a +:+ b = String c (a +:+ b).
Proof. reflexivity. Qed.

Lemma append_nil_l (b : string) : EmptyString +:+ b = b.
Proof. reflexivity. Qed.

Ltac push_append := rewrite ?append_cons, ?append_nil_l.

Lemma append_assoc (a b c : string) : (a +:+ b) +:+ c = a +:+ (b +:+ c).
Proof. induction a as [|x a IH]; push_append; [done | by f_equal]. Qed.

Lemma append_nil_r (a : string) : a +:+ EmptyString = a.
Proof. induction a as [|x a IH]; push_append; [done | by f_equal]. Qed.

Lemma snoc_append (cur : string) (c : ascii) (f : string) :
  snoc cur c +:+ f = cur +:+ String c f.
Proof. unfold snoc. by rewrite append_assoc. Qed.

Lemma parse_bare_field (f : string) :
  forall cur rec rest, has_special f = false ->
    parse_from Bare cur rec (f +:+ rest) = parse_from Bare (cur +:+ f) rec rest.
Proof.
  induction f as [|c f IH]; intros cur rec rest H; push_append.
  - by rewrite append_nil_r.
  - simpl in H. apply orb_false_iff in H as [Hc Hf].
    unfold special in Hc. apply orb_false_iff in Hc as [Hc Hn].
    apply orb_false_iff in Hc as [Hq Hc]. simpl. rewrite Hc, Hn, Hq.
    rewrite IH by done. by rewrite snoc_append.
Qed.

Lemma parse_quoted_field (f : string) :
  forall cur rec rest,
    parse_from Quoted cur rec (double_quotes f +:+ String dquote rest)
    = parse_from QuoteSeen (cur +:+ f) rec rest.
Proof.
  induction f as [|c f IH]; intros cur rec rest; simpl; push_append.
  - simpl. by rewrite append_nil_r.
  - destruct (Ascii.eqb c dquote) eqn:E; push_append; simpl.
    + apply Ascii.eqb_eq in E as ->. rewrite IH. by rewrite snoc_append.
    + rewrite E, IH. by rewrite snoc_append.
Qed.

Lemma parse_field (f : string) (rec : list string) (rest : string) :
  exists st, closing st /\
    parse_from Bare EmptyString rec (encode_field f +:+ rest) = parse_from st f rec rest.
Proof.
  unfold encode_field. destruct (has_special f) eqn:E.
  - exists QuoteSeen. split; [by right|]. push_append. simpl.
    rewrite append_assoc. push_append. by rewrite parse_quoted_field.
  - exists Bare. split; [by left|]. by rewrite parse_bare_field.
Qed.

Lemma parse_comma (st : pstate) (cur : string) (rec : list string) (rest : string) :
  closing st ->
  parse_from st cur rec (String comma rest) = parse_from Bare EmptyString (rec ++ [cur]) rest.
Proof. by intros [-> | ->]. Qed.

Lemma parse_newline (st : pstate) (cur : string) (rec : list string) (rest : string) :
  closing st ->
  parse_from st cur rec (String newline rest)
  = (rec ++ [cur]) :: parse_from Bare EmptyString [] rest.
Proof. by intros [-> | ->]. Qed.

Lemma parse_end (st : pstate) (cur : string) (rec : list string) :
  parse_from st cur rec EmptyString = [rec ++ [cur]].
Proof. done. Qed.

Lemma parse_line (fs : list string) :
  forall f rec,
    parse_from Bare EmptyString rec (line (f :: fs)) = [rec ++ f :: fs] /\
    forall more,
      parse_from Bare EmptyString rec (line (f :: fs) +:+ String newline more)
      = (rec ++ f :: fs) :: parse_from Bare EmptyString [] more.
Proof.
  induction fs as [|g fs IH]; intros f rec.
  - unfold line. simpl. split.
    + destruct (parse_field f rec EmptyString) as (st & Hst & E).
      rewrite append_nil_r in E. by rewrite E, parse_end.
    + intros more. destruct (parse_field f rec (String newline more)) as (st & Hst & E).
      by rewrite E, parse_newline.
  - assert (line (f :: g :: fs) = encode_field f +:+ String comma (line (g :: fs))) as ->
      by done.
    destruct (IH g (rec ++ [f])) as [IH1 IH2]. split.
    + destruct (parse_field f rec (String comma (line (g :: fs)))) as (st & Hst & E).
      rewrite E, parse_comma by done. rewrite IH1. by rewrite <- app_assoc.
    + intros more. rewrite append_assoc. push_append.
      destruct (parse_field f rec (String comma (line (g :: fs) +:+ String newline more)))
        as (st & Hst & E).
      rewrite E, parse_comma by done. rewrite IH2. by rewrite <- app_assoc.
Qed.

Lemma parse_lines (recs : list (list string)) :
  Forall (fun fs => fs <> []) recs -> recs <> [] ->
  parse_from Bare EmptyString [] (join (String newline EmptyString) (map line recs)) = recs.
Proof.
  induction recs as [|fs recs IH]; intros Hall Hne; [done|].
  inversion Hall as [|? ? Hfs Hall']; subst.
  destruct fs as [|f fs]; [done|].
  destruct recs as [|gs recs].
  - simpl. by destruct (parse_line fs f []) as [-> _].
  - assert (join (String newline EmptyString) (map line ((f :: fs) :: gs :: recs))
            = line (f :: fs) +:+ String newline
                (join (String newline EmptyString) (map line (gs :: recs)))) as -> by done.
    destruct (parse_line fs f []) as [_ ->]. rewrite IH by done. done.
Qed.

End csv.

Lemma lines_of_cells (rows : list Row) :
  Csv.lines_of rows = let* fss := all_cells rows in Ok (map line fss).
Proof.
  induction rows as [|r rows IH]; simpl; [done|].
  destruct (Csv.cells r) as [fs|]; simpl; [|done].
  rewrite IH. by destruct (all_cells rows).
Qed.

Lemma all_cells_shape (rows : list Row) (fss : list (list string)) :
  all_cells rows = Ok fss ->
  Forall (fun fs => fs <> []) fss /\ length fss = length rows.
Proof.
  revert fss. induction rows as [|r rows IH]; simpl; intros fss.
  - intros H. injection H as <-. split; [constructor | done].
  - destruct (Csv.cells r) as [fs|] eqn:Er; simpl; [|done].
    destruct (all_cells rows) as [fss'|]; simpl; [|done].
    intros H. injection H as <-. destruct (IH fss' eq_refl) as [Hall Hlen].
    split; [|simpl; by rewrite Hlen]. constructor; [|done].
    unfold Csv.cells in Er.
    destruct (ToString (chain r)); simpl in Er; [|done].
    destruct (ToString (address r)); simpl in Er; [|done].
    destruct (ToString (label r)); simpl in Er; [|done].
    by injection Er as <-.
Qed.

(** Reading back what [toCSV] writes gives the header and the cells of the
    rows. *)
Lemma parse_toCSV (rows : list Row) (fss : list (list string)) :
  all_cells rows = Ok fss ->
  exists text, Csv.toCSV rows = Ok text /\
    Csv.parse_csv_reference text = Csv.header :: fss.
Proof.
  intros Hc. unfold Csv.toCSV. rewrite lines_of_cells, Hc. cbn [bind].
  eexists. split; [reflexivity|].
  unfold Csv.parse_csv_reference.
  assert (join "," Csv.header = line Csv.header) as -> by reflexivity.
  change (line Csv.header :: map line fss) with (map line (Csv.header :: fss)).
  apply parse_lines; [|done].
  constructor; [done|]. by apply all_cells_shape in Hc as [Hc _].
Qed.

Lemma toCSV_throws (rows : list Row) (msg : string) :
  all_cells rows = Throw msg -> Csv.toCSV rows = Throw msg.
Proof. intros Hc. unfold Csv.toCSV. by rewrite lines_of_cells, Hc. Qed.

Lemma cells_printable (r : Row) :
  printable (chain r) -> printable (address r) -> printable (label r) ->
  exists fs, Csv.cells r = Ok fs.
Proof.
  intros [c Hc] [a Ha] [l Hl]. unfold Csv.cells. rewrite Hc, Ha, Hl. simpl. by eexists.
Qed.



(** ** The numeric inputs *)

Lemma clamp_between (lo hi d : Q) (v : Num.number) :
  (lo <= hi)%Q -> (lo <= d <= hi)%Q ->
  exists q, Num.Math_max (Num.Fin lo) (Num.Math_min (Num.Fin hi) (Num.or_else v (Num.Fin d)))
            = Num.Fin q /\ (lo <= q <= hi)%Q.
Proof.
  intros Hlh [Hld Hdh].
  pose proof Hlh as Hb. apply Qle_bool_iff in Hb.
  assert (forall x, exists q,
            Num.Math_max (Num.Fin lo) (Num.Math_min (Num.Fin hi) (Num.Fin x)) = Num.Fin q
            /\ (lo <= q <= hi)%Q) as Hfin.
  { intros x. simpl. destruct (Qle_bool hi x) eqn:E1; simpl.
    - rewrite Hb. exists hi. split; [done|].
      split; [done | apply Qle_refl].
    - assert (x < hi)%Q as Hx.
      { apply Qnot_le_lt. intros H. apply Qle_bool_iff in H. congruence. }
      destruct (Qle_bool lo x) eqn:E2.
      + apply Qle_bool_iff in E2. exists x. split; [done|].
        split; [done | by apply Qlt_le_weak].
      + exists lo. split; [done|]. split; [apply Qle_refl | done]. }
  unfold Num.or_else. destruct v as [| | |q]; simpl Num.falsy; cbv iota.
  - apply Hfin.
  - simpl. rewrite Hb. exists hi. split; [done|].
    split; [done | apply Qle_refl].
  - simpl. exists lo. split; [done|]. split; [apply Qle_refl | done].
  - destruct (Qeq_bool q 0); apply Hfin.
Qed.

(** An input within the bounds is kept, one outside goes to the nearer
    bound. *)
Lemma clamp_fin (lo hi x : Q) :
  (lo <= hi)%Q ->
  exists q, Num.Math_max (Num.Fin lo) (Num.Math_min (Num.Fin hi) (Num.Fin x)) = Num.Fin q /\
    ((lo <= x <= hi)%Q -> (q == x)%Q) /\
    ((x < lo)%Q -> q = lo) /\
    ((hi < x)%Q -> q = hi).
Proof.
  intros Hlh. pose proof Hlh as Hb. apply Qle_bool_iff in Hb. simpl.
  destruct (Qle_bool hi x) eqn:E1.
  - apply Qle_bool_iff in E1. simpl. rewrite Hb. exists hi.
    split; [done|]. split; [|split]; [lra | lra | done].
  - assert (x < hi)%Q as Hx.
    { apply Qnot_le_lt. intros H. apply Qle_bool_iff in H. congruence. }
    simpl. destruct (Qle_bool lo x) eqn:E2.
    + apply Qle_bool_iff in E2. exists x.
      split; [done|]. split; [|split]; [lra | lra | lra].
    + assert (x < lo)%Q as Hx'.
      { apply Qnot_le_lt. intros H. apply Qle_bool_iff in H. congruence. }
      exists lo. split; [done|]. split; [|split]; [lra | done | lra].
Qed.

Lemma or_else_fin (q d : Q) :
  ~ (q == 0)%Q -> Num.or_else (Num.Fin q) (Num.Fin d) = Num.Fin q.
Proof.
  intros Hq. unfold Num.or_else. simpl.
  destruct (Qeq_bool q 0) eqn:E; [|done]. by apply Qeq_bool_iff in E.
Qed.

Lemma or_else_zero (q d : Q) :
  (q == 0)%Q -> Num.or_else (Num.Fin q) (Num.Fin d) = Num.Fin d.
Proof.
  intros Hq. unfold Num.or_else. simpl. apply Qeq_bool_iff in Hq. by rewrite Hq.
Qed.



(** ** Transport *)

Section transport_facts.

Import Transport.

Lemma params_get_set (name value : string) (ps : list (string * string)) :
  params_get name (params_set name value ps) = Some value.
Proof.
  unfold params_get. induction ps as [|[n v] ps IH]; simpl.
  - by rewrite String.eqb_refl.
  - destruct (String.eqb n name) eqn:E; simpl.
    + rewrite String.eqb_sym. by rewrite E.
    + rewrite String.eqb_sym. by rewrite E.
Qed.

Lemma assoc_put_same (combine : string -> string -> string) (name value : string)
    (h : Headers) :
  (forall old, combine old value = value) ->
  assoc name (Headers_put combine name value h) = Some value.
Proof.
  intros Hc. induction h as [|[n v] h IH]; simpl.
  - by rewrite String.eqb_refl.
  - destruct (String.eqb n name) eqn:E; simpl.
    + rewrite String.eqb_sym, E. by rewrite Hc.
    + rewrite String.eqb_sym, E. done.
Qed.

Lemma assoc_put_other (combine : string -> string -> string)
    (name other value : string) (h : Headers) :
  other <> name ->
  assoc other (Headers_put combine name value h) = assoc other h.
Proof.
  intros Hne. induction h as [|[n v] h IH]; simpl.
  - by apply String.eqb_neq in Hne as ->.
  - destruct (String.eqb n name) eqn:E; simpl.
    + apply String.eqb_eq in E as ->. by apply String.eqb_neq in Hne as ->.
    + by rewrite IH.
Qed.

Lemma assoc_delete (name : string) (h : Headers) :
  assoc (lower name) (Headers_delete name h) = None.
Proof.
  unfold Headers_delete. induction h as [|[n v] h IH]; simpl; [done|].
  destruct (String.eqb n (lower name)) eqn:E; simpl; [done|].
  rewrite String.eqb_sym, E. done.
Qed.

Lemma forward_options_moves_key (o : options) (key : string) :
  Headers_get "API-Key" (copy_headers o) = Some key -> key <> EmptyString ->
  exists h, headers (forward_options o) = HeadersObject h /\
    Headers_get "X-API-Key" h = Some key /\ Headers_get "API-Key" h = None.
Proof.
  intros Hget Hne. unfold forward_options. rewrite Hget.
  apply String.eqb_neq in Hne as ->. simpl. eexists. split; [done|]. split.
  - unfold Headers_get, Headers_set. by apply assoc_put_same.
  - unfold Headers_get, Headers_set. rewrite assoc_put_other by done.
    apply (assoc_delete "API-Key").
Qed.

End transport_facts.


(** ** The properties at sample inputs *)


Lemma page_appends_exactly_new_rows_witness :
  let w := Limiter.world (run_begin ["bitcoin"]) in
  let merged' := Sample.one_known_row ++ [("0xabc@ethereum", Sample.acme_eth_row)] in
  let w' := add_pages 1 (setChainStatus "bitcoin" (InProgress 1 2)
              (appendResults [Sample.acme_eth_row] w)) in
  appended w' = appended w ++ [added_rows Sample.one_known_row merged'] /\
  length (added_rows Sample.one_known_row merged') = 1.
Proof.
  intros w merged' w'.
  apply (page_appends_exactly_new_rows "Acme" 3 "bitcoin" 0 Sample.one_known_row merged'
           (Sample.page_of [Sample.tx_from Sample.acme_btc; Sample.tx_from Sample.acme_eth])
           w w').
  - reflexivity.
  - simpl. lia.
Defined.

Lemma sample_reachable :
  reachable "Acme" 2 Sample.two_chains Sample.after_btc_page.
Proof. exists [(0, Sample.btc_page)]. reflexivity. Defined.

Lemma two_chains_distinct : NoDup Sample.two_chains.
Proof.
  apply NoDup_cons. split.
  - intros H. apply list_elem_of_singleton in H. discriminate H.
  - apply NoDup_singleton.
Defined.

Lemma failed_chain_is_isolated_and_adds_no_rows_witness :
  (exists s',
     deliver "Acme" 2 Sample.two_chains 0 (PageFailed "timeout") Sample.after_btc_page
       = Some s' /\
     assoc "bitcoin" (statuses (Limiter.world s')) = Some (Failed "timeout") /\
     completedChains (Limiter.world s')
       = completedChains (Limiter.world Sample.after_btc_page) + 1 /\
     allResults (Limiter.world s') = allResults (Limiter.world Sample.after_btc_page) /\
     Limiter.mem 0 (Limiter.running s') = false) /\
  allResults (Limiter.world Sample.after_btc_page)
    = allResults (Limiter.world (run_begin Sample.two_chains)).
Proof.
  assert (1 <= 2)%Q as Hpages by discriminate.
  destruct (failed_chain_is_isolated_and_adds_no_rows "Acme" 2 Sample.two_chains
              Hpages two_chains_distinct) as (H1 & _ & H2 & _).
  split.
  - exact (proj2 (H1 Sample.after_btc_page 0 "bitcoin" (PageFailed "timeout") "timeout"
                    sample_reachable eq_refl eq_refl eq_refl)).
  - apply (H2 [] [(0, PageFailed "timeout"); (1, Sample.page_of [])] 0 "bitcoin" "timeout"
              Sample.btc_page (run_begin Sample.two_chains) Sample.after_btc_page
              Sample2.after_failure_run); vm_compute; reflexivity.
Defined.

(** C1, as stated, at a sample run: bitcoin holds one row in its map after
    page 0 and fails on page 1; when every chain has returned the row is not
    in [allResults]. *)
Lemma failed_chain_drops_its_rows :
  values (snd (frame 0 (Limiter.world Sample.after_btc_page)))
    = [Sample.acme_btc_row] /\
  exists s,
    run_events "Acme" 2 Sample.two_chains Sample.failure_run (run_begin Sample.two_chains)
      = Some s /\
    Limiter.running s = [] /\
    completedChains (Limiter.world s) = 2 /\
    assoc "bitcoin" (statuses (Limiter.world s)) = Some (Failed "timeout") /\
    allResults (Limiter.world s) = [] /\
    ~ In Sample.acme_btc_row (allResults (Limiter.world s)).
Proof.
  split; [vm_compute; reflexivity|].
  eexists. split; [vm_compute; reflexivity|].
  cbv beta iota delta [Limiter.running Limiter.world completedChains statuses allResults].
  split; [reflexivity|]. split; [reflexivity|]. split; [vm_compute; reflexivity|].
  split; [reflexivity|]. intros H. exact H.
Qed.

(** C2 at the chains of the application and at any five or more items: with
    the limit 3, five tasks are running before any has settled, and thirteen
    once four have. *)
Theorem limit_three_is_exceeded :
  Limiter.running (run_begin Sample.CHAINS) = [0; 1; 2; 3; 4] /\
  (forall (I A W : Type) (task : I -> nat -> W -> W) (a b c d e : I) (rest : list I) (w : W),
     length (Limiter.running (Limiter.begin (A:=A) task (a :: b :: c :: d :: e :: rest) 3 w)) = 5) /\
  (exists s,
     run_events "Acme" 3 Sample.CHAINS (Sample.failing [0; 1; 2; 3]) (run_begin Sample.CHAINS)
       = Some s /\
     length (Limiter.running s) = 13).
Proof.
  split; [vm_compute; reflexivity|].
  split; [intros; vm_compute; reflexivity|].
  eexists. split; vm_compute; reflexivity.
Qed.

(** C7 at two items with the limit 2, at one item with the limit 3, and at
    the chains of the application: the scheduler returns when the first task
    settles (at once for a single item; when the sixth chain has returned
    for the eighteen chains) and the slots of the tasks that are still
    running are empty. *)
Theorem returns_before_every_slot_is_written :
  (forall (I A W : Type) (task : I -> nat -> W -> W) (a b : I) (r : A) (w : W),
     let s0 := Limiter.begin (A:=A) task [a; b] 2 w in
     let s1 := Limiter.settle task [a; b] 2 0 r s0 in
     Limiter.returned s0 = false /\
     Limiter.returned s1 = true /\
     Limiter.results s1 = [Some r; None] /\
     Limiter.running s1 = [1]) /\
  (forall (I A W : Type) (task : I -> nat -> W -> W) (a : I) (w : W),
     let s0 := Limiter.begin (A:=A) task [a] 3 w in
     Limiter.returned s0 = true /\ Limiter.results s0 = [None] /\ Limiter.running s0 = [0]) /\
  (exists s,
     run_events "Acme" 3 Sample.CHAINS (Sample.failing [0; 1; 2; 3; 4; 5])
       (run_begin Sample.CHAINS) = Some s /\
     Limiter.returned s = true /\
     Limiter.results s = replicate 6 (Some tt) ++ replicate 12 None /\
     Limiter.running s = [6; 7; 8; 9; 10; 11; 12; 13; 14; 15; 16; 17] /\
     completedChains (Limiter.world s) = 6).
Proof.
  split; [|split].
  - intros; repeat split; vm_compute; reflexivity.
  - intros; repeat split; vm_compute; reflexivity.
  - eexists. split; [vm_compute; reflexivity|].
    cbv beta iota delta [Limiter.returned Limiter.racing Limiter.results Limiter.running
                         Limiter.world completedChains].
    repeat split.
Qed.

(** * Further properties *)

(** ** The forwarding URL *)

Section forwarding_url.

Import Transport.

Lemma params_set_others (name value : string) (ps : list (string * string)) :
  List.filter (fun p => negb (String.eqb (fst p) name)) (params_set name value ps)
  = List.filter (fun p => negb (String.eqb (fst p) name)) ps.
Proof.
  induction ps as [|[n v] ps IH]; simpl.
  - by rewrite String.eqb_refl.
  - destruct (String.eqb n name) eqn:E; simpl; rewrite E; simpl.
    + clear IH. induction ps as [|[n' v'] ps IH]; simpl; [done|].
      destruct (String.eqb n' name) eqn:E'; simpl; [done|]. rewrite E'. simpl.
      by f_equal.
    + by f_equal.
Qed.

Lemma params_set_once (name value : string) (ps : list (string * string)) :
  List.filter (fun p => String.eqb (fst p) name) (params_set name value ps)
  = [(name, value)].
Proof.
  induction ps as [|[n v] ps IH]; simpl.
  - by rewrite String.eqb_refl.
  - destruct (String.eqb n name) eqn:E; simpl; rewrite E.
    + apply String.eqb_eq in E as ->. f_equal.
      clear IH. induction ps as [|[n' v'] ps IH]; simpl; [done|].
      destruct (String.eqb n' name) eqn:E'; simpl; [done|]. by rewrite E'.
    + done.
Qed.

End forwarding_url.

(** X1: [buildProxyUrl] gives nothing for a base that is not a URL; for a
    base that is one it keeps the base and its other query parameters, in
    order, and leaves exactly one [url] parameter, holding the target, also
    when the base came with [url] parameters of its own. *)
Theorem buildProxyUrl_sets_one_url_parameter
    (URL_parse : string -> option Transport.url) (proxyBase target : string) :
  (URL_parse proxyBase = None ->
     Transport.buildProxyUrl URL_parse proxyBase target = None) /\
  (forall base, URL_parse proxyBase = Some base ->
     exists u,
       Transport.buildProxyUrl URL_parse proxyBase target = Some u /\
       Transport.origin_path u = Transport.origin_path base /\
       Transport.hash u = Transport.hash base /\
       Transport.params_get "url" (Transport.searchParams u) = Some target /\
       List.filter (fun p => String.eqb (fst p) "url") (Transport.searchParams u)
         = [("url", target)] /\
       List.filter (fun p => negb (String.eqb (fst p) "url")) (Transport.searchParams u)
         = List.filter (fun p => negb (String.eqb (fst p) "url"))
             (Transport.searchParams base)).
Proof.
  unfold Transport.buildProxyUrl. split.
  - by intros ->.
  - intros base ->. eexists. split; [done|]. simpl.
    split; [done|]. split; [done|]. split; [apply params_get_set|].
    split; [apply params_set_once | apply params_set_others].
Qed.

Lemma buildProxyUrl_sets_one_url_parameter_witness :
  Transport.buildProxyUrl Sample.parse_worker_only "not a url" "https://api.arkm.com/health"
    = None /\
  exists u,
    Transport.buildProxyUrl Sample.parse_worker_only Sample.worker_base
      "https://api.arkm.com/health" = Some u /\
    Transport.params_get "url" (Transport.searchParams u)
      = Some "https://api.arkm.com/health".
Proof.
  destruct (buildProxyUrl_sets_one_url_parameter Sample.parse_worker_only
              "not a url" "https://api.arkm.com/health") as [H1 _].
  destruct (buildProxyUrl_sets_one_url_parameter Sample.parse_worker_only
              Sample.worker_base "https://api.arkm.com/health") as [_ H2].
  split; [exact (H1 eq_refl)|].
  destruct (H2 (Transport.mkUrl Sample.worker_base [] EmptyString) eq_refl)
    as (u & E & _ & _ & Hu & _).
  exists u. split; [exact E | exact Hu].
Defined.

(** ** The worker *)

Section worker_facts.

Import Transport.

Variable origin : Worker.call -> result Worker.origin_response.

Lemma handle_forwards (req : Worker.request) (t : string) :
  Worker.method req <> "OPTIONS" ->
  params_get "url" (searchParams (Worker.url_of req)) = Some t ->
  t <> EmptyString ->
  exists hs,
    fst (Worker.handle origin req) = [Worker.mkCall t "GET" hs] /\
    hs = match Headers_get "X-API-Key" (Worker.headers_of req) with
         | Some k => if negb (String.eqb k EmptyString) then [("api-key", k)] else []
         | None => []
         end /\
    snd (Worker.handle origin req) =
      match origin (Worker.mkCall t "GET" hs) with
      | Throw err => Throw err
      | Ok resp =>
          Worker.new_Response (Some (Worker.origin_body resp)) (Worker.origin_status resp)
            (Worker.cors ++
             [("Content-Type",
               match Worker.origin_content_type resp with
               | Some c => if String.eqb c EmptyString then "text/plain; charset=utf-8" else c
               | None => "text/plain; charset=utf-8"
               end)])
      end.
Proof.
  intros Hm Ht Hne. unfold Worker.handle.
  apply String.eqb_neq in Hm as ->. rewrite Ht.
  apply String.eqb_neq in Hne as ->.
  eexists. split; [|split; [reflexivity|]].
  - destruct (Headers_get "X-API-Key" (Worker.headers_of req)) as [k|];
      [destruct (negb (String.eqb k EmptyString))|];
      by destruct (origin _).
  - destruct (Headers_get "X-API-Key" (Worker.headers_of req)) as [k|];
      [destruct (negb (String.eqb k EmptyString))|];
      by destruct (origin _).
Qed.

End worker_facts.



(** X3: for a request that is not a preflight and names a target, the
    worker answers with the origin's status and body and the permissive CORS
    headers whenever the status lies in 200..599 and admits a body; on the
    statuses 204, 205 and 304 building the answer throws; a failure of the
    origin call is not caught. *)
Theorem worker_relays_status_and_body
    (origin : Worker.call -> result Worker.origin_response)
    (req : Worker.request) (t : string) :
  Worker.method req <> "OPTIONS" ->
  Transport.params_get "url" (Transport.searchParams (Worker.url_of req)) = Some t ->
  t <> EmptyString ->
  exists c, fst (Worker.handle origin req) = [c] /\ Worker.call_target c = t /\
    (forall resp, origin c = Ok resp ->
       200 <= Worker.origin_status resp <= 599 ->
       Worker.null_body_status (Worker.origin_status resp) = false ->
       exists r, snd (Worker.handle origin req) = Ok r /\
         Worker.reply_status r = Worker.origin_status resp /\
         Worker.reply_body r = Some (Worker.origin_body resp) /\
         assoc "Access-Control-Allow-Origin" (Worker.reply_headers r) = Some "*" /\
         exists ct, assoc "Content-Type" (Worker.reply_headers r) = Some ct /\
           ct <> EmptyString /\
           (forall x, Worker.origin_content_type resp = Some x -> x <> EmptyString -> ct = x)) /\
    (forall resp, origin c = Ok resp ->
       Worker.null_body_status (Worker.origin_status resp) = true ->
       exists msg, snd (Worker.handle origin req) = Throw msg) /\
    (forall err, origin c = Throw err -> snd (Worker.handle origin req) = Throw err).
Proof.
  intros Hm Ht Hne.
  destruct (handle_forwards origin req t Hm Ht Hne) as (hs & Hc & _ & Hr).
  eexists. split; [exact Hc|]. split; [done|]. rewrite Hr. split; [|split].
  - intros resp -> [Hlo Hhi] Hnull. unfold Worker.new_Response. rewrite Hnull.
    apply Nat.leb_le in Hlo as ->. apply Nat.leb_le in Hhi as ->. simpl.
    eexists. split; [reflexivity|]. simpl. repeat split.
    destruct (Worker.origin_content_type resp) as [x|].
    + destruct (String.eqb x EmptyString) eqn:E.
      * eexists. split; [reflexivity|]. split; [discriminate|].
        intros y Hy Hne'. injection Hy as <-. by apply String.eqb_neq in Hne'; congruence.
      * exists x. split; [reflexivity|]. split; [by apply String.eqb_neq|].
        intros y Hy _. by injection Hy.
    + eexists. split; [reflexivity|]. split; [discriminate | discriminate].
  - intros resp -> Hnull. unfold Worker.new_Response. rewrite Hnull.
    destruct (negb _); by eexists.
  - by intros err ->.
Qed.

Lemma worker_relays_status_and_body_witness :
  exists r, snd (Worker.handle Sample2.origin_401 Sample2.relay_request) = Ok r /\
    Worker.reply_status r = 401 /\ Worker.reply_body r = Some "{}".
Proof.
  destruct (worker_relays_status_and_body Sample2.origin_401 Sample2.relay_request
              "https://api.arkm.com/chains")
    as (c & _ & _ & H & _); [discriminate | reflexivity | discriminate |].
  destruct (H (Worker.mkOrigin 401 "{}" (Some "application/json")) eq_refl)
    as (r & E & Hs & Hb & _); [simpl; lia | reflexivity |].
  exists r. split; [exact E|]. split; [exact Hs | exact Hb].
Defined.

(** X4: whatever the request, the worker calls the origin at most once,
    always with GET, at the [url] parameter, and with no header other than
    an [API-Key] taken from [X-API-Key]; a preflight and a request without
    target are answered (200 and 400) without any call. *)
Theorem worker_calls_origin_sparingly
    (origin : Worker.call -> result Worker.origin_response) (req : Worker.request) :
  let calls := fst (Worker.handle origin req) in
  length calls <= 1 /\
  (forall c, In c calls ->
     Worker.call_method c = "GET" /\
     Transport.params_get "url" (Transport.searchParams (Worker.url_of req))
       = Some (Worker.call_target c) /\
     (Worker.call_headers c = [] \/
      exists k, Worker.call_headers c = [("api-key", k)] /\
        Transport.Headers_get "X-API-Key" (Worker.headers_of req) = Some k)) /\
  (Worker.method req = "OPTIONS" ->
     Worker.handle origin req = ([], Ok (Worker.mkReply 200 None Worker.cors))) /\
  (Worker.method req <> "OPTIONS" ->
     Transport.params_get "url" (Transport.searchParams (Worker.url_of req)) = None \/
     Transport.params_get "url" (Transport.searchParams (Worker.url_of req))
       = Some EmptyString ->
     Worker.handle origin req
       = ([], Ok (Worker.mkReply 400 (Some "Missing url param")
                    [("Access-Control-Allow-Origin", "*")]))).
Proof.
  cbv zeta. split; [|split; [|split]].
  - unfold Worker.handle. destruct (String.eqb _ "OPTIONS"); [simpl; lia|].
    destruct (String.eqb _ EmptyString); [simpl; lia|].
    destruct (origin _); simpl; lia.
  - intros c Hc.
    destruct (String.eqb (Worker.method req) "OPTIONS") eqn:Em.
    { unfold Worker.handle in Hc. by rewrite Em in Hc. }
    apply String.eqb_neq in Em.
    destruct (Transport.params_get "url" (Transport.searchParams (Worker.url_of req)))
      as [t|] eqn:Et.
    2:{ unfold Worker.handle in Hc. apply String.eqb_neq in Em. rewrite Em, Et in Hc.
        by simpl in Hc. }
    destruct (String.eqb t EmptyString) eqn:Ee.
    { unfold Worker.handle in Hc. apply String.eqb_neq in Em. rewrite Em, Et in Hc.
      by rewrite Ee in Hc. }
    apply String.eqb_neq in Ee.
    destruct (handle_forwards origin req t Em Et Ee) as (hs & E & Hhs & _).
    rewrite E in Hc. destruct Hc as [<-|[]]. simpl. split; [done|]. split; [done|].
    rewrite Hhs. destruct (Transport.Headers_get _ _) as [k|]; [|by left].
    destruct (negb _); [right; by exists k | by left].
  - intros Hm. unfold Worker.handle. by rewrite Hm.
  - intros Hm Ht. unfold Worker.handle. apply String.eqb_neq in Hm as ->.
    by destruct Ht as [-> | ->].
Qed.

Lemma worker_calls_origin_sparingly_witness :
  Worker.handle (fun _ => Throw "unreachable")
    (Worker.mkRequest "OPTIONS" (Transport.mkUrl Sample.worker_base [] EmptyString) [])
  = ([], Ok (Worker.mkReply 200 None Worker.cors)) /\
  Worker.handle (fun _ => Throw "unreachable")
    (Worker.mkRequest "GET" (Transport.mkUrl Sample.worker_base [] EmptyString) [])
  = ([], Ok (Worker.mkReply 400 (Some "Missing url param")
               [("Access-Control-Allow-Origin", "*")])).
Proof.
  split.
  - apply (worker_calls_origin_sparingly (fun _ => Throw "unreachable")
             (Worker.mkRequest "OPTIONS" (Transport.mkUrl Sample.worker_base [] EmptyString) [])).
    reflexivity.
  - apply (worker_calls_origin_sparingly (fun _ => Throw "unreachable")
             (Worker.mkRequest "GET" (Transport.mkUrl Sample.worker_base [] EmptyString) [])).
    + discriminate.
    + left. reflexivity.
Defined.

(** ** The API calls *)

(** X5: [checkKey] never looks at the status of the response: it reports
    the key invalid exactly when the body is a JSON object with a [message]
    member, and valid for every other response, a body that is not JSON
    included; only a rejected request makes it throw. *)
Theorem checkKey_reads_only_the_body
    (URL_parse : string -> option Transport.url)
    (JSON_parse : string -> option jsval)
    (fetch : Transport.resource -> Transport.options -> Transport.fetched)
    (apiKey : string) (proxy : option string) (signal : option nat) :
  let a := Transport.fetchWithProxyFirst URL_parse fetch "https://api.arkm.com/chains"
             (Api.keyed_options apiKey signal) proxy in
  let r := Api.checkKey URL_parse JSON_parse fetch apiKey proxy signal in
  (forall resp, Transport.outcome a = Transport.Resolved resp ->
     (forall m, r = Ok (Api.KeyInvalid m) <->
        exists fields, JSON_parse (Transport.body resp) = Some (JObj fields) /\
          assoc "message" fields = Some m) /\
     ((forall fields m, JSON_parse (Transport.body resp) = Some (JObj fields) ->
         assoc "message" fields <> Some m) -> r = Ok Api.KeyOk)) /\
  (forall err, Transport.outcome a = Transport.Rejected err -> r = Throw err).
Proof.
  cbv zeta. unfold Api.checkKey. split.
  - intros resp ->. split.
    + intros m. split.
      * destruct (JSON_parse (Transport.body resp)) as [[| | | | | |fs]|]; simpl; try done.
        destruct (assoc "message" fs) as [m'|] eqn:E; [|done].
        intros H. injection H as ->. by exists fs.
      * intros (fs & -> & ->). done.
    + intros H.
      destruct (JSON_parse (Transport.body resp)) as [[| | | | | |fs]|] eqn:E; simpl; try done.
      destruct (assoc "message" fs) as [m'|] eqn:E'; [|done].
      by destruct (H fs m' eq_refl).
  - by intros err ->.
Qed.

Lemma checkKey_reads_only_the_body_witness :
  Api.checkKey Sample.parse_worker_only (fun _ => None) Sample.erroring "k1" None (Some 0)
    = Ok Api.KeyOk /\
  Api.checkKey Sample.parse_worker_only (fun _ => None) Sample.blocked "k1" None (Some 0)
    = Throw "Failed to fetch".
Proof.
  split.
  - apply (proj1 (checkKey_reads_only_the_body Sample.parse_worker_only (fun _ => None)
                    Sample.erroring "k1" None (Some 0))
             (Transport.mkResponse 500 EmptyString) eq_refl).
    intros fields m H. discriminate H.
  - apply (proj2 (checkKey_reads_only_the_body Sample.parse_worker_only (fun _ => None)
                    Sample.blocked "k1" None (Some 0)) "Failed to fetch" eq_refl).
Defined.

Lemma crawl_turn_http_error
    (URL_parse : string -> option Transport.url)
    (URL_toString : Transport.url -> string)
    (JSON_parse : string -> option jsval)
    (fetch : Transport.resource -> Transport.options -> Transport.fetched)
    (entityId entityName : string) (limit : nat) (pages : Q)
    (apiKey : string) (proxy : option string) (signal : option nat)
    (chain : string) (idx : nat) (w : world) (resp : Transport.response) :
  fetch (Transport.Raw (URL_toString
           (Api.transfers_url chain entityId limit (fst (frame idx w) * limit))))
        (Api.keyed_options apiKey signal) = Transport.Resolved resp ->
  Api.ok resp = false ->
  Api.crawl_turn URL_parse URL_toString JSON_parse fetch entityId entityName limit
    pages apiKey proxy signal chain idx w
  = (fail chain ("Transfers failed @" +:+ chain +:+ ": "
                 +:+ Api.string_of_nat (Transport.status resp)) w, true).
Proof.
  intros Hf Hok.
  unfold Api.crawl_turn, Api.fetchTransfers, Transport.fetchWithProxyFirst.
  rewrite Hf. simpl. rewrite Hok. simpl.
  unfold crawl_step, page_body. by destruct (frame idx w).
Qed.

(** X6: the request of the page a chain is at asks for [limit] records
    from offset [i * limit]; when it is answered with a status outside
    200..299 the body is not read and the chain ends there with the status
    in its reason, one more completed chain, and no row and no page
    added. *)
Theorem http_error_fails_the_chain
    (URL_parse : string -> option Transport.url)
    (URL_toString : Transport.url -> string)
    (JSON_parse : string -> option jsval)
    (fetch : Transport.resource -> Transport.options -> Transport.fetched)
    (entityId entityName : string) (limit : nat) (pages : Q)
    (apiKey : string) (proxy : option string) (signal : option nat)
    (chain : string) (idx : nat) (w : world) (resp : Transport.response) :
  let i := fst (frame idx w) in
  let u := Api.transfers_url chain entityId limit (i * limit) in
  Transport.params_get "offset" (Transport.searchParams u)
    = Some (Api.string_of_nat (i * limit)) /\
  Transport.params_get "limit" (Transport.searchParams u) = Some (Api.string_of_nat limit) /\
  Transport.params_get "chains" (Transport.searchParams u) = Some chain /\
  Transport.params_get "base" (Transport.searchParams u) = Some entityId /\
  (fetch (Transport.Raw (URL_toString u)) (Api.keyed_options apiKey signal)
     = Transport.Resolved resp ->
   Api.ok resp = false ->
   let reason := "Transfers failed @" +:+ chain +:+ ": "
                 +:+ Api.string_of_nat (Transport.status resp) in
   let w' := fst (Api.crawl_turn URL_parse URL_toString JSON_parse fetch entityId
                    entityName limit pages apiKey proxy signal chain idx w) in
   Api.crawl_turn URL_parse URL_toString JSON_parse fetch entityId entityName limit
     pages apiKey proxy signal chain idx w = (fail chain reason w, true) /\
   allResults w' = allResults w /\
   completedPages w' = completedPages w /\
   completedChains w' = completedChains w + 1 /\
   (chain ∈ map fst (statuses w) -> assoc chain (statuses w') = Some (Failed reason))).
Proof.
  cbv zeta. split; [reflexivity|]. split; [reflexivity|].
  split; [reflexivity|]. split; [reflexivity|].
  intros Hf Hok.
  rewrite (crawl_turn_http_error URL_parse URL_toString JSON_parse fetch entityId
             entityName limit pages apiKey proxy signal chain idx w resp Hf Hok).
  split; [reflexivity|]. simpl. split; [reflexivity|]. split; [reflexivity|].
  split; [reflexivity|]. intros Hin. by apply write_status_lookup.
Qed.

Lemma http_error_fails_the_chain_witness :
  Api.crawl_turn Sample.parse_worker_only Transport.origin_path (fun _ => None)
    Sample.erroring "E1" "Acme" 500 3 "k1" None (Some 0) "bitcoin" 0 Sample2.fresh
  = (fail "bitcoin" "Transfers failed @bitcoin: 500" Sample2.fresh, true).
Proof.
  apply (proj1 (proj2 (proj2 (proj2 (proj2
    (http_error_fails_the_chain Sample.parse_worker_only Transport.origin_path
       (fun _ => None) Sample.erroring "E1" "Acme" 500 3 "k1" None (Some 0)
       "bitcoin" 0 Sample2.fresh (Transport.mkResponse 500 EmptyString))))) eq_refl eq_refl)).
Defined.

(** ** A chain that reads all its pages *)



(** ** When rows reach [allResults] *)

(** X20: what the arrival of a page does to [allResults], by how the turn
    of the loop ends.  A page after which the chain reads on leaves
    [allResults] as it is: its rows are in the chain's map only.  A page on
    which the chain returns normally appends the rows of the chain's map, and
    the status line reads their number.  A page on which the chain fails
    appends nothing, and the status line reads the reason. *)
Theorem rows_are_published_when_a_chain_returns
    (entityName : string) (pages : Q) (chains : list string)
    (s s' : orchestrator) (idx : nat) (chain : string) (p : page) :
  (1 <= pages)%Q -> NoDup chains ->
  reachable entityName pages chains s ->
  chains !! idx = Some chain ->
  deliver entityName pages chains idx p s = Some s' ->
  let i := fst (frame idx (Limiter.world s)) in
  let merged := snd (frame idx (Limiter.world s)) in
  match page_body entityName pages chain i merged p (Limiter.world s) with
  | Throw reason =>
      allResults (Limiter.world s') = allResults (Limiter.world s) /\
      assoc chain (statuses (Limiter.world s')) = Some (Failed reason) /\
      Limiter.mem idx (Limiter.running s') = false
  | Ok (c, m, _) =>
      if match c with Break => false | Next => Qltb (Qnat (S i)) pages end
      then
        allResults (Limiter.world s') = allResults (Limiter.world s) /\
        Limiter.running s' = Limiter.running s /\
        frame idx (Limiter.world s') = (S i, m)
      else
        allResults (Limiter.world s') = allResults (Limiter.world s) ++ values m /\
        assoc chain (statuses (Limiter.world s')) = Some (Completed (length (values m))) /\
        Limiter.mem idx (Limiter.running s') = false
  end.
Proof.
  intros Hpages Hnd Hs Hchain Hd.
  destruct (reachable_inv entityName pages chains Hpages s Hs) as [Hinv _].
  pose proof (deliver_cases entityName pages chains Hnd idx chain p s s' Hinv Hchain Hd)
    as H. cbv zeta in *.
  assert (forall st, gone idx chain st s' ->
            assoc chain (statuses (Limiter.world s')) = st /\
            Limiter.mem idx (Limiter.running s') = false) as Hgone.
  { intros st (_ & Hnot & Hst). split; [done|].
    destruct (Limiter.mem idx (Limiter.running s')) eqn:E; [|done].
    by apply mem_elem_of in E. }
  destruct (page_body entityName pages chain _ _ p (Limiter.world s))
    as [[[c m] w1]|reason].
  - destruct (match c with Break => false | Next => _ end); [done|].
    destruct H as [Ha Hg]. split; [done|]. by apply Hgone.
  - destruct H as [Ha Hg]. split; [done|]. by apply Hgone.
Qed.

Lemma rows_are_published_when_a_chain_returns_witness :
  allResults (Limiter.world Sample.after_btc_page)
    = allResults (Limiter.world (run_begin Sample.two_chains)) /\
  snd (frame 0 (Limiter.world Sample.after_btc_page))
    = [("bc1xyz@bitcoin", Sample.acme_btc_row)] /\
  allResults (Limiter.world Sample2.published)
    = allResults (Limiter.world (run_begin ["bitcoin"])) ++ [Sample.acme_btc_row].
Proof.
  assert (1 <= 2)%Q as H2 by discriminate. assert (1 <= 1)%Q as H1 by discriminate.
  assert (NoDup ["bitcoin"]) as Hnd by (apply NoDup_singleton).
  assert (NoDup Sample.two_chains) as Hnd2.
  { apply NoDup_cons. split; [|apply NoDup_singleton].
    intros H. apply list_elem_of_singleton in H. discriminate H. }
  pose proof (rows_are_published_when_a_chain_returns "Acme" 2 Sample.two_chains
                (run_begin Sample.two_chains) Sample.after_btc_page 0 "bitcoin"
                Sample.btc_page H2 Hnd2 (ex_intro _ [] eq_refl) eq_refl eq_refl) as Ha.
  pose proof (rows_are_published_when_a_chain_returns "Acme" 1 ["bitcoin"]
                (run_begin ["bitcoin"]) Sample2.published 0 "bitcoin"
                Sample.btc_page H1 Hnd (ex_intro _ [] eq_refl) eq_refl eq_refl) as Hb.
  vm_compute in Ha. vm_compute in Hb.
  destruct Ha as (Ha1 & _ & Ha3). destruct Hb as (Hb1 & _).
  split; [|split].
  - vm_compute. exact Ha1.
  - vm_compute. exact (f_equal snd Ha3).
  - vm_compute. exact Hb1.
Defined.

(** ** A record that cannot be printed *)

Lemma forEach_extract_throws (n : string) (txs : list jsval) :
  forall m msg, forEach_extract n txs m = Throw msg -> msg = "TypeError".
Proof.
  induction txs as [|tx txs IH]; intros m msg; simpl; [discriminate|].
  unfold prop. destruct (nullish tx); simpl.
  { intros H. by injection H as <-. }
  destruct (truthy (own tx "fromAddressOwner")).
  - destruct (extractHotWallet (own tx "fromAddressOwner") m n) as [m1|e] eqn:E; simpl.
    + apply IH.
    + intros H. injection H as <-. by apply extractHotWallet_throws in E.
  - simpl. destruct (extractHotWallet (own tx "fromAddress") m n) as [m1|e] eqn:E; simpl.
    + apply IH.
    + intros H. injection H as <-. by apply extractHotWallet_throws in E.
Qed.

Lemma forEach_extract_app (n : string) (a b : list jsval) (m : obj) :
  forEach_extract n (a ++ b) m =
  let* m1 := forEach_extract n a m in forEach_extract n b m1.
Proof.
  revert m. induction a as [|tx a IH]; intros m; simpl; [done|].
  destruct (prop tx "fromAddressOwner") as [owner|]; simpl; [|done].
  destruct (truthy owner).
  - destruct (extractHotWallet owner m n); simpl; [apply IH | done].
  - destruct (prop tx "fromAddress") as [from|]; simpl; [|done].
    destruct (extractHotWallet from m n); simpl; [apply IH | done].
Qed.

(** X21: one transfer whose sender is a hot wallet of the entity with an
    address or a chain that cannot be converted to a string fails the whole
    chain with a [TypeError], wherever it stands on the page and whatever
    the other records are: the page counts for nothing and the rows the
    chain has gathered are not published. *)
Theorem unprintable_hot_wallet_fails_the_chain
    (entityName : string) (pages : Q) (chain : string) (idx : nat) (w : world)
    (before after : list jsval) (tx : jsval) (msg : string) :
  nullish tx = false ->
  truthy (own tx "fromAddressOwner") = true ->
  qualifies (own tx "fromAddressOwner") entityName ->
  key_of_info (own tx "fromAddressOwner") = Throw msg ->
  let w' := fail chain "TypeError" w in
  crawl_step entityName pages chain idx
    (PageData (JObj [("transfers", JArr (before ++ tx :: after))])) w = (w', true) /\
  allResults w' = allResults w /\
  completedPages w' = completedPages w /\
  (chain ∈ map fst (statuses w) ->
   assoc chain (statuses w') = Some (Failed "TypeError")).
Proof.
  intros Hnn Htruthy Hq Hk w'.
  assert (forall m, forEach_extract entityName (before ++ tx :: after) m
                    = Throw "TypeError") as Hthrow.
  { intros m. rewrite forEach_extract_app.
    destruct (forEach_extract entityName before m) as [m1|e] eqn:E; simpl.
    - unfold prop. rewrite Hnn. simpl. rewrite Htruthy.
      by rewrite (extractHotWallet_unprintable _ m1 entityName msg Hq Hk).
    - by apply forEach_extract_throws in E as ->. }
  assert (length_is_zero (JArr (before ++ tx :: after)) = false) as Hz.
  { simpl. rewrite length_app. simpl. apply Nat.eqb_neq. lia. }
  split; [|split; [done|split; [done|]]].
  - unfold crawl_step, page_body, transfers_of, prop.
    destruct (frame idx w) as [i merged]. simpl. simpl in Hz.
    by rewrite Hz, Hthrow.
  - intros Hin. by apply write_status_lookup.
Qed.

Lemma unprintable_hot_wallet_fails_the_chain_witness :
  crawl_step "Acme" 3 "bitcoin" 0
    (PageData (JObj [("transfers",
       JArr ([Sample.tx_from Sample.acme_btc] ++ Sample.tx_from Sample.odd_address :: []))]))
    (Limiter.world Sample.after_btc_page)
  = (fail "bitcoin" "TypeError" (Limiter.world Sample.after_btc_page), true).
Proof.
  apply (unprintable_hot_wallet_fails_the_chain "Acme" 3 "bitcoin" 0
           (Limiter.world Sample.after_btc_page) [Sample.tx_from Sample.acme_btc] []
           (Sample.tx_from Sample.odd_address) "TypeError").
  - reflexivity.
  - reflexivity.
  - split; reflexivity.
  - reflexivity.
Defined.

(** ** The rows a run publishes *)

Lemma well_formed_of_info (r : jsval) (k : string) (row : Row) :
  key_of_info r = Ok k -> row_of_info r = Ok row -> well_formed (k, row).
Proof.
  intros Hk Hrow. destruct (row_of_info_printed r k Hk) as (a & Ha & Hrow').
  rewrite Hrow' in Hrow. injection Hrow as <-.
  split; [exact Hk|]. split; [done|]. by exists a.
Qed.

Lemma Forall_well_formed_set (k : string) (row : Row) (m : obj) :
  Forall well_formed m -> well_formed (k, row) -> Forall well_formed (obj_set k row m).
Proof.
  intros Hm Hk. induction m as [|[k' r'] m IH]; simpl.
  - by constructor.
  - inversion Hm as [|? ? Hhd Htl]; subst.
    destruct (String.eqb k k') eqn:E.
    + apply String.eqb_eq in E as <-. by constructor.
    + constructor; [done | by apply IH].
Qed.

Lemma good_map_extract (n : string) (r : jsval) (m m' : obj) :
  extractHotWallet r m n = Ok m' -> good_map m -> good_map m'.
Proof.
  intros E [Hnd Hwf].
  apply extractHotWallet_Ok in E as [[_ ->]|[_ (k & row & Hk & Hrow & ->)]]; [done|].
  split.
  - by apply obj_set_NoDup.
  - apply Forall_well_formed_set; [done | by apply (well_formed_of_info r)].
Qed.

Lemma good_map_forEach (n : string) (txs : list jsval) :
  forall m m', forEach_extract n txs m = Ok m' -> good_map m -> good_map m'.
Proof.
  induction txs as [|tx txs IH]; simpl; intros m m' E H.
  - by injection E as <-.
  - destruct (prop tx "fromAddressOwner") as [owner|]; simpl in E; [|done].
    destruct (truthy owner).
    + destruct (extractHotWallet owner m n) as [m1|] eqn:Em; simpl in E; [|done].
      eapply IH; [exact E|]. by eapply good_map_extract.
    + destruct (prop tx "fromAddress") as [from|]; simpl in E; [|done].
      destruct (extractHotWallet from m n) as [m1|] eqn:Em; simpl in E; [|done].
      eapply IH; [exact E|]. by eapply good_map_extract.
Qed.

Lemma good_map_page_body (n : string) (pages : Q) (chain : string) (i : nat)
    (merged merged' : obj) (p : page) (w w' : world) (c : control) :
  page_body n pages chain i merged p w = Ok (c, merged', w') ->
  good_map merged -> good_map merged'.
Proof.
  unfold page_body. destruct p as [reason|data]; [done|].
  destruct (transfers_of data) as [t|]; simpl; [|done].
  destruct (length_is_zero t).
  - intros E. by injection E as <- <- <-.
  - destruct (forEach n t merged) as [m|] eqn:Em; simpl; [|done].
    intros E. injection E as <- <- <-. destruct t; simpl in Em; try done.
    by eapply good_map_forEach.
Qed.

Lemma good_map_keys (m : obj) :
  good_map m ->
  NoDup (map (fun r => key_of (address r) (Extractor.chain r)) (values m)) /\
  Forall (fun r => exists k, key_of (address r) (Extractor.chain r) = Ok k) (values m) /\
  Forall well_formed_row (values m).
Proof.
  intros [Hnd Hwf].
  assert (map (fun r => key_of (address r) (Extractor.chain r)) (values m)
          = map Ok (keys m)) as ->.
  { unfold values, keys. rewrite !map_map. apply map_ext_in.
    intros [k r] Hin. apply list_elem_of_In in Hin.
    rewrite Forall_forall in Hwf. by destruct (Hwf _ Hin) as [-> _]. }
  split; [|split].
  - assert (Inj (=) (=) (@Ok string)) as Hinj by (intros x y H; by injection H).
    by apply (NoDup_fmap_2 Ok).
  - unfold values. apply Forall_fmap.
    eapply Forall_impl; [exact Hwf|]. intros [k r] (Hk & _). by exists k.
  - unfold values. apply Forall_fmap.
    eapply Forall_impl; [exact Hwf|]. intros [k r] H. by exists k.
Qed.

Lemma good_frame (idx : nat) (w : world) :
  Forall (fun f => good_map (snd f)) (frames w) -> good_map (snd (frame idx w)).
Proof.
  intros H. unfold frame. destruct (frames w !! idx) as [f|] eqn:E.
  - rewrite Forall_forall in H. apply H. by eapply list_elem_of_lookup_2.
  - split; [apply NoDup_nil_2 | constructor].
Qed.

Lemma rows_inv_crawl_begin (chain : string) (idx : nat) (w : world) :
  rows_inv w -> rows_inv (crawl_begin chain idx w).
Proof.
  intros [Hf Hr]. split; [|done]. simpl. apply Forall_insert; [done|].
  split; [apply NoDup_nil_2 | constructor].
Qed.

Lemma rows_inv_crawl_step (n : string) (pages : Q) (chain : string) (idx : nat)
    (p : page) (w w' : world) (d : bool) :
  rows_inv w -> crawl_step n pages chain idx p w = (w', d) ->
  rows_inv w' /\
  exists rows, allResults w' = allResults w ++ rows /\
    NoDup (map (fun r => key_of (address r) (Extractor.chain r)) rows) /\
    Forall (fun r => exists k, key_of (address r) (Extractor.chain r) = Ok k) rows.
Proof.
  intros [Hf Hr]. unfold crawl_step.
  pose proof (good_frame idx w Hf) as Hg.
  destruct (frame idx w) as [i merged]. simpl in Hg.
  destruct (page_body n pages chain i merged p w) as [[[c m] w1]|reason] eqn:E.
  - pose proof (good_map_page_body _ _ _ _ _ _ _ _ _ _ E Hg) as Hm.
    apply page_body_effect in E as (Hfr & Hc & Hres & Hs & _).
    destruct (good_map_keys m Hm) as (Hnd & Hpr & Hwf).
    assert (forall w2, finish chain m w1 = w2 ->
              rows_inv w2 /\ exists rows, allResults w2 = allResults w ++ rows /\
                NoDup (map (fun r => key_of (address r) (Extractor.chain r)) rows) /\
                Forall (fun r => exists k, key_of (address r) (Extractor.chain r) = Ok k)
                  rows) as Hfin.
    { intros w2 <-. split.
      - split; simpl; [by rewrite Hfr|]. rewrite Hres. by apply Forall_app.
      - exists (values m). simpl. by rewrite Hres. }
    destruct c.
    + intros H. injection H as <- <-. by apply Hfin.
    + destruct (Qltb (Qnat (S i)) pages).
      * intros H. injection H as <- <-. split.
        -- split; simpl; [|by rewrite Hres]. rewrite Hfr. by apply Forall_insert.
        -- exists []. simpl. rewrite Hres, app_nil_r.
           split; [done|]. split; [apply NoDup_nil_2 | constructor].
      * intros H. injection H as <- <-. by apply Hfin.
  - intros H. injection H as <- <-. split; [done|].
    exists []. simpl. rewrite app_nil_r.
    split; [done|]. split; [apply NoDup_nil_2 | constructor].
Qed.

Section published.

Variable entityName : string.
Variable pages : Q.
Variable chains : list string.

Lemma rows_inv_settle (idx : nat) (s0 : orchestrator) :
  rows_inv (Limiter.world s0) ->
  let s' := Limiter.settle crawl_begin chains 3 idx tt s0 in
  rows_inv (Limiter.world s') /\
  allResults (Limiter.world s') = allResults (Limiter.world s0).
Proof.
  intros H.
  apply (settle_preserves crawl_begin chains 3
           (fun t : orchestrator => rows_inv (Limiter.world t) /\
              allResults (Limiter.world t) = allResults (Limiter.world s0))).
  - intros item t [Ht Ha] _. simpl. split; [by apply rows_inv_crawl_begin | done].
  - intros t Ht _. exact Ht.
  - done.
Qed.

Lemma rows_inv_deliver (idx : nat) (p : page) (s s' : orchestrator) :
  rows_inv (Limiter.world s) ->
  deliver entityName pages chains idx p s = Some s' ->
  rows_inv (Limiter.world s') /\
  exists rows, allResults (Limiter.world s') = allResults (Limiter.world s) ++ rows /\
    NoDup (map (fun r => key_of (address r) (Extractor.chain r)) rows) /\
    Forall (fun r => exists k, key_of (address r) (Extractor.chain r) = Ok k) rows.
Proof.
  intros Hinv. unfold deliver.
  destruct (Limiter.mem idx (Limiter.running s)); [|done].
  destruct (chains !! idx) as [chain|]; [|done].
  destruct (crawl_step entityName pages chain idx p (Limiter.world s)) as [w' d] eqn:E.
  apply (rows_inv_crawl_step _ _ _ _ _ _ _ _ Hinv) in E as [Hw' Hrows].
  intros H. injection H as <-. destruct d; [|done].
  destruct (rows_inv_settle idx
              (Limiter.mkState (Limiter.nextIndex s) (Limiter.running s)
                 (Limiter.results s) (Limiter.racing s) w') Hw') as [H1 H2].
  split; [exact H1|]. by rewrite H2.
Qed.

Lemma rows_inv_begin : rows_inv (Limiter.world (run_begin chains)).
Proof.
  unfold run_begin.
  apply (begin_preserves crawl_begin chains 3
           (fun t : orchestrator => rows_inv (Limiter.world t))).
  - intros item t Ht _. simpl. by apply rows_inv_crawl_begin.
  - intros t Ht _. exact Ht.
  - simpl. split; simpl; [|constructor].
    apply Forall_replicate. split; [apply NoDup_nil_2 | constructor].
Qed.

Lemma rows_inv_reachable (s : orchestrator) :
  reachable entityName pages chains s -> rows_inv (Limiter.world s).
Proof.
  intros [evs Hrun].
  assert (forall evs s0, rows_inv (Limiter.world s0) ->
            run_events entityName pages chains evs s0 = Some s ->
            rows_inv (Limiter.world s)) as H.
  { clear evs Hrun. induction evs as [|[idx p] evs IH]; intros s0 H0; simpl.
    - intros E. by injection E as <-.
    - destruct (deliver entityName pages chains idx p s0) as [s1|] eqn:Ed; [|done].
      apply IH. by apply (rows_inv_deliver idx p s0 s1). }
  apply (H evs (run_begin chains)); [apply rows_inv_begin | done].
Qed.

End published.

(** X8: in every state of a run each row of [allResults] carries the
    label Hot Wallet, a chain and an address that can be converted to
    strings, and the explorer link of that address. *)
Theorem published_rows_are_hot_wallets
    (entityName : string) (pages : Q) (chains : list string) (s : orchestrator) (r : Row) :
  reachable entityName pages chains s ->
  In r (allResults (Limiter.world s)) ->
  label r = JStr "Hot Wallet" /\
  printable_row r /\
  exists a, ToString (address r) = Ok a /\
    arkm_url r = "https://intel.arkm.com/explorer/address/" +:+ a.
Proof.
  intros Hs Hin. apply rows_inv_reachable in Hs as [_ Hrows].
  rewrite Forall_forall in Hrows. apply list_elem_of_In in Hin.
  destruct (Hrows r Hin) as (k & Hk & Hl & Hu). simpl in *.
  split; [done|]. split; [|done].
  apply key_of_Ok in Hk as (a & c & Ha & Hc & _).
  split; [by exists c|]. split; [by exists a|]. rewrite Hl. by exists "Hot Wallet".
Qed.

(** X9: [allResults] only grows: each page that arrives leaves the list
    as it was or appends to it, and what one arrival appends, the rows of one
    chain, holds no two rows with the same address and chain texts. *)
Theorem allResults_is_append_only
    (entityName : string) (pages : Q) (chains : list string)
    (s s' : orchestrator) (idx : nat) (p : page) :
  reachable entityName pages chains s ->
  deliver entityName pages chains idx p s = Some s' ->
  exists rows,
    allResults (Limiter.world s') = allResults (Limiter.world s) ++ rows /\
    NoDup (map (fun r => key_of (address r) (Extractor.chain r)) rows) /\
    Forall (fun r => exists k, key_of (address r) (Extractor.chain r) = Ok k) rows.
Proof.
  intros Hs Hd. apply rows_inv_reachable in Hs.
  by destruct (rows_inv_deliver entityName pages chains idx p s s' Hs Hd) as [_ H].
Qed.

(** ** The counters of a run, once more *)

(** X10: for a whole page count, once a chain has failed on a page,
    [completedPages] stays below [totalPages] for the rest of the run,
    whatever the other chains do. *)
Theorem failed_chain_keeps_progress_short
    (entityName : string) (pages : Q) (chains : list string)
    (s1 s2 s : orchestrator) (idx : nat) (chain reason : string) (p : page)
    (evs : list (nat * page)) :
  (1 <= pages)%Q ->
  whole pages ->
  reachable entityName pages chains s1 ->
  chains !! idx = Some chain ->
  page_body entityName pages chain (fst (frame idx (Limiter.world s1)))
    (snd (frame idx (Limiter.world s1))) p (Limiter.world s1) = Throw reason ->
  deliver entityName pages chains idx p s1 = Some s2 ->
  run_events entityName pages chains evs s2 = Some s ->
  (completedPages (Limiter.world s) < totalPages pages chains)%Q.
Proof.
  intros Hpages Hwhole Hs1 Hchain Hthrow Hd Hrun.
  destruct (reachable_inv entityName pages chains Hpages s1 Hs1) as [Hinv _].
  destruct (accounted_step entityName pages chains Hpages Hwhole idx p s1 s2 Hinv Hd)
    as [_ Hlt].
  specialize (Hlt chain reason Hchain Hthrow).
  pose proof (crawl_inv_deliver entityName pages chains Hpages idx p s1 s2 Hinv Hd)
    as Hinv2.
  pose proof (accounted_run entityName pages chains Hpages Hwhole evs s2 s Hinv2 Hrun)
    as Hle.
  pose proof (completedPages_le_accounted pages chains Hpages s
                (run_events_inv entityName pages chains Hpages evs s2 s Hinv2 Hrun)) as Hs.
  destruct Hs1 as [evs1 Hrun1].
  pose proof (accounted_run entityName pages chains Hpages Hwhole evs1 _ s1
                (crawl_inv_begin pages chains Hpages) Hrun1) as Htop.
  pose proof (accounted_begin pages chains Hpages) as Hbegin.
  lra.
Qed.

(** X11: in every state of a run [completedChains] counts the chains that
    were started and are no longer running, and it never exceeds the number
    of chains. *)
Theorem completedChains_is_bounded
    (entityName : string) (pages : Q) (chains : list string) (s : orchestrator) :
  (1 <= pages)%Q ->
  reachable entityName pages chains s ->
  completedChains (Limiter.world s) + length (Limiter.running s) = Limiter.nextIndex s /\
  completedChains (Limiter.world s) <= length chains.
Proof.
  intros Hpages Hs.
  destruct (reachable_inv entityName pages chains Hpages s Hs)
    as [((Hn & _) & _ & _ & _ & Hch & _) _].
  split; [exact Hch | lia].
Qed.

(** ** The result table and the status panel *)

Lemma filterResults_app (a b : list Row) (f : string) :
  View.filterResults (a ++ b) f = View.filterResults a f ++ View.filterResults b f.
Proof.
  unfold View.filterResults. destruct (String.eqb f EmptyString); [done|].
  apply List.filter_app.
Qed.

Lemma filter_none (f : string) (rows : list Row) :
  existsb (fun r => strict_eq_str (Extractor.chain r) f) rows = false ->
  List.filter (fun r => strict_eq_str (Extractor.chain r) f) rows = [].
Proof.
  induction rows as [|r rows IH]; simpl; [done|].
  destruct (strict_eq_str (Extractor.chain r) f); simpl; [done | exact IH].
Qed.

Lemma strict_eq_str_spec (v : jsval) (s : string) :
  strict_eq_str v s = true <-> v = JStr s.
Proof.
  destruct v; simpl; try (split; discriminate).
  rewrite String.eqb_eq. split; congruence.
Qed.

Lemma render_rows_printable (rows : list Row) :
  Forall printable_row rows -> View.render_rows rows = Ok rows.
Proof.
  induction 1 as [|r rows ([c Hc] & [a Ha] & [l Hl]) Hall IH]; simpl; [done|].
  unfold View.render_row. rewrite Hc, Ha, Hl. simpl. by rewrite IH.
Qed.

Lemma count_chains_printable (rows : list Row) :
  Forall printable_row rows -> View.count_chains rows = Ok tt.
Proof.
  induction 1 as [|r rows ([c Hc] & _) Hall IH]; simpl; [done|].
  by rewrite Hc.
Qed.

Lemma filterResults_printable (rows : list Row) (f : string) :
  Forall printable_row rows -> Forall printable_row (View.filterResults rows f).
Proof.
  intros H. unfold View.filterResults. destruct (String.eqb f EmptyString); [done|].
  apply Forall_forall. intros r Hr. apply list_elem_of_In, filter_In in Hr as [Hr _].
  rewrite Forall_forall in H. apply H. by apply list_elem_of_In.
Qed.

(** X12: a call of [appendResults] with no rows leaves the table as it
    is; with rows whose fields, like those of [allResults], can be converted
    to strings, the table afterwards shows the rows of [allResults] and then
    the new rows, both under the current filter, whatever it showed before:
    rows appended by earlier calls stay only if they are in [allResults]. *)
Theorem appendResults_redraws_the_table
    (newRows allResults tbody : list Row) (currentFilter : string) :
  (newRows = [] -> View.appendResults newRows allResults currentFilter tbody = Ok tbody) /\
  (newRows <> [] ->
     Forall printable_row allResults -> Forall printable_row newRows ->
     View.appendResults newRows allResults currentFilter tbody
     = Ok (View.filterResults (allResults ++ newRows) currentFilter)).
Proof.
  split; [by intros ->|]. intros Hne Hall Hnew.
  destruct newRows as [|r rows]; [done|]. rewrite filterResults_app.
  unfold View.appendResults, View.updateChainFilter, View.renderResults.
  rewrite (count_chains_printable _ Hall). cbn [bind].
  rewrite (render_rows_printable _ (filterResults_printable _ currentFilter Hall)).
  cbn [bind].
  pose proof (render_rows_printable _ (filterResults_printable _ currentFilter Hnew)) as Hr.
  unfold View.filterResults in *.
  destruct (String.eqb currentFilter EmptyString); cbn [orb].
  - by rewrite Hr.
  - destruct (existsb _ (r :: rows)) eqn:E; [by rewrite Hr|].
    by rewrite (filter_none _ _ E), app_nil_r.
Qed.

Lemma appendResults_redraws_the_table_witness :
  View.appendResults [] [Sample.csv_row] "bitcoin" [] = Ok [] /\
  View.appendResults [Sample.csv_row] [] "ethereum" [Sample.csv_row; Sample.csv_row]
  = Ok (View.filterResults ([] ++ [Sample.csv_row]) "ethereum").
Proof.
  split.
  - apply (proj1 (appendResults_redraws_the_table [] [Sample.csv_row] [] "bitcoin")).
    reflexivity.
  - apply (proj2 (appendResults_redraws_the_table [Sample.csv_row] []
                    [Sample.csv_row; Sample.csv_row] "ethereum")).
    + discriminate.
    + constructor.
    + repeat constructor; eexists; reflexivity.
Defined.

(** X13: under a filter that is not empty [filterResults] keeps, in
    order, exactly the rows whose chain is that very string, so a row whose
    chain is not a string is dropped; filtering again by the same chain
    changes nothing and by another chain leaves no row. *)
Theorem filterResults_selects_one_chain (rows : list Row) (f g : string) :
  f <> EmptyString ->
  (forall r, In r (View.filterResults rows f) <-> In r rows /\ Extractor.chain r = JStr f) /\
  sublist (View.filterResults rows f) rows /\
  View.filterResults (View.filterResults rows f) f = View.filterResults rows f /\
  (g <> EmptyString -> g <> f -> View.filterResults (View.filterResults rows f) g = []).
Proof.
  intros Hf. unfold View.filterResults.
  apply String.eqb_neq in Hf as Hfb. rewrite Hfb.
  split; [|split; [|split]].
  - intros r. rewrite filter_In, strict_eq_str_spec. done.
  - clear. induction rows as [|r rows IH]; simpl; [constructor|].
    destruct (strict_eq_str (Extractor.chain r) f); by constructor.
  - clear. induction rows as [|r rows IH]; simpl; [done|].
    destruct (strict_eq_str (Extractor.chain r) f) eqn:E; simpl; [|exact IH].
    rewrite E. by f_equal.
  - intros Hg Hgf. apply String.eqb_neq in Hg as ->.
    clear -Hgf. induction rows as [|r rows IH]; simpl; [done|].
    destruct (strict_eq_str (Extractor.chain r) f) eqn:E; simpl; [|exact IH].
    apply strict_eq_str_spec in E. rewrite E. simpl.
    assert (String.eqb f g = false) as -> by (apply String.eqb_neq; congruence).
    exact IH.
Qed.

Lemma filterResults_selects_one_chain_witness :
  View.filterResults (View.filterResults [Sample.csv_row] "bitcoin") "bitcoin"
  = View.filterResults [Sample.csv_row] "bitcoin" /\
  View.filterResults (View.filterResults [Sample.csv_row] "bitcoin") "ethereum" = [].
Proof.
  destruct (filterResults_selects_one_chain [Sample.csv_row] "bitcoin" "ethereum")
    as (_ & _ & H1 & H2); [discriminate|].
  split; [exact H1|]. apply H2; discriminate.
Defined.

Lemma write_status_absent (chain : string) (st : chain_status)
    (l : list (string * chain_status)) :
  chain ∉ map fst l -> write_status chain st l = l.
Proof.
  induction l as [|[c old] l IH]; simpl; intros H; [done|].
  apply not_elem_of_cons in H as [Hne H].
  apply String.eqb_neq in Hne as ->. by rewrite IH.
Qed.

(** X14: [setChainStatus] writes the line of the named chain and no
    other; for a chain that has no line it changes nothing at all. *)
Theorem setChainStatus_touches_one_line (chain : string) (st : chain_status) (w : world) :
  (chain ∉ map fst (statuses w) -> setChainStatus chain st w = w) /\
  (chain ∈ map fst (statuses w) ->
     assoc chain (statuses (setChainStatus chain st w)) = Some st) /\
  (forall other, other <> chain ->
     assoc other (statuses (setChainStatus chain st w)) = assoc other (statuses w)) /\
  map fst (statuses (setChainStatus chain st w)) = map fst (statuses w).
Proof.
  split; [|split; [|split]].
  - intros H. unfold setChainStatus. rewrite write_status_absent by done. by destruct w.
  - intros H. simpl. by apply write_status_lookup.
  - intros other Hne. simpl. apply write_status_other. congruence.
  - simpl. apply write_status_names.
Qed.

Lemma setChainStatus_touches_one_line_witness :
  setChainStatus "dogecoin" (Failed "x") Sample2.fresh = Sample2.fresh /\
  assoc "bitcoin" (statuses (setChainStatus "bitcoin" (Completed 2) Sample2.fresh)) = Some (Completed 2).
Proof.
  destruct (setChainStatus_touches_one_line "dogecoin" (Failed "x") Sample2.fresh) as (H1 & _).
  destruct (setChainStatus_touches_one_line "bitcoin" (Completed 2) Sample2.fresh) as (_ & H2 & _).
  split.
  - apply H1. intros H. apply list_elem_of_In in H. simpl in H.
    destruct H as [H|[]]. discriminate H.
  - apply H2. apply list_elem_of_In. simpl. tauto.
Defined.

(** ** The export, once more *)




(** ** Runs of the scheduler *)

Section scheduler_runs.

Context {I A W : Type}.
Variable task_begin : I -> nat -> W -> W.
Variable items : list I.
Variable limit : nat.

Local Abbreviation state := (Limiter.state A W).
Local Abbreviation launch := (Limiter.launch (A:=A) task_begin).
Local Abbreviation runOne := (Limiter.runOne (A:=A) task_begin items limit).
Local Abbreviation settle := (Limiter.settle (A:=A) task_begin items limit).
Local Abbreviation run := (Schedule.run (A:=A) task_begin items limit).

Lemma sched_inv_settled (j : nat) (v : A) (s : state) :
  sched_inv (length items) s ->
  sched_inv (length items)
    {| Limiter.nextIndex := Limiter.nextIndex s;
       Limiter.running := List.filter (fun k => negb (Nat.eqb j k)) (Limiter.running s);
       Limiter.results := <[j := Some v]> (Limiter.results s);
       Limiter.racing := List.filter (fun snap => negb (Limiter.mem j snap)) (Limiter.racing s);
       Limiter.world := Limiter.world s |}.
Proof.
  intros (Hn & Hnd & Hlt & Hr). repeat split; simpl.
  - done.
  - by apply NoDup_remove.
  - intros k Hk. apply elem_of_remove in Hk as [Hk _]. by apply Hlt.
  - intros snap Hsnap. apply list_elem_of_In, filter_In in Hsnap as [Hsnap Hmem].
    apply list_elem_of_In in Hsnap. destruct (Hr snap Hsnap) as (k & Hk & Hk').
    exists k. split; [done|]. apply elem_of_remove. split; [done|].
    intros ->. apply mem_elem_of in Hk. by rewrite Hk in Hmem.
Qed.

Lemma slots_inv_launch (settled : list (nat * A)) (item : I) (s : state) :
  sched_inv (length items) s /\ slots_inv (length items) settled s ->
  items !! Limiter.nextIndex s = Some item ->
  sched_inv (length items) (launch item s) /\
  slots_inv (length items) settled (launch item s).
Proof.
  intros [Hs (Hlen & Hnd & Hin & Hout & Hrest & Hrun)] Hit.
  split; [by apply sched_inv_launch|].
  pose proof Hs as (_ & _ & Hlt & _).
  pose proof (lookup_lt_Some _ _ _ Hit) as Hn.
  split; [done|]. split; [done|]. simpl. split; [|split; [|split]].
  - intros j v Hj. destruct (Hin j v Hj) as (H1 & H2 & H3).
    split; [lia|]. split; [|done]. intros Hx.
    apply elem_of_app in Hx as [Hx|Hx]; [done|].
    apply list_elem_of_singleton in Hx. lia.
  - intros j Hj Hnot. apply Hout.
    + destruct (decide (j = Limiter.nextIndex s)) as [->|]; [|lia].
      exfalso. apply Hnot. apply elem_of_app. right. apply list_elem_of_singleton. done.
    + intros Hx. apply Hnot. apply elem_of_app. by left.
  - intros j Hj Hj'. apply Hrest; lia.
  - intros j Hj. apply elem_of_app in Hj as [Hj|Hj]; [by apply Hrun|].
    apply list_elem_of_singleton in Hj as ->. apply Hrest; lia.
Qed.

Lemma slots_inv_settle (settled : list (nat * A)) (j : nat) (v : A) (s : state) :
  sched_inv (length items) s -> slots_inv (length items) settled s ->
  j ∈ Limiter.running s ->
  sched_inv (length items) (settle j v s) /\
  slots_inv (length items) (settled ++ [(j, v)]) (settle j v s).
Proof.
  intros Hs (Hlen & Hnd & Hin & Hout & Hrest & Hrun) Hj.
  pose proof Hs as (Hn & Hndr & Hlt & _).
  pose proof (Hlt j Hj) as Hjn.
  apply (settle_preserves task_begin items limit
           (fun t => sched_inv (length items) t /\
                     slots_inv (length items) (settled ++ [(j, v)]) t)).
  - intros item t. apply slots_inv_launch.
  - intros t [Ht Hsl] Hne. split; [by apply sched_inv_suspend | exact Hsl].
  - split; [by apply sched_inv_settled|].
    split; [simpl; by rewrite length_insert|]. split; [|simpl; split; [|split; [|split]]].
    + rewrite map_app. simpl. apply NoDup_app. split; [done|].
      split; [|apply NoDup_singleton].
      intros k Hk Hk'. apply list_elem_of_singleton in Hk' as ->.
      apply list_elem_of_In, in_map_iff in Hk as ([k u] & Hku & Hin').
      simpl in Hku. subst k. by destruct (Hin j u Hin') as (_ & Hnot & _).
    + intros k u Hk. apply in_app_or in Hk as [Hk|Hk].
      * destruct (Hin k u Hk) as (H1 & H2 & H3). split; [done|]. split.
        -- intros Hx. apply elem_of_remove in Hx as [Hx _]. done.
        -- rewrite list_lookup_insert_ne; [done|]. intros ->. done.
      * destruct Hk as [Hk|[]]. injection Hk as <- <-. split; [done|]. split.
        -- intros Hx. apply elem_of_remove in Hx as [_ Hx]. done.
        -- apply list_lookup_insert_eq. lia.
    + intros k Hk Hnot. destruct (decide (k = j)) as [->|Hne].
      * exists v. apply in_or_app. right. by left.
      * destruct (Hout k Hk) as [u Hu].
        -- intros Hx. apply Hnot. apply elem_of_remove. done.
        -- exists u. apply in_or_app. by left.
    + intros k Hk Hk'. rewrite list_lookup_insert_ne by lia. by apply Hrest.
    + intros k Hk. apply elem_of_remove in Hk as [Hk Hne].
      rewrite list_lookup_insert_ne by done. by apply Hrun.
Qed.

Lemma slots_inv_begin (w : W) :
  sched_inv (length items) (Limiter.begin (A:=A) task_begin items limit w) /\
  slots_inv (length items) [] (Limiter.begin (A:=A) task_begin items limit w).
Proof.
  apply (begin_preserves task_begin items limit
           (fun t => sched_inv (length items) t /\ slots_inv (length items) [] t)).
  - intros item t. apply slots_inv_launch.
  - intros t [Ht Hsl] Hne. split; [by apply sched_inv_suspend | exact Hsl].
  - split.
    + repeat split; simpl; [lia | apply NoDup_nil_2 | |];
        intros ? Hx; by apply elem_of_nil in Hx.
    + split; [simpl; by rewrite length_replicate|].
      split; [apply NoDup_nil_2|]. simpl. split; [done|]. split; [|split].
      * intros j Hj. lia.
      * intros j _ Hj. by apply lookup_replicate_2.
      * intros j Hj. by apply elem_of_nil in Hj.
Qed.

Lemma slots_inv_run (order : list (nat * A)) :
  forall (settled : list (nat * A)) (s s' : state),
    sched_inv (length items) s -> slots_inv (length items) settled s ->
    awaited (length items) s ->
    run order s = Some s' ->
    sched_inv (length items) s' /\ slots_inv (length items) (settled ++ order) s' /\
    awaited (length items) s'.
Proof.
  induction order as [|[j v] order IH]; intros settled s s' Hs Hsl Haw; simpl.
  - intros E. injection E as <-. by rewrite app_nil_r.
  - unfold Schedule.settle_running.
    destruct (Limiter.mem j (Limiter.running s)) eqn:Hmem; [|done].
    apply mem_elem_of in Hmem. intros E.
    destruct (slots_inv_settle settled j v s Hs Hsl Hmem) as [Hs1 Hsl1].
    replace (settled ++ (j, v) :: order) with ((settled ++ [(j, v)]) ++ order)
      by (by rewrite <- app_assoc).
    apply (IH _ _ _ Hs1 Hsl1); [|exact E].
    apply settle_awaited; [by apply sched_inv_settled | exact Haw].
Qed.

(** With the limit 1. *)

Lemma runOne_when_idle (s : state) :
  limit = 1 -> Limiter.running s = [] -> Limiter.racing s = [] ->
  sequential (runOne s).
Proof.
  intros -> Hrun Hrace. unfold Limiter.runOne.
  destruct (drop (Limiter.nextIndex s) items) as [|item rest]; simpl.
  - by left.
  - rewrite Hrun. simpl. right. exists (Limiter.nextIndex s).
    unfold Limiter.suspend, Limiter.launch. simpl. by rewrite Hrun, Hrace.
Qed.

Lemma sequential_settle (j : nat) (v : A) (s : state) :
  limit = 1 -> sequential s -> j ∈ Limiter.running s -> sequential (settle j v s).
Proof.
  intros Hl [[Hrun _]|(k & Hrun & Hrace)] Hj.
  - rewrite Hrun in Hj. by apply elem_of_nil in Hj.
  - rewrite Hrun in Hj. apply list_elem_of_singleton in Hj as ->.
    unfold Limiter.settle. rewrite Hrun, Hrace. simpl.
    rewrite Nat.eqb_refl. simpl. by apply runOne_when_idle.
Qed.

Lemma sequential_begin (w : W) :
  limit = 1 -> sequential (Limiter.begin (A:=A) task_begin items limit w).
Proof.
  intros Hl. unfold Limiter.begin. rewrite Hl.
  destruct (length items) as [|n] eqn:E; simpl.
  - by left.
  - rewrite <- Hl. by apply runOne_when_idle.
Qed.

Lemma sequential_run (order : list (nat * A)) :
  forall s s' : state, limit = 1 -> sequential s -> run order s = Some s' -> sequential s'.
Proof.
  induction order as [|[j v] order IH]; intros s s' Hl Hseq; simpl.
  - intros E. by injection E as <-.
  - unfold Schedule.settle_running.
    destruct (Limiter.mem j (Limiter.running s)) eqn:Hmem; [|done].
    apply mem_elem_of in Hmem. apply IH; [done|]. by apply sequential_settle.
Qed.

End scheduler_runs.

(** X16: for a limit of at least 1 and tasks that settle one at a time in
    any order: no task settles twice, the slot of a settled task holds the
    value it settled with, the slots of the others are empty, and once no
    task is running every item has been started and every slot is
    written. *)
Theorem slots_hold_the_results_once_idle
    (I A W : Type) (task : I -> nat -> W -> W) (items : list I) (limit : nat) (w : W)
    (order : list (nat * A)) (s : Limiter.state A W) :
  1 <= limit ->
  Schedule.run task items limit order (Limiter.begin task items limit w) = Some s ->
  length (Limiter.results s) = length items /\
  NoDup (map fst order) /\
  (forall j v, In (j, v) order -> Limiter.results s !! j = Some (Some v)) /\
  (forall j, j ∈ Limiter.running s -> Limiter.results s !! j = Some None) /\
  (Limiter.running s = [] ->
     Limiter.nextIndex s = length items /\
     forall j, j < length items ->
       exists v, In (j, v) order /\ Limiter.results s !! j = Some (Some v)).
Proof.
  intros Hl Hrun.
  destruct (slots_inv_begin (A:=A) task items limit w) as [Hs0 Hsl0].
  destruct (slots_inv_run task items limit order [] _ s Hs0 Hsl0
              (begin_awaited (A:=A) task items limit w Hl) Hrun)
    as (Hs & (Hlen & Hnd & Hin & Hout & Hrest & Hrunning) & Haw).
  simpl in *. split; [done|]. split; [done|].
  split; [intros j v Hj; by destruct (Hin j v Hj) as (_ & _ & H)|].
  split; [done|]. intros Hidle.
  pose proof (all_started_when_idle items s Hs Haw Hidle) as Hall.
  split; [done|]. intros j Hj.
  destruct (Hout j) as [v Hv]; [lia | |].
  { rewrite Hidle. apply not_elem_of_nil. }
  exists v. split; [done|]. by destruct (Hin j v Hv) as (_ & _ & H).
Qed.

(** X17: with the limit 1 the scheduler is sequential: at most one task
    is running at any time, and it has returned only when no task is running
    and every slot holds the result of its task. *)
Theorem limit_one_is_sequential
    (I A W : Type) (task : I -> nat -> W -> W) (items : list I) (w : W)
    (order : list (nat * A)) (s : Limiter.state A W) :
  Schedule.run task items 1 order (Limiter.begin task items 1 w) = Some s ->
  length (Limiter.running s) <= 1 /\
  (Limiter.returned s = true ->
     Limiter.running s = [] /\
     forall j, j < length items ->
       exists v, In (j, v) order /\ Limiter.results s !! j = Some (Some v)).
Proof.
  intros Hrun.
  pose proof (sequential_run task items 1 order _ s eq_refl
                (sequential_begin (A:=A) task items 1 w eq_refl) Hrun) as Hseq.
  destruct (slots_inv_begin (A:=A) task items 1 w) as [Hs0 Hsl0].
  destruct (slots_inv_run task items 1 order [] _ s Hs0 Hsl0
              (begin_awaited (A:=A) task items 1 w (le_n 1)) Hrun)
    as (Hs & (Hlen & Hnd & Hin & Hout & Hrest & Hrunning) & Haw).
  simpl in *.
  assert (Limiter.returned s = true -> Limiter.running s = []) as Hret.
  { unfold Limiter.returned. destruct Hseq as [[Hr _]|(k & _ & Hrace)]; [done|].
    by rewrite Hrace. }
  split.
  - destruct Hseq as [[-> _]|(k & -> & _)]; simpl; lia.
  - intros Hreturned. specialize (Hret Hreturned). split; [done|].
    pose proof (all_started_when_idle items s Hs Haw Hret) as Hall.
    intros j Hj. destruct (Hout j) as [v Hv]; [lia | |].
    { rewrite Hret. apply not_elem_of_nil. }
    exists v. split; [done|]. by destruct (Hin j v Hv) as (_ & _ & H).
Qed.

(** ** The forwarded headers *)

Section forwarded_headers.

Import Transport.

Lemma assoc_delete_other (name other : string) (h : Headers) :
  other <> lower name -> assoc other (Headers_delete name h) = assoc other h.
Proof.
  intros Hne. unfold Headers_delete. induction h as [|[n v] h IH]; simpl; [done|].
  destruct (String.eqb n (lower name)) eqn:E; simpl.
  - apply String.eqb_eq in E as ->. by apply String.eqb_neq in Hne as ->.
  - by rewrite IH.
Qed.

End forwarded_headers.



(** ** Bodies of an unexpected shape *)

(** X19: a page whose body is [null] fails the chain; a body that is a
    string, a number, a boolean or an array has no [transfers] and ends the
    chain as exhausted, counting the pages that remain; a [transfers] array
    holding [null] fails the chain even if its other records qualify. *)
Theorem odd_bodies_fail_or_exhaust
    (entityName : string) (pages : Q) (chain : string) (idx : nat) (w : world) :
  crawl_step entityName pages chain idx (PageData JNull) w
    = (fail chain "TypeError" w, true) /\
  (forall data,
     (forall fields, data <> JObj fields) -> nullish data = false ->
     crawl_step entityName pages chain idx (PageData data) w
     = (finish chain (snd (frame idx w))
          (add_pages (pages - Qnat (fst (frame idx w)))%Q w), true)) /\
  (forall before after,
     crawl_step entityName pages chain idx
       (PageData (JObj [("transfers", JArr (before ++ JNull :: after))])) w
     = (fail chain "TypeError" w, true)).
Proof.
  split; [|split].
  - unfold crawl_step. by destruct (frame idx w).
  - intros data Hobj Hnull. unfold crawl_step, page_body, transfers_of, prop.
    destruct (frame idx w) as [i merged]. rewrite Hnull.
    destruct data; try done. by destruct (Hobj fields).
  - intros before after.
    assert (length_is_zero (JArr (before ++ JNull :: after)) = false) as Hz.
    { simpl. rewrite length_app. simpl. apply Nat.eqb_neq. lia. }
    assert (forall m, forEach_extract entityName (before ++ JNull :: after) m
                      = Throw "TypeError") as Hthrow.
    2:{ unfold crawl_step, page_body, transfers_of, prop.
        destruct (frame idx w) as [i merged]. simpl. simpl in Hz.
        by rewrite Hz, Hthrow. }
    clear Hz. induction before as [|tx before IH]; intros m; simpl; [done|].
    unfold prop. destruct (nullish tx); [done|]. simpl.
    destruct (truthy (own tx "fromAddressOwner")).
    + destruct (extractHotWallet (own tx "fromAddressOwner") m entityName)
        as [m1|msg] eqn:E; simpl; [apply IH|].
      by apply extractHotWallet_throws in E as ->.
    + simpl. destruct (extractHotWallet (own tx "fromAddress") m entityName)
        as [m1|msg] eqn:E; simpl; [apply IH|].
      by apply extractHotWallet_throws in E as ->.
Qed.

Lemma odd_bodies_fail_or_exhaust_witness :
  crawl_step "Acme" 3 "bitcoin" 0 (PageData (JStr "busy")) Sample2.fresh
  = (finish "bitcoin" (snd (frame 0 Sample2.fresh))
       (add_pages (3 - Qnat (fst (frame 0 Sample2.fresh)))%Q Sample2.fresh), true).
Proof.
  apply (proj1 (proj2 (odd_bodies_fail_or_exhaust "Acme" 3 "bitcoin" 0 Sample2.fresh)) (JStr "busy")).
  - intros fields H. discriminate H.
  - reflexivity.
Defined.

(** ** The further properties at sample inputs *)

Lemma published_rows_are_hot_wallets_witness :
  label Sample.acme_btc_row = JStr "Hot Wallet" /\
  printable_row Sample.acme_btc_row /\
  exists a, ToString (address Sample.acme_btc_row) = Ok a /\
    arkm_url Sample.acme_btc_row = "https://intel.arkm.com/explorer/address/" +:+ a.
Proof.
  apply (published_rows_are_hot_wallets "Acme" 1 ["bitcoin"] Sample2.published).
  - exists [(0, Sample.btc_page)]. vm_compute. reflexivity.
  - vm_compute. left. reflexivity.
Defined.

Lemma allResults_is_append_only_witness :
  exists rows,
    allResults (Limiter.world Sample2.published)
      = allResults (Limiter.world (run_begin ["bitcoin"])) ++ rows /\
    NoDup (map (fun r => key_of (address r) (Extractor.chain r)) rows) /\
    Forall (fun r => exists k, key_of (address r) (Extractor.chain r) = Ok k) rows.
Proof.
  apply (allResults_is_append_only "Acme" 1 ["bitcoin"] (run_begin ["bitcoin"])
           Sample2.published 0 Sample.btc_page).
  - exists []. reflexivity.
  - vm_compute. reflexivity.
Defined.

Lemma failed_chain_keeps_progress_short_witness :
  (completedPages (Limiter.world Sample2.after_failure_run)
   < totalPages 2 Sample.two_chains)%Q.
Proof.
  apply (failed_chain_keeps_progress_short "Acme" 2 Sample.two_chains
           Sample.after_btc_page Sample2.after_failure Sample2.after_failure_run
           0 "bitcoin" "timeout" (PageFailed "timeout") [(1, Sample.page_of [])]).
  - discriminate.
  - exists 2. reflexivity.
  - exists [(0, Sample.btc_page)]. vm_compute. reflexivity.
  - reflexivity.
  - reflexivity.
  - vm_compute. reflexivity.
  - vm_compute. reflexivity.
Defined.

Lemma completedChains_is_bounded_witness :
  completedChains (Limiter.world Sample2.after_failure)
    + length (Limiter.running Sample2.after_failure)
    = Limiter.nextIndex Sample2.after_failure /\
  completedChains (Limiter.world Sample2.after_failure) <= length Sample.two_chains.
Proof.
  apply (completedChains_is_bounded "Acme" 2 Sample.two_chains Sample2.after_failure).
  - discriminate.
  - exists [(0, Sample.btc_page); (0, PageFailed "timeout")]. vm_compute. reflexivity.
Defined.

Lemma slots_hold_the_results_once_idle_witness :
  length (Limiter.results Sample2.three_settled) = length ["a"; "b"; "c"] /\
  Limiter.results Sample2.three_settled !! 1 = Some (Some 20).
Proof.
  destruct (slots_hold_the_results_once_idle string nat unit Sample2.idle_task
              ["a"; "b"; "c"] 2 tt [(0, 10); (2, 30); (1, 20)] Sample2.three_settled)
    as (Hl & _ & Hv & _).
  - lia.
  - vm_compute. reflexivity.
  - split; [exact Hl|]. apply Hv. simpl. tauto.
Defined.

Lemma limit_one_is_sequential_witness :
  length (Limiter.running Sample2.two_in_turn) <= 1.
Proof.
  apply (limit_one_is_sequential string nat unit Sample2.idle_task ["a"; "b"] tt
           [(0, 10); (1, 20)] Sample2.two_in_turn).
  vm_compute. reflexivity.
Defined.
